(** * Delivery Escape: the simulation core and the cook minigame

    A shallow embedding of the game's session component (App), of its
    canvas component (GameCanvas), of the constants module and of the
    sequencer of the audio service, followed by the properties of the
    written specification that were checked on it and by further
    properties of the code.

    Conventions of the embedding.
    - A JavaScript number that holds a position, a speed or an angle is a
      rational [Q] with exact arithmetic (rounding of doubles is not
      modelled, except in the two constant expressions of the landing
      thresholds, which are the doubles the program compares with);
      counters, timers and scores, which only ever hold integers, are
      [Z].
    - [Math.PI] is the rational value of the double constant.
    - [Math.sin] and [Math.atan2] are taken as parameters ([MathLib]).
    - [Math.hypot (dx, dy) < 50] is written [dx*dx + dy*dy < 50*50].
    - [Math.random ()] and [Date.now ()] are inputs of the operation that
      calls them.
    - Calls to the audio service, particle bursts and the callbacks into
      App are recorded, in program order, as a list of [Event]s.  The
      callbacks only enqueue state updates; App applies them in order
      once the frame has run, and the inventory ref of the canvas is
      synchronised after every update of App.
    - Drawing is not modelled (camera position, particle animation and the
      frame counter only feed the painter). *)

From stdpp Require Import list.
From Stdlib Require Import QArith Qround Qabs ZArith Bool String Lia Lqa.

Open Scope Q_scope.

(** ** Numbers as the program uses them *)

Definition Qltb (a b : Q) : bool := negb (Qle_bool b a).

(** Truncation toward zero, as used by the remainder operator. *)
Definition Qtrunc (q : Q) : Z :=
  if Qle_bool 0 q then Qfloor q else Qceiling q.

(** [a % b] on numbers: the result has the sign of the dividend. *)
Definition jsRem (a b : Q) : Q := a - b * inject_Z (Qtrunc (a / b)).

Definition Math_PI : Q := 884279719003555 # 281474976710656.

(** The nearest integer, ties to the even one. *)
Definition roundHalfEven (q : Q) : Z :=
  let f := Qfloor q in
  match Qcompare (q - inject_Z f) (1 # 2) with
  | Lt => f
  | Gt => (f + 1)%Z
  | Eq => if Z.even f then f else (f + 1)%Z
  end.

(** The exponent of the binade of a positive rational: the floor of its
    binary logarithm. *)
Definition binade (q : Q) : Z :=
  let k := (Z.log2 (Qnum q) - Z.log2 (Zpos (Qden q)))%Z in
  if Qle_bool (Qpower 2 k) q then k else (k - 1)%Z.

(** The double nearest to a rational: 53 significant bits, round to
    nearest, ties to even (normal range, no overflow).  It is how a
    constant expression of the source is evaluated. *)
Definition toDouble (q : Q) : Q :=
  if Qeq_bool q 0 then 0
  else
    let a := Qabs q in
    let e := (binade a - 52)%Z in
    let m := roundHalfEven (a / Qpower 2 e) in
    let r := inject_Z m * Qpower 2 e in
    if Qltb q 0 then - r else r.
Definition Math_floor (q : Q) : Z := Qfloor q.
Definition Math_abs (q : Q) : Q := Qabs q.

Class MathLib := {
  Math_sin : Q -> Q;
  Math_atan2 : Q -> Q -> Q
}.

(** ** constants *)

Definition GRAVITY : Q := 0.6.
Definition JUMP_FORCE : Q := -15.
Definition ROTATION_SPEED : Q := 0.24.
Definition FRICTION : Q := 0.99.
Definition BASE_SPEED : Q := 8.
Definition MAX_SPEED : Q := 20.
Definition BOOST_SPEED : Q := 25.
Definition FLIGHT_SPEED : Q := 28.
Definition TERRAIN_SEGMENT_WIDTH : Q := 40.
Definition SLOPE_DROP : Q := 15.
Definition GAME_WIDTH : Q := 720.
Definition GAME_HEIGHT : Q := 1280.

(** ** types

    The enumerations and interfaces of the module of type declarations
    (Particle apart, which only feeds the painter). *)

Inductive GameState := MENU | PLAYING | GAME_OVER.
Inductive FishCookState := raw | perfect | burnt.
Inductive ObstacleType := rock_small.
Inductive DecorationType := tree_tall | tree_short | cabin.
Inductive PowerUpType := fish | sunglasses.

Definition GameState_eqb (a b : GameState) : bool :=
  match a, b with
  | MENU, MENU | PLAYING, PLAYING | GAME_OVER, GAME_OVER => true
  | _, _ => false
  end.

Module GrillSlot.
Record t := mk {
    id : string;
    progress : Q;
    state : FishCookState;
    isCooking : bool
  }.
End GrillSlot.

Module Point.
Record t := mk { x : Q; y : Q }.
End Point.

Module Obstacle.
Record t := mk {
    x : Q; y : Q; type : ObstacleType; width : Q; height : Q; passed : bool
  }.
Definition set_passed (b : bool) (o : t) : t :=
    mk (x o) (y o) (type o) (width o) (height o) b.
End Obstacle.

Module Decoration.
Record t := mk {
    x : Q; y : Q; type : DecorationType; width : Q; height : Q;
    delivered : bool
  }.
Definition set_delivered (b : bool) (d : t) : t :=
    mk (x d) (y d) (type d) (width d) (height d) b.
End Decoration.

Module PowerUp.
Record t := mk { x : Q; y : Q; type : PowerUpType; collected : bool }.
Definition set_collected (b : bool) (u : t) : t :=
    mk (x u) (y u) (type u) b.
End PowerUp.

Module Player.
Record t := mk {
    x : Q; y : Q; vx : Q; vy : Q; rotation : Q;
    isGrounded : bool; isDead : bool; score : Z; boostTimer : Z;
    backflipCount : Z; totalBackflips : Z; invincibleTimer : Z;
    flightTimer : Z; fishInventory : Z
  }.
Definition set_x v p := mk v (y p) (vx p) (vy p) (rotation p) (isGrounded p)
    (isDead p) (score p) (boostTimer p) (backflipCount p) (totalBackflips p)
    (invincibleTimer p) (flightTimer p) (fishInventory p).
Definition set_y v p := mk (x p) v (vx p) (vy p) (rotation p) (isGrounded p)
    (isDead p) (score p) (boostTimer p) (backflipCount p) (totalBackflips p)
    (invincibleTimer p) (flightTimer p) (fishInventory p).
Definition set_vx v p := mk (x p) (y p) v (vy p) (rotation p) (isGrounded p)
    (isDead p) (score p) (boostTimer p) (backflipCount p) (totalBackflips p)
    (invincibleTimer p) (flightTimer p) (fishInventory p).
Definition set_vy v p := mk (x p) (y p) (vx p) v (rotation p) (isGrounded p)
    (isDead p) (score p) (boostTimer p) (backflipCount p) (totalBackflips p)
    (invincibleTimer p) (flightTimer p) (fishInventory p).
Definition set_rotation v p := mk (x p) (y p) (vx p) (vy p) v (isGrounded p)
    (isDead p) (score p) (boostTimer p) (backflipCount p) (totalBackflips p)
    (invincibleTimer p) (flightTimer p) (fishInventory p).
Definition set_isGrounded v p := mk (x p) (y p) (vx p) (vy p) (rotation p) v
    (isDead p) (score p) (boostTimer p) (backflipCount p) (totalBackflips p)
    (invincibleTimer p) (flightTimer p) (fishInventory p).
Definition set_isDead v p := mk (x p) (y p) (vx p) (vy p) (rotation p)
    (isGrounded p) v (score p) (boostTimer p) (backflipCount p)
    (totalBackflips p) (invincibleTimer p) (flightTimer p) (fishInventory p).
Definition set_score v p := mk (x p) (y p) (vx p) (vy p) (rotation p)
    (isGrounded p) (isDead p) v (boostTimer p) (backflipCount p)
    (totalBackflips p) (invincibleTimer p) (flightTimer p) (fishInventory p).
Definition set_boostTimer v p := mk (x p) (y p) (vx p) (vy p) (rotation p)
    (isGrounded p) (isDead p) (score p) v (backflipCount p)
    (totalBackflips p) (invincibleTimer p) (flightTimer p) (fishInventory p).
Definition set_backflipCount v p := mk (x p) (y p) (vx p) (vy p)
    (rotation p) (isGrounded p) (isDead p) (score p) (boostTimer p) v
    (totalBackflips p) (invincibleTimer p) (flightTimer p) (fishInventory p).
Definition set_invincibleTimer v p := mk (x p) (y p) (vx p) (vy p)
    (rotation p) (isGrounded p) (isDead p) (score p) (boostTimer p)
    (backflipCount p) (totalBackflips p) v (flightTimer p) (fishInventory p).
Definition set_flightTimer v p := mk (x p) (y p) (vx p) (vy p)
    (rotation p) (isGrounded p) (isDead p) (score p) (boostTimer p)
    (backflipCount p) (totalBackflips p) (invincibleTimer p) v
    (fishInventory p).
Definition set_fishInventory v p := mk (x p) (y p) (vx p) (vy p)
    (rotation p) (isGrounded p) (isDead p) (score p) (boostTimer p)
    (backflipCount p) (totalBackflips p) (invincibleTimer p) (flightTimer p)
    v.
End Player.

(** What a frame tells the outside: audio calls, particle bursts and the
    four callbacks of the canvas component. *)
Inductive Sound :=
  | playJump | playCrash | playCheer | playApplause
  | playPowerUp (k : PowerUpType)
  | setEmergencyMode (enabled : bool).

Inductive Event :=
  | EvSound (s : Sound)
  | EvParticles (x y : Q) (count : nat)
  | EvGameOver (finalScore : Z)
  | EvScoreUpdate (score : Z) (speed : Q) (status : option string)
      (avalancheDist : Z)
  | EvCollectFish
  | EvDeliverFish.

(** ** App: session state and the cook minigame *)

Module App.
Record t := mk {
    gameState : GameState;
    score : Z;
    highScore : Z;
    status : option string;
    avalancheDist : Z;
    fishInventory : Z;
    grillSlots : list GrillSlot.t
  }.
Definition set_gameState v a := mk v (score a) (highScore a) (status a)
    (avalancheDist a) (fishInventory a) (grillSlots a).
Definition set_highScore v a := mk (gameState a) (score a) v (status a)
    (avalancheDist a) (fishInventory a) (grillSlots a).
Definition set_fishInventory v a := mk (gameState a) (score a)
    (highScore a) (status a) (avalancheDist a) v (grillSlots a).
Definition set_grillSlots v a := mk (gameState a) (score a) (highScore a)
    (status a) (avalancheDist a) (fishInventory a) v.
End App.

Definition emptySlot (i : string) : GrillSlot.t :=
  GrillSlot.mk i 0 raw false.

Definition initialSlots : list GrillSlot.t :=
  [emptySlot "1"; emptySlot "2"; emptySlot "3"].

Definition initialApp : App.t :=
  App.mk MENU 0 0 None 100 0 initialSlots.

Definition startGame (a : App.t) : App.t :=
  App.mk PLAYING 0 (App.highScore a) None (App.avalancheDist a) 0
    initialSlots.

Definition handleGameOver (finalScore : Z) (a : App.t) : App.t :=
  let a := App.set_gameState GAME_OVER a in
  if (App.highScore a <? finalScore)%Z then App.set_highScore finalScore a
  else a.

Definition handleScoreUpdate (currentScore : Z) (currentSpeed : Q)
    (currentStatus : option string) (dist : Z) (a : App.t) : App.t :=
  App.mk (App.gameState a) currentScore (App.highScore a) currentStatus dist
    (App.fishInventory a) (App.grillSlots a).

(** One period of the 50 ms cooking timer, for one slot. *)
Definition cookSlot (slot : GrillSlot.t) : GrillSlot.t :=
  if negb (GrillSlot.isCooking slot) then slot
  else
    let newProgress := GrillSlot.progress slot + 0.8 in
    let newState :=
      if Qltb 100 newProgress then burnt
      else if Qltb 60 newProgress then perfect
      else GrillSlot.state slot in
    match newState with
    | burnt => GrillSlot.mk (GrillSlot.id slot) 0 raw false
    | _ => GrillSlot.mk (GrillSlot.id slot) newProgress newState
             (GrillSlot.isCooking slot)
    end.

Definition cookTick (a : App.t) : App.t :=
  App.set_grillSlots (map cookSlot (App.grillSlots a)) a.

Fixpoint findIndex {A : Type} (f : A -> bool) (l : list A) : option nat :=
  match l with
  | [] => None
  | a :: l' => if f a then Some 0%nat else option_map S (findIndex f l')
  end.

Definition freshFish (slot : GrillSlot.t) : GrillSlot.t :=
  GrillSlot.mk (GrillSlot.id slot) 0 raw true.

Definition clearedSlot (slot : GrillSlot.t) : GrillSlot.t :=
  GrillSlot.mk (GrillSlot.id slot) 0 raw false.

Definition handleCollectFish (a : App.t) : App.t :=
  let prev := App.grillSlots a in
  match findIndex (fun s => negb (GrillSlot.isCooking s)) prev with
  | Some idx =>
      match prev !! idx with
      | Some s => App.set_grillSlots (<[idx := freshFish s]> prev) a
      | None => a
      end
  | None => a
  end.

(** [None] is the TypeError of reading [isCooking] of a slot that does not
    exist; the grill only offers the indices of its three slots. *)
Definition handleSlotTap (index : nat) (a : App.t) : option App.t :=
  match App.grillSlots a !! index with
  | None => None
  | Some slot =>
      if negb (GrillSlot.isCooking slot) then Some a
      else
        match GrillSlot.state slot with
        | perfect =>
            if (App.fishInventory a <? 3)%Z then
              Some (App.mk (App.gameState a) (App.score a) (App.highScore a)
                      (App.status a) (App.avalancheDist a)
                      (App.fishInventory a + 1)%Z
                      (<[index := clearedSlot slot]> (App.grillSlots a)))
            else Some a
        | _ => Some a
        end
  end.

Definition handleDeliverFish (a : App.t) : App.t :=
  App.set_fishInventory (Z.max 0 (App.fishInventory a - 1)) a.

(** The canvas reaches App only through its four callbacks. *)
Definition applyEvent (a : App.t) (e : Event) : App.t :=
  match e with
  | EvGameOver finalScore => handleGameOver finalScore a
  | EvScoreUpdate sc sp st d => handleScoreUpdate sc sp st d a
  | EvCollectFish => handleCollectFish a
  | EvDeliverFish => handleDeliverFish a
  | EvSound _ | EvParticles _ _ _ => a
  end.

Definition applyEvents (a : App.t) (evs : list Event) : App.t :=
  fold_left applyEvent evs a.

(** ** GameCanvas: the refs of the component *)

Module Game.
Record t := mk {
  player : Player.t;
  terrain : list Point.t;
  obstacles : list Obstacle.t;
  decorations : list Decoration.t;
  powerUps : list PowerUp.t;
  shake : Q;
  avalancheX : Q;
  startTime : Z;
  isHolding : bool;
  fishInventoryRef : Z
}.
Definition set_player v g := mk v (terrain g) (obstacles g) (decorations g)
  (powerUps g) (shake g) (avalancheX g) (startTime g) (isHolding g)
  (fishInventoryRef g).
Definition set_shake v g := mk (player g) (terrain g) (obstacles g)
  (decorations g) (powerUps g) v (avalancheX g) (startTime g) (isHolding g)
  (fishInventoryRef g).
Definition set_isHolding v g := mk (player g) (terrain g) (obstacles g)
  (decorations g) (powerUps g) (shake g) (avalancheX g) (startTime g) v
  (fishInventoryRef g).
Definition set_fishInventoryRef v g := mk (player g) (terrain g)
  (obstacles g) (decorations g) (powerUps g) (shake g) (avalancheX g)
  (startTime g) (isHolding g) v.
End Game.

Definition mountedPlayer : Player.t :=
  Player.mk 200 0 BASE_SPEED 0 0 false false 0 0 0 0 0 0 0.

Definition mountedGame : Game.t :=
  Game.mk mountedPlayer [] [] [] [] 0 (-500) 0 false 0.

Definition freshPlayer : Player.t :=
  Player.mk 100 200 BASE_SPEED 0 0 false false 0 0 0 0 0 0 0.

(** The loop [for (i = 0; i < GAME_WIDTH * 2; i += TERRAIN_SEGMENT_WIDTH)]
    of initGame; [rnd k] is the k-th draw of [Math.random ()]. *)
Fixpoint initTerrain (fuel : nat) (rnd : nat -> Q) (k : nat) (i ty : Q)
    : list Point.t :=
  match fuel with
  | O => []
  | S fuel' =>
      if Qltb i (GAME_WIDTH * 2) then
        let ty' := ty + (SLOPE_DROP + (rnd k - 0.5) * 10) in
        Point.mk i ty' :: initTerrain fuel' rnd (S k)
                            (i + TERRAIN_SEGMENT_WIDTH) ty'
      else []
  end.

Definition initGame (now : Z) (rnd : nat -> Q) (g : Game.t) : Game.t :=
  Game.mk freshPlayer (initTerrain 64 rnd 0 0 200) [] [] [] 0 (-800) now
    (Game.isHolding g) (Game.fishInventoryRef g).

(** The draws of [Math.random ()] that one call of updateTerrain may make,
    in the order of the calls. *)
Record TerrainRand := {
  r_jitter : Q;
  r_decoration : Q;
  r_cabin : Q;
  r_treeOffset : Q;
  r_treeKind : Q;
  r_rock : Q;
  r_powerUp : Q;
  r_powerUpKind : Q
}.

Definition shiftBehind {A : Type} (xof : A -> Q) (cleanupX : Q) (l : list A)
    : list A :=
  match l with
  | a :: l' => if Qltb (xof a) cleanupX then l' else l
  | [] => []
  end.

Definition spawnDecoration (r : TerrainRand) (nextX nextY : Q)
    (ds : list Decoration.t) : list Decoration.t :=
  if Qltb (r_decoration r) 0.10 then
    if Qltb (r_cabin r) 0.10 then
      ds ++ [Decoration.mk (nextX + 20) (nextY + 10) cabin 80 80 false]
    else
      ds ++ [Decoration.mk (nextX + r_treeOffset r * 20) (nextY + 10)
               (if Qltb 0.3 (r_treeKind r) then tree_tall else tree_short)
               40 100 false]
  else ds.

(** [None] is the TypeError of reading [x] of the last point of an empty
    terrain. *)
Definition updateTerrain `{MathLib} (r : TerrainRand) (playerX : Q)
    (g : Game.t) : option Game.t :=
  match last (Game.terrain g) with
  | None => None
  | Some lastPoint =>
      let g1 :=
        if Qltb (Point.x lastPoint) (playerX + GAME_WIDTH * 2) then
          let nextX := Point.x lastPoint + TERRAIN_SEGMENT_WIDTH in
          let noise := Math_sin (nextX * 0.01) * 15
                       + (r_jitter r - 0.5) * 10 in
          let nextY := Point.y lastPoint + SLOPE_DROP + noise in
          let rock := Qltb (r_rock r) 0.01 in
          Game.mk (Game.player g)
            (Game.terrain g ++ [Point.mk nextX nextY])
            (if rock then
               Game.obstacles g
                 ++ [Obstacle.mk nextX nextY rock_small 40 30 false]
             else Game.obstacles g)
            (spawnDecoration r nextX nextY (Game.decorations g))
            (if negb rock && Qltb (r_powerUp r) 0.012 then
               Game.powerUps g
                 ++ [PowerUp.mk nextX (nextY - 60)
                       (if Qltb 0.3 (r_powerUpKind r) then fish
                        else sunglasses) false]
             else Game.powerUps g)
            (Game.shake g) (Game.avalancheX g) (Game.startTime g)
            (Game.isHolding g) (Game.fishInventoryRef g)
        else g in
      let cleanupX := playerX - GAME_WIDTH in
      Some (Game.mk (Game.player g1)
              (shiftBehind Point.x cleanupX (Game.terrain g1))
              (shiftBehind Obstacle.x cleanupX (Game.obstacles g1))
              (shiftBehind Decoration.x cleanupX (Game.decorations g1))
              (shiftBehind PowerUp.x cleanupX (Game.powerUps g1))
              (Game.shake g1) (Game.avalancheX g1) (Game.startTime g1)
              (Game.isHolding g1) (Game.fishInventoryRef g1))
  end.

Fixpoint getGroundY `{MathLib} (t : list Point.t) (x : Q) : Q * Q :=
  match t with
  | p1 :: ((p2 :: _) as rest) =>
      if Qle_bool (Point.x p1) x && Qltb x (Point.x p2) then
        let ratio := (x - Point.x p1) / (Point.x p2 - Point.x p1) in
        let y := Point.y p1 + (Point.y p2 - Point.y p1) * ratio in
        let angle := Math_atan2 (Point.y p2 - Point.y p1)
                       (Point.x p2 - Point.x p1) in
        (y, angle)
      else getGroundY rest x
  | _ => (100000, 0)
  end.

(** ** updatePhysics, in the order of the source *)

Definition tickTimers (p : Player.t) : Player.t :=
  let p := if (0 <? Player.invincibleTimer p)%Z
           then Player.set_invincibleTimer (Player.invincibleTimer p - 1)%Z p
           else p in
  let p := if (0 <? Player.flightTimer p)%Z
           then Player.set_flightTimer (Player.flightTimer p - 1)%Z p
           else p in
  if (0 <? Player.boostTimer p)%Z
  then Player.set_boostTimer (Player.boostTimer p - 1)%Z p
  else p.

Definition targetSpeed (p : Player.t) : Q :=
  if (0 <? Player.invincibleTimer p)%Z then MAX_SPEED * 1.2
  else if (0 <? Player.flightTimer p)%Z then FLIGHT_SPEED
  else if (0 <? Player.boostTimer p)%Z then BOOST_SPEED
  else MAX_SPEED.

Definition gravityAssist (p : Player.t) : Player.t :=
  if Qltb (Player.vx p) (targetSpeed p)
  then Player.set_vx (Player.vx p + 0.1) p
  else Player.set_vx (Player.vx p * FRICTION) p.

Definition advance (p : Player.t) : Player.t :=
  let p := Player.set_x (Player.x p + Player.vx p) p in
  Player.set_y (Player.y p + Player.vy p) p.

Definition applyGravity (p : Player.t) : Player.t :=
  if (Player.flightTimer p <=? 0)%Z then
    if Qltb (Player.vy p) 0
    then Player.set_vy (Player.vy p + GRAVITY) p
    else Player.set_vy (Player.vy p + 0.3) p
  else
    let p := Player.set_vy (Player.vy p + GRAVITY * 0.3) p in
    if Qltb 2 (Player.vy p) then Player.set_vy 2 p else p.

Definition normRot (rotation : Q) : Q :=
  let n := jsRem rotation (Math_PI * 2) in
  let n := if Qltb Math_PI n then n - Math_PI * 2 else n in
  if Qltb n (- Math_PI) then n + Math_PI * 2 else n.

(** The two thresholds are constants of the program: the doubles that
    the expressions of the source evaluate to. *)
Definition PERFECT_THRESHOLD : Q :=
  Eval vm_compute in Qred (toDouble (30 * toDouble (Math_PI / 180))).
Definition CRASH_THRESHOLD : Q :=
  Eval vm_compute in Qred (toDouble (70 * toDouble (Math_PI / 180))).

Definition angleDiff (rotation groundAngle : Q) : Q :=
  Math_abs (normRot rotation - groundAngle).

(** The block guarded by [if (!p.isGrounded)]: the judgment of a new
    ground contact.  The second component is the camera shake. *)
Definition landing (groundAngle : Q) (p : Player.t) (shake : Q)
    : Player.t * Q * list Event :=
  let d := angleDiff (Player.rotation p) groundAngle in
  if Qltb CRASH_THRESHOLD d && (Player.invincibleTimer p <=? 0)%Z then
    (Player.set_rotation groundAngle (Player.set_vx 2 p), 25,
     [EvSound playCrash; EvParticles (Player.x p) (Player.y p) 15])
  else if (0 <? Player.backflipCount p)%Z then
    if Qltb d PERFECT_THRESHOLD then
      let bonusFrames := (60 + Player.backflipCount p * 30)%Z in
      let points := (Player.backflipCount p * 300)%Z in
      (Player.set_score (Player.score p + points)%Z
         (Player.set_boostTimer bonusFrames p), shake,
       [EvSound playCheer; EvParticles (Player.x p) (Player.y p) 20])
    else
      let points := (Player.backflipCount p * 150)%Z in
      (Player.set_score (Player.score p + points)%Z p, shake, [])
  else (p, shake, []).

(** How the floor-collision block leaves: by the [return] of the flight
    branch, or by falling through to the rest of updatePhysics. *)
Inductive Flow (A : Type) :=
  | Return (a : A)
  | Continue (a : A).
Arguments Return {A} a.
Arguments Continue {A} a.

Definition spin (holding : bool) (groundY : Q) (p : Player.t) : Player.t :=
  if holding && (Player.flightTimer p <=? 0)%Z then
    let heightFromGround := groundY - Player.y p in
    if Qltb 50 heightFromGround then
      let p := Player.set_rotation (Player.rotation p - ROTATION_SPEED) p in
      let totalRot := Math_abs (Player.rotation p) in
      let rotations :=
        Math_floor ((totalRot + Math_PI / 2) / (Math_PI * 2)) in
      if (Player.backflipCount p <? rotations)%Z
      then Player.set_backflipCount rotations p
      else p
    else p
  else p.

Definition floorCollision `{MathLib} (holding : bool) (t : list Point.t)
    (p : Player.t) (shake : Q) : Flow (Player.t * Q * list Event) :=
  let '(groundY, groundAngle) := getGroundY t (Player.x p) in
  let collisionThreshold :=
    if (0 <? Player.flightTimer p)%Z then groundY - 150 else groundY - 15 in
  if Qle_bool collisionThreshold (Player.y p) && Qle_bool 0 (Player.vy p)
  then
    if (0 <? Player.flightTimer p)%Z then
      Return (Player.set_vy 0 (Player.set_y collisionThreshold p), shake, [])
    else
      let '(p, shake, evs) :=
        if negb (Player.isGrounded p) then landing groundAngle p shake
        else (p, shake, []) in
      let p := Player.set_y collisionThreshold p in
      let p := Player.set_vy 0 p in
      let p := Player.set_isGrounded true p in
      let p := Player.set_backflipCount 0 p in
      Continue (Player.set_rotation groundAngle p, shake, evs)
  else
    let p := Player.set_isGrounded false p in
    Continue (spin holding groundY p, shake, []).

(** [forEach] over a list whose elements are mutated in place, with the
    state the callback closes over threaded through. *)
Fixpoint forEach {S A : Type} (f : S -> A -> S * A * list Event) (s : S)
    (l : list A) : S * list A * list Event :=
  match l with
  | [] => (s, [], [])
  | a :: l' =>
      let '(s1, a', e1) := f s a in
      let '(s2, l'', e2) := forEach f s1 l' in
      (s2, a' :: l'', e1 ++ e2)
  end.

Definition hitObstacle `{MathLib} (t : list Point.t) (ps : Player.t * Q)
    (obs : Obstacle.t) : (Player.t * Q) * Obstacle.t * list Event :=
  let p := fst ps in
  if Obstacle.passed obs then (ps, obs, [])
  else
    let obsHeight := Obstacle.height obs in
    let obsY := fst (getGroundY t (Obstacle.x obs)) in
    if Qltb (Obstacle.x obs - 7) (Player.x p)
       && Qltb (Player.x p) (Obstacle.x obs + 7) then
      if Qltb (obsY - obsHeight) (Player.y p) then
        ((Player.set_vx 2 p, 20), Obstacle.set_passed true obs,
         [EvSound playCrash; EvParticles (Player.x p) (Player.y p) 10])
      else (ps, obs, [])
    else (ps, obs, []).

Definition visitDecoration (p : Player.t) (dec : Decoration.t)
    : Player.t * Decoration.t * list Event :=
  match Decoration.type dec with
  | cabin =>
      if negb (Decoration.delivered dec)
         && (Qltb (Decoration.x dec - 100) (Player.x p)
             && Qltb (Player.x p) (Decoration.x dec + 100))
         && Qltb (Math_abs (Player.y p - Decoration.y dec)) 100
         && (0 <? Player.fishInventory p)%Z
      then
        (Player.set_score (Player.score p + 500)%Z
           (Player.set_flightTimer 80 p),
         Decoration.set_delivered true dec,
         [EvDeliverFish; EvSound playApplause;
          EvParticles (Decoration.x dec) (Decoration.y dec - 40) 15])
      else (p, dec, [])
  | _ => (p, dec, [])
  end.

Definition touchPowerUp (p : Player.t) (pu : PowerUp.t)
    : Player.t * PowerUp.t * list Event :=
  if PowerUp.collected pu then (p, pu, [])
  else
    let dx := Player.x p - PowerUp.x pu in
    let dy := Player.y p - PowerUp.y pu in
    if Qltb (dx * dx + dy * dy) (50 * 50) then
      match PowerUp.type pu with
      | fish =>
          (p, PowerUp.set_collected true pu,
           [EvCollectFish; EvSound (playPowerUp fish);
            EvParticles (Player.x p) (Player.y p) 10])
      | sunglasses =>
          (Player.set_vy (-10) (Player.set_invincibleTimer 180 p),
           PowerUp.set_collected true pu,
           [EvSound (playPowerUp sunglasses);
            EvParticles (Player.x p) (Player.y p) 20])
      end
    else (p, pu, []).

Definition elapsedSeconds (now start : Z) : Q :=
  inject_Z (now - start) / 1000.

(** The five stages of the avalanche's speed. *)
Definition stageSpeed (elapsed : Q) : Q :=
  let baseSpeed := 9 in
  if Qltb elapsed 30 then baseSpeed + 0.15 * elapsed
  else if Qltb elapsed 90 then
    let speedAt30 := 13.5 in speedAt30 + 0.2 * (elapsed - 30)
  else if Qltb elapsed 120 then
    let speedAt90 := 25.5 in speedAt90 + 0.075 * (elapsed - 90)
  else if Qltb elapsed 180 then
    let speedAt120 := 27.75 in speedAt120 + 0.03 * (elapsed - 120)
  else
    let speedAt180 := 29.55 in speedAt180 + 0.01 * (elapsed - 180).

Definition avTargetSpeed (elapsed : Q) (invincibleTimer : Z) : Q :=
  let avTargetSpeed := stageSpeed elapsed in
  if (0 <? invincibleTimer)%Z then avTargetSpeed - 2 else avTargetSpeed.

Definition advanceAvalanche (elapsed : Q) (p : Player.t) (avalancheX : Q)
    : Q :=
  let avalancheX :=
    avalancheX + avTargetSpeed elapsed (Player.invincibleTimer p) in
  if Qltb (Player.x p + 100) avalancheX then Player.x p + 100
  else avalancheX.

Definition deathCheck (gameState : GameState) (avalancheX : Q)
    (p : Player.t) : Player.t * list Event :=
  if Qltb (Player.x p - 30) avalancheX then
    (Player.set_isDead true p,
     if GameState_eqb gameState PLAYING
     then [EvGameOver (Math_floor (Player.x p / 10))]
     else [])
  else (p, []).

Definition statusLabel (p : Player.t) : option string :=
  if (0 <? Player.invincibleTimer p)%Z then Some "INVINCIBLE!"%string
  else if (0 <? Player.flightTimer p)%Z then Some "DELIVERY FLIGHT!"%string
  else if (0 <? Player.boostTimer p)%Z then Some "SPEED BOOST!"%string
  else None.

Definition hud (avalancheX : Q) (p : Player.t) : list Event :=
  let avDist :=
    Z.max 0 (Math_floor ((Player.x p - avalancheX) / 10)) in
  [EvSound (setEmergencyMode (avDist <? 200)%Z);
   EvScoreUpdate (Math_floor (Player.x p / 10)) (Player.vx p)
     (statusLabel p) avDist].

(** The head of updatePhysics, down to the floor collision: the sync of
    the inventory from the ref, the timers, the speed, the move and
    gravity. *)
Definition integrate (g : Game.t) : Player.t :=
  let p := Player.set_fishInventory (Game.fishInventoryRef g)
             (Game.player g) in
  let p := tickTimers p in
  let p := gravityAssist p in
  let p := advance p in
  applyGravity p.

(** [gameState] is the value the closure of the running loop captured. *)
Definition updatePhysics `{MathLib} (gameState : GameState) (now : Z)
    (g : Game.t) : Game.t * list Event :=
  let p := integrate g in
  match floorCollision (Game.isHolding g) (Game.terrain g) p (Game.shake g)
  with
  | Return (p, shake, evs) =>
      (Game.set_shake shake (Game.set_player p g), evs)
  | Continue (p, shake, ev1) =>
      let '(ps, obstacles, ev2) :=
        if (Player.invincibleTimer p <=? 0)%Z
           && (Player.flightTimer p <=? 0)%Z
        then forEach (hitObstacle (Game.terrain g)) (p, shake)
               (Game.obstacles g)
        else ((p, shake), Game.obstacles g, []) in
      let '(p, decorations, ev3) :=
        forEach visitDecoration (fst ps) (Game.decorations g) in
      let '(p, powerUps, ev4) :=
        forEach touchPowerUp p (Game.powerUps g) in
      let avalancheX :=
        advanceAvalanche (elapsedSeconds now (Game.startTime g)) p
          (Game.avalancheX g) in
      let '(p, ev5) := deathCheck gameState avalancheX p in
      (Game.mk p (Game.terrain g) obstacles decorations powerUps (snd ps)
         avalancheX (Game.startTime g) (Game.isHolding g)
         (Game.fishInventoryRef g),
       ev1 ++ ev2 ++ ev3 ++ ev4 ++ ev5 ++ hud avalancheX p)
  end.

(** Whether updatePhysics leaves through the [return] of the flight
    branch of the floor collision. *)
Definition returnsEarly `{MathLib} (g : Game.t) : bool :=
  match floorCollision (Game.isHolding g) (Game.terrain g) (integrate g)
          (Game.shake g) with
  | Return _ => true
  | Continue _ => false
  end.

(** Of render, only the decay of the camera shake touches the state kept
    here. *)
Definition render (g : Game.t) : Game.t :=
  if Qltb 0 (Game.shake g) then Game.set_shake (Game.shake g * 0.9) g
  else g.

(** One animation frame.  [None] is an uncaught exception, after which no
    further frame is requested. *)
Definition gameLoop `{MathLib} (gameState : GameState) (r : TerrainRand)
    (now : Z) (g : Game.t) : option (Game.t * list Event) :=
  if negb (GameState_eqb gameState PLAYING) then Some (g, [])
  else
    match updateTerrain r (Player.x (Game.player g)) g with
    | None => None
    | Some g =>
        let '(g, evs) := updatePhysics gameState now g in
        Some (render g, evs)
    end.

(** A press at height [clickY] on a canvas of height [height]. *)
Definition handleInputStart (gameState : GameState) (clickY height : Q)
    (g : Game.t) : Game.t * list Event :=
  if Qltb (height - 120) clickY then (g, [])
  else if negb (GameState_eqb gameState PLAYING) then (g, [])
  else
    let g := Game.set_isHolding true g in
    let p := Game.player g in
    if Player.isGrounded p then
      let p := Player.set_vy JUMP_FORCE p in
      let p := Player.set_isGrounded false p in
      let p := Player.set_y (Player.y p - 10) p in
      (Game.set_player p g,
       [EvSound playJump; EvParticles (Player.x p) (Player.y p + 20) 5])
    else if (0 <? Player.flightTimer p)%Z then
      (Game.set_player (Player.set_vy (JUMP_FORCE * 0.6) p) g, [])
    else (g, []).

Definition handleInputEnd (g : Game.t) : Game.t :=
  Game.set_isHolding false g.

(** ** The two components together

    [overLog] is a history variable: the final scores handed to
    onGameOver since the run started. *)

Module Sys.
Record t := mk {
  app : App.t;
  game : Game.t;
  overLog : list Z
}.
End Sys.

Inductive Input :=
  | Start (now : Z) (rnd : nat -> Q)
  | Frame (now : Z) (r : TerrainRand)
  | CookTimer
  | Tap (index : nat)
  | Press (clickY height : Q)
  | Release.

Definition finalScores (evs : list Event) : list Z :=
  flat_map (fun e => match e with EvGameOver s => [s] | _ => [] end) evs.

Definition reportedScores (evs : list Event) : list Z :=
  flat_map (fun e => match e with
                     | EvGameOver s => [s]
                     | EvScoreUpdate s _ _ _ => [s]
                     | _ => []
                     end) evs.

(** The scores handed to onScoreUpdate. *)
Definition hudScores (evs : list Event) : list Z :=
  flat_map (fun e => match e with
                     | EvScoreUpdate s _ _ _ => [s]
                     | _ => []
                     end) evs.

Definition deliveries (evs : list Event) : nat :=
  List.length
    (List.filter
       (fun e => match e with EvDeliverFish => true | _ => false end) evs).

Definition collects (evs : list Event) : nat :=
  List.length
    (List.filter
       (fun e => match e with EvCollectFish => true | _ => false end) evs).

(** The effect that mirrors App's inventory into the ref of the canvas. *)
Definition syncInventory (a : App.t) (g : Game.t) : Game.t :=
  Game.set_fishInventoryRef (App.fishInventory a) g.

Definition playing (s : Sys.t) : bool :=
  GameState_eqb (App.gameState (Sys.app s)) PLAYING.

(** The events of the frame [Frame now r] taken in [s]. *)
Definition frameEvents `{MathLib} (now : Z) (r : TerrainRand) (s : Sys.t)
    : list Event :=
  if playing s then
    match gameLoop PLAYING r now (Sys.game s) with
    | Some (_, evs) => evs
    | None => []
    end
  else [].

(** One input, handled to completion.  The start and retry buttons exist
    outside a run only, the grill and the running loop during a run only. *)
Definition step `{MathLib} (i : Input) (s : Sys.t) : Sys.t :=
  match i with
  | Start now rnd =>
      if playing s then s
      else
        let a := startGame (Sys.app s) in
        Sys.mk a (syncInventory a (initGame now rnd (Sys.game s))) []
  | Frame now r =>
      if playing s then
        match gameLoop PLAYING r now (Sys.game s) with
        | Some (g, evs) =>
            let a := applyEvents (Sys.app s) evs in
            Sys.mk a (syncInventory a g) (Sys.overLog s ++ finalScores evs)
        | None => s
        end
      else s
  | CookTimer =>
      if playing s then Sys.mk (cookTick (Sys.app s)) (Sys.game s) (Sys.overLog s)
      else s
  | Tap index =>
      if playing s then
        match handleSlotTap index (Sys.app s) with
        | Some a => Sys.mk a (syncInventory a (Sys.game s)) (Sys.overLog s)
        | None => s
        end
      else s
  | Press clickY height =>
      Sys.mk (Sys.app s)
        (fst (handleInputStart (App.gameState (Sys.app s)) clickY height
                (Sys.game s)))
        (Sys.overLog s)
  | Release => Sys.mk (Sys.app s) (handleInputEnd (Sys.game s)) (Sys.overLog s)
  end.

Definition initialSys : Sys.t := Sys.mk initialApp mountedGame [].

Inductive reachable `{MathLib} : Sys.t -> Prop :=
  | reach_init : reachable initialSys
  | reach_step i s : reachable s -> reachable (step i s).

Definition run `{MathLib} (inputs : list Input) (s : Sys.t) : Sys.t :=
  fold_left (fun s i => step i s) inputs s.

(** ** The schedule of the avalanche, as the comment above it tabulates it *)

Definition stageFrom (i : nat) : Q := nth i [0; 30; 90; 120; 180] 0.
Definition stageRate (i : nat) : Q :=
  nth i [0.15; 0.2; 0.075; 0.03; 0.01] 0.

Definition inStage (i : nat) (elapsed : Q) : Prop :=
  match i with
  | 0%nat => elapsed < 30
  | 1%nat => 30 <= elapsed < 90
  | 2%nat => 90 <= elapsed < 120
  | 3%nat => 120 <= elapsed < 180
  | 4%nat => 180 <= elapsed
  | _ => False
  end.

(** ** Landing, in the words of the specification

    The specification judges a landing on the rotation normalised to the
    half-open interval from minus pi (excluded) to pi (included). *)



(** ** Notions used by the statements *)

(** What the collision loops may do to the player: position, inventory
    snapshot and death flag stay; the speed may drop to 2; a delivery sets
    the flight timer to 80 and needs a fish; sunglasses set the
    invincibility timer to 180. *)
Definition collided (p q : Player.t) : Prop :=
  Player.x q = Player.x p
  /\ Player.y q = Player.y p
  /\ Player.fishInventory q = Player.fishInventory p
  /\ Player.isDead q = Player.isDead p
  /\ (Player.vx q = Player.vx p \/ Player.vx q = 2)
  /\ (Player.flightTimer q = Player.flightTimer p
      \/ (Player.flightTimer q = 80%Z /\ (0 < Player.fishInventory p)%Z))
  /\ (Player.invincibleTimer q = Player.invincibleTimer p
      \/ Player.invincibleTimer q = 180%Z).

(** Events that carry no score to App. *)
Definition silent (e : Event) : Prop :=
  match e with
  | EvGameOver _ | EvScoreUpdate _ _ _ _ => False
  | _ => True
  end.

(** The test of hitObstacle, of visitDecoration and of touchPowerUp on
    the player's position. *)
Definition hits `{MathLib} (t : list Point.t) (x y : Q) (obs : Obstacle.t)
    : bool :=
  Qltb (Obstacle.x obs - 7) x && Qltb x (Obstacle.x obs + 7)
  && Qltb (fst (getGroundY t (Obstacle.x obs)) - Obstacle.height obs) y.

Definition atCabin (x y : Q) (dec : Decoration.t) : bool :=
  match Decoration.type dec with
  | cabin =>
      Qltb (Decoration.x dec - 100) x && Qltb x (Decoration.x dec + 100)
      && Qltb (Qabs (y - Decoration.y dec)) 100
  | _ => false
  end.

Definition inReach (x y : Q) (pu : PowerUp.t) : bool :=
  Qltb ((x - PowerUp.x pu) * (x - PowerUp.x pu)
        + (y - PowerUp.y pu) * (y - PowerUp.y pu)) (50 * 50).

Definition decrement (inventory : Z) : Z := Z.max 0 (inventory - 1).

(** What holds of the two components between any two inputs. *)
Definition invariant (s : Sys.t) : Prop :=
  let a := Sys.app s in
  let g := Sys.game s in
  let p := Game.player g in
  (0 < Player.vx p /\ Player.vx p <= 28.1)
  /\ Game.avalancheX g <= Player.x p + 100
  /\ (0 <= App.fishInventory a <= 3)%Z
  /\ Game.fishInventoryRef g = App.fishInventory a
  /\ (0 <= Player.fishInventory p <= 3)%Z
  /\ List.length (App.grillSlots a) = 3%nat
  /\ match App.gameState a with
     | PLAYING =>
         Game.terrain g <> [] /\ Game.avalancheX g <= Player.x p - 30
         /\ Sys.overLog s = [] /\ Player.isDead p = false
     | GAME_OVER =>
         Player.x p - 30 < Game.avalancheX g
         /\ Sys.overLog s = [Math_floor (Player.x p / 10)]
         /\ Player.isDead p = true
     | MENU =>
         Game.avalancheX g <= Player.x p - 30
         /\ Sys.overLog s = [] /\ Player.isDead p = false
     end.

(** Two players that differ at most in the [score] accumulator. *)
Definition sameButScore (p q : Player.t) : Prop :=
  Player.set_score 0 p = Player.set_score 0 q.

(** Events that only feed the speakers and the painter. *)
Definition feedback (e : Event) : Prop :=
  match e with
  | EvSound _ | EvParticles _ _ _ => True
  | _ => False
  end.

(** Whether a pass of a loop turned a flag on. *)
Definition newlyPassed (oo : Obstacle.t * Obstacle.t) : bool :=
  negb (Obstacle.passed (fst oo)) && Obstacle.passed (snd oo).

Definition newlyDelivered (dd : Decoration.t * Decoration.t) : bool :=
  negb (Decoration.delivered (fst dd)) && Decoration.delivered (snd dd).

Definition newlyCollectedFish (uu : PowerUp.t * PowerUp.t) : bool :=
  negb (PowerUp.collected (fst uu)) && PowerUp.collected (snd uu)
  && match PowerUp.type (fst uu) with fish => true | sunglasses => false end.

(** The guard of the obstacle loop. *)
Definition vulnerable (p : Player.t) : bool :=
  (Player.invincibleTimer p <=? 0)%Z && (Player.flightTimer p <=? 0)%Z.

(** ** An idle player

    No press and no tap: between two frames only the cooking timer fires,
    [cooks] times.  [idleRun n] is the session after [n] frames, frame [k]
    reading the clock [clock k] and the draws [rnd k]. *)

Definition idleFrame `{MathLib} (cooks : nat) (now : Z) (r : TerrainRand)
    (s : Sys.t) : Sys.t :=
  step (Frame now r) (Nat.iter cooks (step CookTimer) s).

Fixpoint idleRun `{MathLib} (n : nat) (clock : nat -> Z)
    (rnd : nat -> TerrainRand) (cooks : nat -> nat) (s : Sys.t) : Sys.t :=
  match n with
  | O => s
  | S n' =>
      idleFrame (cooks n') (clock n') (rnd n')
        (idleRun n' clock rnd cooks s)
  end.

(** The lead of the player over the avalanche. *)
Definition lead (s : Sys.t) : Q :=
  Player.x (Game.player (Sys.game s)) - Game.avalancheX (Sys.game s).

(** What an idle run keeps: the invariant, an empty inventory, no flight,
    the start time of the run, and a session that is past the menu. *)
Definition idling (t0 : Z) (s : Sys.t) : Prop :=
  invariant s
  /\ App.fishInventory (Sys.app s) = 0%Z
  /\ Player.flightTimer (Game.player (Sys.game s)) = 0%Z
  /\ Game.startTime (Sys.game s) = t0
  /\ App.gameState (Sys.app s) <> MENU.

(** A bound on the lead after [n] idle frames at least 1 ms apart: the
    player gains at most 21.1 per frame, and loses at least 1.65 per
    frame from frame 400000 on. *)
Definition leadBound (n : nat) : Q :=
  let k := inject_Z (Z.of_nat n) in
  if (Z.of_nat n <? 400000)%Z then 900 + 21.1 * k
  else 900 + 21.1 * 400000 - 1.65 * (k - 400000).

(** ** Notions used by the further properties *)

(** A grill slot as the cooking timer, the collect event and the tap
    leave it: never burnt, progress between 0 and 100, empty when not
    cooking, and raw exactly up to progress 60 when cooking. *)
Definition slotOk (s : GrillSlot.t) : Prop :=
  GrillSlot.state s <> burnt
  /\ 0 <= GrillSlot.progress s <= 100
  /\ (GrillSlot.isCooking s = false ->
      GrillSlot.progress s == 0 /\ GrillSlot.state s = raw)
  /\ (GrillSlot.isCooking s = true ->
      (GrillSlot.state s = raw <-> GrillSlot.progress s <= 60)).

Definition grillOk (a : App.t) : Prop :=
  List.map GrillSlot.id (App.grillSlots a) = ["1"; "2"; "3"]%string
  /\ Forall slotOk (App.grillSlots a).

Definition cookingCount (slots : list GrillSlot.t) : nat :=
  List.length (List.filter GrillSlot.isCooking slots).

(** Terrain samples one segment width apart, from left to right. *)
Fixpoint spaced (t : list Point.t) : Prop :=
  match t with
  | p1 :: ((p2 :: _) as rest) =>
      Point.x p2 == Point.x p1 + TERRAIN_SEGMENT_WIDTH /\ spaced rest
  | _ => True
  end.

(** The straight line through two samples, at [x]. *)
Definition interpolate (p1 p2 : Point.t) (x : Q) : Q :=
  Point.y p1
  + (Point.y p2 - Point.y p1)
    * ((x - Point.x p1) / (Point.x p2 - Point.x p1)).

(** The terrain around the player: samples one segment apart, the first
    at most 760 behind the player, the last between 1300 and 1480
    ahead. *)
Definition covered (g : Game.t) : Prop :=
  let px := Player.x (Game.player g) in
  spaced (Game.terrain g)
  /\ match head (Game.terrain g), last (Game.terrain g) with
     | Some p0, Some pl =>
         px - 760 <= Point.x p0 <= px
         /\ px + 1300 <= Point.x pl <= px + 1480
     | _, _ => False
     end.

(** The abscissas that the loop of initGame visits. *)
Fixpoint initAbscissas (fuel : nat) (i : Q) : list Q :=
  match fuel with
  | O => []
  | S fuel' =>
      if Qltb i (GAME_WIDTH * 2)
      then i :: initAbscissas fuel' (i + TERRAIN_SEGMENT_WIDTH)
      else []
  end.

(** Past the menu the terrain is laid out around the player. *)
Definition onTerrain (s : Sys.t) : Prop :=
  App.gameState (Sys.app s) <> MENU -> covered (Sys.game s).

(** The ranges in which the speed, the timers, the counters and the camera
    shake stay.  The first component is the player, the second the
    shake. *)
Definition inRange (ps : Player.t * Q) : Prop :=
  let p := fst ps in
  2 <= Player.vx p <= 28.1
  /\ (0 <= Player.invincibleTimer p <= 180)%Z
  /\ (0 <= Player.flightTimer p <= 80)%Z
  /\ (0 <= Player.boostTimer p)%Z
  /\ (0 <= Player.backflipCount p)%Z
  /\ (0 <= Player.score p)%Z
  /\ Player.totalBackflips p = 0%Z
  /\ (Player.isGrounded p = true -> Player.backflipCount p = 0%Z)
  /\ 0 <= snd ps <= 25.

(** ** The audio service: the sequencer of the background music

    [isInitialized] stands for the three fields that init sets together
    (the audio context, the master gain and the flag itself); [timerID]
    tells whether a timeout of the scheduler is pending.  The clock of
    the audio context is an input of the operation that reads it.  The
    oscillators that a call starts are recorded as a list of [Voice]s. *)

Module Audio.

Inductive DrumType := kick | snare.
Inductive OscillatorType := sine | square | sawtooth | triangle.

Inductive Voice :=
  | Drum (type : DrumType) (time : Q)
  | Tone (type : OscillatorType) (freq time duration vol : Q).

Record t := mk {
  nextNoteTime : Q;
  timerID : bool;
  isMuted : bool;
  isInitialized : bool;
  beatCount : Z;
  isEmergency : bool
}.

Definition initial : t := mk 0 false false false 0 false.

Definition init (a : t) : t :=
  if isInitialized a then a
  else mk (nextNoteTime a) (timerID a) (isMuted a) true (beatCount a)
         (isEmergency a).

Definition toggleMute (a : t) : t * bool :=
  let a := mk (nextNoteTime a) (timerID a) (negb (isMuted a))
             (isInitialized a) (beatCount a) (isEmergency a) in
  (a, isMuted a).

Definition setEmergencyMode (enabled : bool) (a : t) : t :=
  mk (nextNoteTime a) (timerID a) (isMuted a) (isInitialized a)
    (beatCount a) enabled.

Definition stepTime (a : t) : Q :=
  let bpm := if isEmergency a then 175 else 140 in
  let secondsPerBeat := 60.0 / bpm in
  secondsPerBeat / 2.

Definition advanceNote (a : t) : t :=
  mk (nextNoteTime a + stepTime a) (timerID a) (isMuted a)
    (isInitialized a) (beatCount a + 1)%Z (isEmergency a).

Definition playDrum (a : t) (type : DrumType) (time : Q) : list Voice :=
  if negb (isInitialized a) then [] else [Drum type time].

Definition playTone (a : t) (type : OscillatorType)
    (freq time duration vol : Q) : list Voice :=
  if negb (isInitialized a) then []
  else [Tone type freq time duration vol].

Definition bassFreq (step : Z) : Q :=
  if (step <? 8)%Z then
    if (Z.rem step 2 =? 0)%Z then 130.81 else 196.00
  else if (step <? 16)%Z then
    if (Z.rem step 2 =? 0)%Z then 98.00 else 146.83
  else if (step <? 24)%Z then
    if (Z.rem step 2 =? 0)%Z then 110.00 else 164.81
  else
    if (Z.rem step 2 =? 0)%Z then 87.31 else 130.81.

Definition melodyMap (step : Z) : option Q :=
  match step with
  | 0%Z => Some 523.25 | 2%Z => Some 659.25 | 4%Z => Some 783.99
  | 5%Z => Some 659.25
  | 8%Z => Some 392.00 | 10%Z => Some 493.88 | 12%Z => Some 587.33
  | 14%Z => Some 392.00
  | 16%Z => Some 440.00 | 18%Z => Some 523.25 | 20%Z => Some 659.25
  | 22%Z => Some 523.25
  | 24%Z => Some 349.23 | 26%Z => Some 440.00 | 28%Z => Some 523.25
  | 30%Z => Some 698.46
  | _ => None
  end.

Definition playStep (a : t) (totalBeat : Z) (time : Q) : list Voice :=
  if negb (isInitialized a) then []
  else
    let step := Z.rem totalBeat 32 in
    let rhythm :=
      if (Z.rem step 4 =? 0)%Z then playDrum a kick time
      else if (Z.rem step 4 =? 2)%Z then playDrum a snare time
      else [] in
    let bassFreq := bassFreq step in
    let bass :=
      if Qltb 0 bassFreq then playTone a triangle bassFreq time 0.1 0.15
      else [] in
    let melody :=
      match melodyMap step with
      | Some freq =>
          if Qeq_bool freq 0 then []
          else playTone a square freq time 0.08 0.05
      | None => []
      end in
    rhythm ++ bass ++ melody.

(** The loop of scheduler, [fuel] bounding its iterations; [None] when
    the bound is reached before the loop ends.  The result carries the
    steps played, as pairs of beat and time, and their voices. *)
Fixpoint lookahead (fuel : nat) (currentTime : Q) (a : t)
    : option (t * list (Z * Q) * list Voice) :=
  match fuel with
  | O => None
  | S fuel' =>
      if Qltb (nextNoteTime a) (currentTime + 0.1) then
        let vs := playStep a (beatCount a) (nextNoteTime a) in
        match lookahead fuel' currentTime (advanceNote a) with
        | Some (a', steps, vs') =>
            Some (a', (beatCount a, nextNoteTime a) :: steps, vs ++ vs')
        | None => None
        end
      else Some (a, [], [])
  end.

Definition scheduler (fuel : nat) (currentTime : Q) (a : t)
    : option (t * list (Z * Q) * list Voice) :=
  match lookahead fuel currentTime a with
  | Some (a, steps, vs) =>
      Some (mk (nextNoteTime a) true (isMuted a) (isInitialized a)
              (beatCount a) (isEmergency a), steps, vs)
  | None => None
  end.

Definition startBGM (fuel : nat) (currentTime : Q) (a : t)
    : option (t * list (Z * Q) * list Voice) :=
  let a := if negb (isInitialized a) then init a else a in
  if timerID a then Some (a, [], [])
  else
    let a := mk currentTime (timerID a) (isMuted a) (isInitialized a) 0
               (isEmergency a) in
    scheduler fuel currentTime a.

Definition stopBGM (a : t) : t :=
  mk (nextNoteTime a) false (isMuted a) (isInitialized a) (beatCount a)
    false.

End Audio.

(** Abscissas in increasing order, at least one segment width apart. *)
Fixpoint apart (xs : list Q) : Prop :=
  match xs with
  | x1 :: ((x2 :: _) as rest) =>
      x1 + TERRAIN_SEGMENT_WIDTH <= x2 /\ apart rest
  | _ => True
  end.

(** Abscissas laid out between 760 behind the player and the last sample
    of the terrain. *)
Definition lined (px lastX : Q) (xs : list Q) : Prop :=
  apart xs
  /\ Forall (fun x => x <= lastX) xs
  /\ match head xs with Some x => px - 760 <= x | None => True end.

(** The rocks and the power-ups of a game in this layout. *)
Definition entitiesLined (g : Game.t) : Prop :=
  match last (Game.terrain g) with
  | Some pl =>
      lined (Player.x (Game.player g)) (Point.x pl)
        (map Obstacle.x (Game.obstacles g))
      /\ lined (Player.x (Game.player g)) (Point.x pl)
           (map PowerUp.x (Game.powerUps g))
  | None => False
  end.

(** Past the menu the rocks and the power-ups are laid out around the
    player. *)
Definition laidOut (s : Sys.t) : Prop :=
  App.gameState (Sys.app s) <> MENU -> entitiesLined (Sys.game s).

(** No abscissa of the first list is one of the second. *)
Definition disjointX (xs ys : list Q) : Prop :=
  Forall (fun x => Forall (fun y => ~ x == y) ys) xs.

(** Past the menu no power-up has the abscissa of a rock. *)
Definition rocksClear (s : Sys.t) : Prop :=
  App.gameState (Sys.app s) <> MENU ->
  disjointX (map Obstacle.x (Game.obstacles (Sys.game s)))
    (map PowerUp.x (Game.powerUps (Sys.game s))).

(** ** Concrete states used to exercise the statements below *)

Definition grillWithPerfect : App.t :=
  App.mk PLAYING 12 0 None 80 2
    [GrillSlot.mk "1" 64 perfect true; emptySlot "2"; emptySlot "3"].



(** A stand-in for the sine and the arc tangent, to run the model on
    concrete states.  Every statement below that mentions it is an
    instance of one that holds whatever the two functions are. *)
Definition coarseMath : MathLib :=
  {| Math_sin := fun _ => 0; Math_atan2 := fun _ _ => 0 |}.

(** Draws of [Math.random ()] that spawn nothing. *)
Definition calmRand : TerrainRand :=
  {| r_jitter := 0.5; r_decoration := 0.5; r_cabin := 0.5;
     r_treeOffset := 0.5; r_treeKind := 0.5; r_rock := 0.5;
     r_powerUp := 0.5; r_powerUpKind := 0.5 |}.

(** The session right after the start button, at clock 0. *)
Definition startedSys : Sys.t :=
  @step coarseMath (Start 0 (fun _ => 0.5)) initialSys.

(** A slope of five samples, 40 apart, dropping 15 per sample. *)
Definition slope : list Point.t :=
  [Point.mk 0 200; Point.mk 40 215; Point.mk 80 230; Point.mk 120 245;
   Point.mk 160 260; Point.mk 200 275].

(** The player in the air, about to pass above a rock at x = 120. *)
Definition overRock : Game.t :=
  Game.mk (Player.mk 100 100 20 0 0 false false 0 0 0 0 0 0 0)
    slope [Obstacle.mk 120 245 rock_small 40 30 false] [] [] 0 (-800) 0
    false 0.

(** The player in the air between two cabins spawned on consecutive
    samples, with one fish in the inventory. *)
Definition twoCabins : Game.t :=
  Game.mk (Player.mk 100 160 20 0 0 false false 0 0 0 0 0 0 1)
    slope []
    [Decoration.mk 100 240 cabin 80 80 false;
     Decoration.mk 140 255 cabin 80 80 false] [] 0 (-800) 0 false 1.

(** A full inventory and an empty grill. *)
Definition fullBackpack : App.t :=
  App.mk PLAYING 0 0 None 100 3 initialSlots.

(** Draws that put a rock on the new sample, and draws that put a fish
    above it. *)
Definition rockRand : TerrainRand :=
  {| r_jitter := 0.5; r_decoration := 0.5; r_cabin := 0.5;
     r_treeOffset := 0.5; r_treeKind := 0.5; r_rock := 0;
     r_powerUp := 0.5; r_powerUpKind := 0.5 |}.

Definition fishRand : TerrainRand :=
  {| r_jitter := 0.5; r_decoration := 0.5; r_cabin := 0.5;
     r_treeOffset := 0.5; r_treeKind := 0.5; r_rock := 0.5;
     r_powerUp := 0; r_powerUpKind := 0.5 |}.

(** The session two frames into a run, the first frame spawning a rock,
    the second a fish. *)
Definition rockThenFish : Sys.t :=
  @step coarseMath (Frame 32 fishRand)
    (@step coarseMath (Frame 16 rockRand) startedSys).

(** The player in delivery flight, below the hover line; the HUD shows
    the distance of the frame before. *)
Definition hovering : Game.t :=
  Game.mk (Player.mk 100 200 20 0 0 false false 0 0 0 0 0 5 0)
    slope [] [] [] 0 (-800) 0 false 0.

Definition hoverApp : App.t :=
  App.mk PLAYING 10 0 (Some "DELIVERY FLIGHT!"%string) 90 0 initialSlots.

(** * Properties *)

(** ** Comparisons and rounding *)

Lemma Qltb_lt (a b : Q) : Qltb a b = true <-> a < b.
Proof.
  unfold Qltb. rewrite negb_true_iff. split; intros Hab.
  - apply Qnot_le_lt. intros Hle. apply Qle_bool_iff in Hle. congruence.
  - destruct (Qle_bool b a) eqn:E; [|reflexivity].
    apply Qle_bool_iff in E. exfalso. apply (Qlt_not_le _ _ Hab E).
Qed.

Lemma Qltb_ge (a b : Q) : Qltb a b = false <-> b <= a.
Proof.
  unfold Qltb. rewrite negb_false_iff. apply Qle_bool_iff.
Qed.

Lemma Qle_bool_gt (a b : Q) : Qle_bool a b = false <-> b < a.
Proof.
  rewrite <- Qltb_lt. unfold Qltb. rewrite negb_true_iff. reflexivity.
Qed.

(** Case analysis on the outcome of one comparison of the program. *)
Ltac qcase c :=
  let E := fresh "E" in
  lazymatch c with
  | Qltb ?a ?b =>
      destruct (Qltb a b) eqn:E;
      [apply Qltb_lt in E | apply Qltb_ge in E]
  | Qle_bool ?a ?b =>
      destruct (Qle_bool a b) eqn:E;
      [apply Qle_bool_iff in E | apply Qle_bool_gt in E]
  | Z.ltb ?a ?b =>
      destruct (Z.ltb a b) eqn:E;
      [apply Z.ltb_lt in E | apply Z.ltb_ge in E]
  | Z.leb ?a ?b =>
      destruct (Z.leb a b) eqn:E;
      [apply Z.leb_le in E | apply Z.leb_gt in E]
  end.



(** ** The cook minigame *)

(** C7. Tapping a slot: nothing happens unless the slot is cooking; a
    cooking slot in state perfect is collected when the inventory is below
    3 (inventory plus one, that slot emptied, every other slot as it was);
    a cooking slot in state raw, or in state perfect while the inventory
    is 3, leaves inventory and slots as they are. *)
Theorem handleSlotTap_cases (index : nat) (a : App.t) (slot : GrillSlot.t) :
  App.grillSlots a !! index = Some slot ->
  (GrillSlot.isCooking slot = false -> handleSlotTap index a = Some a)
  /\ (GrillSlot.isCooking slot = true ->
      GrillSlot.state slot = perfect ->
      (App.fishInventory a < 3)%Z ->
      exists a',
        handleSlotTap index a = Some a'
        /\ App.fishInventory a' = (App.fishInventory a + 1)%Z
        /\ App.grillSlots a' !! index
           = Some (GrillSlot.mk (GrillSlot.id slot) 0 raw false)
        /\ (forall j, j <> index ->
              App.grillSlots a' !! j = App.grillSlots a !! j)
        /\ App.gameState a' = App.gameState a
        /\ App.score a' = App.score a
        /\ App.highScore a' = App.highScore a)
  /\ (GrillSlot.isCooking slot = true ->
      GrillSlot.state slot = raw -> handleSlotTap index a = Some a)
  /\ (GrillSlot.isCooking slot = true ->
      GrillSlot.state slot = perfect ->
      App.fishInventory a = 3%Z -> handleSlotTap index a = Some a).
Proof.
  intros Hslot. unfold handleSlotTap. rewrite Hslot.
  repeat split.
  - intros ->. reflexivity.
  - intros -> -> Hinv. apply Z.ltb_lt in Hinv. rewrite Hinv. simpl.
    eexists. split; [reflexivity|]. simpl. repeat split.
    + apply list_lookup_insert_eq. eapply lookup_lt_Some, Hslot.
    + intros j Hj. apply list_lookup_insert_ne. congruence.
  - intros -> ->. reflexivity.
  - intros -> -> ->. reflexivity.
Qed.
Lemma handleSlotTap_cases_witness :
  option_map App.fishInventory (handleSlotTap 0 grillWithPerfect) = Some 3%Z.
Proof.
  destruct (handleSlotTap_cases 0 grillWithPerfect
              (GrillSlot.mk "1" 64 perfect true) eq_refl) as (_ & H & _).
  destruct (H eq_refl eq_refl ltac:(simpl; lia)) as (a' & -> & Hinv & _).
  simpl. rewrite Hinv. reflexivity.
Defined.

(** ** The avalanche *)

Lemma stageSpeed_cases (e : Q) :
  (e < 30 -> stageSpeed e = 9 + 0.15 * e)
  /\ (30 <= e < 90 -> stageSpeed e = 13.5 + 0.2 * (e - 30))
  /\ (90 <= e < 120 -> stageSpeed e = 25.5 + 0.075 * (e - 90))
  /\ (120 <= e < 180 -> stageSpeed e = 27.75 + 0.03 * (e - 120))
  /\ (180 <= e -> stageSpeed e = 29.55 + 0.01 * (e - 180)).
Proof.
  unfold stageSpeed.
  qcase (Qltb e 30); qcase (Qltb e 90); qcase (Qltb e 120);
    qcase (Qltb e 180); repeat split; intros; try reflexivity; lra.
Qed.

(** C8, as the code has it. The target speed is a five-stage
    piecewise-linear function of the elapsed seconds: within a stage it is
    the speed at the start of the stage plus the rate of the stage times
    the seconds into it. The rates are 0.15, 0.2, 0.075, 0.03 and 0.01 per
    second: the second stage is steeper than the first, and from the
    second stage on each is shallower than the one before. While the
    player is invincible 2 is subtracted. *)
Theorem avalanche_schedule (i : nat) (e : Q) (invincibleTimer : Z) :
  inStage i e ->
  stageSpeed e == stageSpeed (stageFrom i) + stageRate i * (e - stageFrom i)
  /\ (stageRate 0 < stageRate 1
      /\ stageRate 2 < stageRate 1
      /\ stageRate 3 < stageRate 2
      /\ stageRate 4 < stageRate 3)
  /\ ((0 < invincibleTimer)%Z ->
      avTargetSpeed e invincibleTimer == stageSpeed e - 2)
  /\ ((invincibleTimer <= 0)%Z ->
      avTargetSpeed e invincibleTimer == stageSpeed e).
Proof.
  intros Hin. split; [|split; [|split]].
  - destruct (stageSpeed_cases e) as (H0 & H1 & H2 & H3 & H4).
    destruct i as [|[|[|[|[|i]]]]]; simpl in Hin; try contradiction.
    + rewrite (H0 Hin). vm_compute stageFrom. vm_compute (stageSpeed _).
      vm_compute stageRate. lra.
    + rewrite (H1 Hin). vm_compute stageFrom. vm_compute (stageSpeed _).
      vm_compute stageRate. lra.
    + rewrite (H2 Hin). vm_compute stageFrom. vm_compute (stageSpeed _).
      vm_compute stageRate. lra.
    + rewrite (H3 Hin). vm_compute stageFrom. vm_compute (stageSpeed _).
      vm_compute stageRate. lra.
    + rewrite (H4 Hin). vm_compute stageFrom. vm_compute (stageSpeed _).
      vm_compute stageRate. lra.
  - vm_compute. repeat split; reflexivity.
  - intros H. unfold avTargetSpeed. apply Z.ltb_lt in H. rewrite H.
    reflexivity.
  - intros H. unfold avTargetSpeed. apply Z.ltb_ge in H. rewrite H.
    reflexivity.
Qed.

Lemma avalanche_schedule_witness :
  stageSpeed 100 == 26.25 /\ avTargetSpeed 100 5 == 24.25.
Proof.
  destruct (avalanche_schedule 2 100 5) as (H & _ & Hinv & _).
  - simpl. split; [discriminate | reflexivity].
  - split.
    + rewrite H. vm_compute. reflexivity.
    + rewrite (Hinv eq_refl). rewrite H. vm_compute. reflexivity.
Defined.

(** C8 as worded fails on the first two stages: over one second the speed
    gains 0.2 in the second stage and only 0.15 in the first, so the later
    stage is not the shallower one. *)
Lemma second_stage_not_shallower :
  ~ (stageSpeed 31 - stageSpeed 30 < stageSpeed 1 - stageSpeed 0).
Proof.
  vm_compute. discriminate.
Qed.

(** ** Landing *)

Lemma Math_PI_value : Math_PI == 884279719003555 # 281474976710656.
Proof. reflexivity. Qed.






(** The rounding on values whose doubles are known. *)
Lemma toDouble_examples :
  toDouble Math_PI == Math_PI
  /\ toDouble (1 # 10) == 3602879701896397 # 36028797018963968
  /\ toDouble (Math_PI / 180) == 5030569068109113 # 288230376151711744
  /\ toDouble (-(1 # 3)) == - (6004799503160661 # 18014398509481984)
  /\ toDouble 1 == 1 /\ toDouble 720 == 720.
Proof. repeat split; vm_compute; reflexivity. Qed.

(** The thresholds are the doubles 0.5235987755982988 and
    1.2217304763960306. *)
Lemma thresholds_value :
  PERFECT_THRESHOLD = 4716158501352293 # 9007199254740992
  /\ CRASH_THRESHOLD = 2751092459122171 # 2251799813685248
  /\ toDouble (30 * toDouble (Math_PI / 180)) == PERFECT_THRESHOLD
  /\ toDouble (70 * toDouble (Math_PI / 180)) == CRASH_THRESHOLD.
Proof. repeat split; vm_compute; reflexivity. Qed.





(** ** Loops that mutate their elements *)

Section ForEach.
Context {S A : Type} (f : S -> A -> S * A * list Event).

Lemma forEach_cons (s : S) (a : A) (l : list A) :
  forEach f s (a :: l)
  = (fst (fst (forEach f (fst (fst (f s a))) l)),
     snd (fst (f s a)) :: snd (fst (forEach f (fst (fst (f s a))) l)),
     snd (f s a) ++ snd (forEach f (fst (fst (f s a))) l)).
Proof.
  simpl. destruct (f s a) as [[s1 a'] e1]. simpl.
  destruct (forEach f s1 l) as [[s2 l'] e2]. reflexivity.
Qed.

(** A preorder on the threaded state that every call respects relates the
    state before the loop to the state after it. *)
Lemma forEach_state (R : S -> S -> Prop) :
  (forall s, R s s) ->
  (forall s1 s2 s3, R s1 s2 -> R s2 s3 -> R s1 s3) ->
  (forall s a, R s (fst (fst (f s a)))) ->
  forall l s, R s (fst (fst (forEach f s l))).
Proof.
  intros Hrefl Htrans Hstep l.
  induction l as [|a l IH]; intros s.
  - apply Hrefl.
  - rewrite forEach_cons. simpl.
    eapply Htrans; [apply Hstep | apply IH].
Qed.

Lemma forEach_events (P : Event -> Prop) :
  (forall s a, Forall P (snd (f s a))) ->
  forall l s, Forall P (snd (forEach f s l)).
Proof.
  intros Hstep l. induction l as [|a l IH]; intros s.
  - constructor.
  - rewrite forEach_cons. simpl. apply Forall_app. split; [apply Hstep | apply IH].
Qed.

(** Elementwise relation between the list before and after, for callbacks
    that keep an invariant of the state. *)
Lemma forEach_elems (I : S -> Prop) (R : A -> A -> Prop) :
  (forall s a, I s -> I (fst (fst (f s a))) /\ R a (snd (fst (f s a)))) ->
  forall l s, I s ->
    I (fst (fst (forEach f s l)))
    /\ Forall2 R l (snd (fst (forEach f s l))).
Proof.
  intros Hstep l. induction l as [|a l IH]; intros s Hs.
  - split; [exact Hs | constructor].
  - rewrite forEach_cons. simpl.
    destruct (Hstep s a Hs) as [Hs1 Ha].
    destruct (IH _ Hs1) as [Hs2 Hl].
    split; [exact Hs2 | constructor; assumption].
Qed.

(** The number of events of one kind, for callbacks that emit one such
    event exactly when they flip an element. *)
Lemma forEach_count (I : S -> Prop) (isEv : Event -> bool)
    (flips : A -> A -> bool) :
  (forall s a, I s ->
     I (fst (fst (f s a)))
     /\ List.length (List.filter isEv (snd (f s a)))
        = (if flips a (snd (fst (f s a))) then 1 else 0)%nat) ->
  forall l s, I s ->
    List.length (List.filter isEv (snd (forEach f s l)))
    = List.length
        (List.filter (fun aa => flips (fst aa) (snd aa))
           (combine l (snd (fst (forEach f s l))))).
Proof.
  intros Hstep l. induction l as [|a l IH]; intros s Hs.
  - reflexivity.
  - rewrite forEach_cons. simpl.
    destruct (Hstep s a Hs) as [Hs1 Hc].
    rewrite List.filter_app, List.length_app, Hc, (IH _ Hs1).
    destruct (flips a (snd (fst (f s a)))); reflexivity.
Qed.

End ForEach.

(** ** The phases of updatePhysics *)

Ltac break_if :=
  repeat match goal with
         | |- context [if ?c then _ else _] => destruct c eqn:?
         end.

Lemma collided_refl (p : Player.t) : collided p p.
Proof. unfold collided. tauto. Qed.

Lemma collided_trans (p q r : Player.t) :
  collided p q -> collided q r -> collided p r.
Proof.
  unfold collided.
  intros (X1 & Y1 & F1 & D1 & V1 & L1 & N1) (X2 & Y2 & F2 & D2 & V2 & L2 & N2).
  rewrite X2, Y2, F2, D2, X1, Y1, F1, D1. repeat split; try reflexivity.
  - destruct V2 as [->| ->]; [exact V1 | right; reflexivity].
  - destruct L2 as [->|[-> Hf]]; [exact L1 | right; split; [reflexivity|]].
    rewrite <- F1. exact Hf.
  - destruct N2 as [->| ->]; [exact N1 | right; reflexivity].
Qed.

Lemma hitObstacle_state `{MathLib} (t : list Point.t) ps obs :
  collided (fst ps) (fst (fst (fst (hitObstacle t ps obs)))).
Proof.
  unfold hitObstacle. break_if; simpl; try apply collided_refl.
  unfold collided. simpl. tauto.
Qed.

Lemma hitObstacle_events `{MathLib} (t : list Point.t) ps obs :
  Forall silent (snd (hitObstacle t ps obs)).
Proof.
  unfold hitObstacle. break_if; simpl; repeat constructor.
Qed.

Lemma visitDecoration_state p dec :
  collided p (fst (fst (visitDecoration p dec))).
Proof.
  unfold visitDecoration.
  destruct (Decoration.type dec); try apply collided_refl.
  destruct (_ && _) eqn:E; simpl; try apply collided_refl.
  apply andb_true_iff in E. destruct E as [_ E]. apply Z.ltb_lt in E.
  unfold collided. simpl. tauto.
Qed.

Lemma visitDecoration_events p dec :
  Forall silent (snd (visitDecoration p dec)).
Proof.
  unfold visitDecoration. destruct (Decoration.type dec); break_if; simpl;
    repeat constructor.
Qed.

Lemma touchPowerUp_state p pu :
  collided p (fst (fst (touchPowerUp p pu))).
Proof.
  unfold touchPowerUp. break_if; simpl; try apply collided_refl.
  unfold collided. simpl. tauto.
Qed.

Lemma touchPowerUp_events p pu :
  Forall silent (snd (touchPowerUp p pu)).
Proof.
  unfold touchPowerUp. break_if; simpl; repeat constructor.
Qed.

Lemma landing_state g p shake :
  let p' := fst (fst (landing g p shake)) in
  Player.x p' = Player.x p /\ Player.y p' = Player.y p
  /\ Player.fishInventory p' = Player.fishInventory p
  /\ Player.isDead p' = Player.isDead p
  /\ (Player.vx p' = Player.vx p \/ Player.vx p' = 2)
  /\ Player.flightTimer p' = Player.flightTimer p
  /\ Player.invincibleTimer p' = Player.invincibleTimer p.
Proof.
  unfold landing. break_if; simpl; tauto.
Qed.

Lemma landing_events g p shake : Forall silent (snd (landing g p shake)).
Proof.
  unfold landing. break_if; simpl; repeat constructor.
Qed.

Lemma spin_state holding gy p :
  let p' := spin holding gy p in
  Player.x p' = Player.x p /\ Player.y p' = Player.y p
  /\ Player.fishInventory p' = Player.fishInventory p
  /\ Player.isDead p' = Player.isDead p
  /\ Player.vx p' = Player.vx p
  /\ Player.flightTimer p' = Player.flightTimer p
  /\ Player.invincibleTimer p' = Player.invincibleTimer p
  /\ Player.score p' = Player.score p
  /\ Player.boostTimer p' = Player.boostTimer p.
Proof.
  unfold spin. break_if; simpl; tauto.
Qed.

(** The floor collision keeps the horizontal position, the inventory
    snapshot, the death flag and the flight and invincibility timers; the
    speed stays or drops to 2 (crash); it reports no score. *)
Lemma floorCollision_state `{MathLib} holding t p shake :
  match floorCollision holding t p shake with
  | Return (p', shake', evs) =>
      p' = Player.set_vy 0
             (Player.set_y (fst (getGroundY t (Player.x p)) - 150) p)
      /\ shake' = shake /\ evs = [] /\ (0 < Player.flightTimer p)%Z
  | Continue (p', _, evs) =>
      Player.x p' = Player.x p
      /\ Player.fishInventory p' = Player.fishInventory p
      /\ Player.isDead p' = Player.isDead p
      /\ (Player.vx p' = Player.vx p \/ Player.vx p' = 2)
      /\ Player.flightTimer p' = Player.flightTimer p
      /\ Player.invincibleTimer p' = Player.invincibleTimer p
      /\ Forall silent evs
  end.
Proof.
  unfold floorCollision.
  destruct (getGroundY t (Player.x p)) as [gy ga]. simpl.
  destruct (_ && _).
  - destruct (0 <? Player.flightTimer p)%Z eqn:EF.
    + apply Z.ltb_lt in EF. tauto.
    + pose proof (landing_state ga p shake) as HL.
      pose proof (landing_events ga p shake) as HE.
      destruct (negb (Player.isGrounded p)).
      * destruct (landing ga p shake) as [[p' sh'] evs]. simpl in *.
        tauto.
      * simpl. repeat split; try tauto. constructor.
  - pose proof (spin_state holding gy (Player.set_isGrounded false p)) as HS.
    simpl in HS. destruct HS as (X & Y & F & D & V & L & N & _).
    rewrite X, F, D, V, L, N. repeat split; try tauto. constructor.
Qed.

Lemma tickTimers_fields (p : Player.t) :
  let p' := tickTimers p in
  Player.x p' = Player.x p /\ Player.y p' = Player.y p
  /\ Player.vx p' = Player.vx p /\ Player.vy p' = Player.vy p
  /\ Player.fishInventory p' = Player.fishInventory p
  /\ Player.isDead p' = Player.isDead p
  /\ Player.score p' = Player.score p
  /\ Player.flightTimer p'
     = (if (0 <? Player.flightTimer p)%Z then Player.flightTimer p - 1
        else Player.flightTimer p)%Z
  /\ Player.invincibleTimer p'
     = (if (0 <? Player.invincibleTimer p)%Z
        then Player.invincibleTimer p - 1
        else Player.invincibleTimer p)%Z.
Proof.
  unfold tickTimers.
  destruct (0 <? Player.invincibleTimer p)%Z;
    cbn [Player.flightTimer Player.set_invincibleTimer];
    destruct (0 <? Player.flightTimer p)%Z;
    cbn [Player.boostTimer Player.set_flightTimer
         Player.set_invincibleTimer];
    destruct (0 <? Player.boostTimer p)%Z;
    repeat split; reflexivity.
Qed.

Lemma gravityAssist_fields (p : Player.t) :
  let p' := gravityAssist p in
  Player.x p' = Player.x p /\ Player.y p' = Player.y p
  /\ Player.vy p' = Player.vy p
  /\ Player.fishInventory p' = Player.fishInventory p
  /\ Player.isDead p' = Player.isDead p
  /\ Player.score p' = Player.score p
  /\ Player.flightTimer p' = Player.flightTimer p
  /\ Player.invincibleTimer p' = Player.invincibleTimer p
  /\ (Player.vx p' = Player.vx p + 0.1 /\ Player.vx p < targetSpeed p
      \/ Player.vx p' = Player.vx p * FRICTION).
Proof.
  unfold gravityAssist.
  qcase (Qltb (Player.vx p) (targetSpeed p));
    repeat split; try reflexivity;
    [left; split; [reflexivity | assumption] | right; reflexivity].
Qed.

Lemma advance_fields (p : Player.t) :
  let p' := advance p in
  Player.x p' = Player.x p + Player.vx p
  /\ Player.vx p' = Player.vx p
  /\ Player.fishInventory p' = Player.fishInventory p
  /\ Player.isDead p' = Player.isDead p
  /\ Player.score p' = Player.score p
  /\ Player.flightTimer p' = Player.flightTimer p
  /\ Player.invincibleTimer p' = Player.invincibleTimer p.
Proof. unfold advance. repeat split; reflexivity. Qed.

Lemma applyGravity_fields (p : Player.t) :
  let p' := applyGravity p in
  Player.x p' = Player.x p
  /\ Player.vx p' = Player.vx p
  /\ Player.fishInventory p' = Player.fishInventory p
  /\ Player.isDead p' = Player.isDead p
  /\ Player.score p' = Player.score p
  /\ Player.flightTimer p' = Player.flightTimer p
  /\ Player.invincibleTimer p' = Player.invincibleTimer p.
Proof.
  unfold applyGravity.
  destruct (Player.flightTimer p <=? 0)%Z.
  - destruct (Qltb (Player.vy p) 0); repeat split; reflexivity.
  - cbv zeta.
    destruct (Qltb 2 (Player.vy (Player.set_vy (Player.vy p + GRAVITY * 0.3) p)));
      repeat split; reflexivity.
Qed.

Lemma integrate_fields (g : Game.t) :
  let p := Game.player g in
  let p' := integrate g in
  Player.x p' = Player.x p + Player.vx p'
  /\ Player.fishInventory p' = Game.fishInventoryRef g
  /\ Player.isDead p' = Player.isDead p
  /\ Player.score p' = Player.score p
  /\ Player.flightTimer p'
     = (if (0 <? Player.flightTimer p)%Z then Player.flightTimer p - 1
        else Player.flightTimer p)%Z
  /\ Player.invincibleTimer p'
     = (if (0 <? Player.invincibleTimer p)%Z
        then Player.invincibleTimer p - 1
        else Player.invincibleTimer p)%Z.
Proof.
  intros p p'. subst p'. unfold integrate. cbv zeta.
  set (p0 := Player.set_fishInventory (Game.fishInventoryRef g)
               (Game.player g)).
  destruct (tickTimers_fields p0) as (TX & _ & TV & _ & TF & TD & TS & TL & TN).
  set (p1 := tickTimers p0) in *. clearbody p1.
  destruct (gravityAssist_fields p1) as (GX & _ & _ & GF & GD & GS & GL & GN & _).
  set (p2 := gravityAssist p1) in *. clearbody p2.
  destruct (advance_fields p2) as (AX & AV & AF & AD & AS & AL & AN).
  set (p3 := advance p2) in *. clearbody p3.
  destruct (applyGravity_fields p3) as (-> & -> & -> & -> & -> & -> & ->).
  rewrite AX, AV, AF, AD, AS, AL, AN, GX, GF, GD, GS, GL, GN, TX, TF, TD,
    TS, TL, TN.
  repeat split; reflexivity.
Qed.

Lemma targetSpeed_le (p : Player.t) : targetSpeed p <= 28.
Proof.
  unfold targetSpeed.
  destruct (0 <? Player.invincibleTimer p)%Z; [vm_compute; discriminate|].
  destruct (0 <? Player.flightTimer p)%Z; [vm_compute; discriminate|].
  destruct (0 <? Player.boostTimer p)%Z; vm_compute; discriminate.
Qed.

Lemma integrate_vx (g : Game.t) :
  let v := Player.vx (Game.player g) in
  let v' := Player.vx (integrate g) in
  (0 < v -> 0 < v') /\ (v <= 28.1 -> v' <= 28.1).
Proof.
  intros v v'. subst v v'. unfold integrate. cbv zeta.
  set (p0 := Player.set_fishInventory (Game.fishInventoryRef g)
               (Game.player g)).
  destruct (tickTimers_fields p0) as (_ & _ & TV & _).
  change (Player.vx p0) with (Player.vx (Game.player g)) in TV.
  set (p1 := tickTimers p0) in *. clearbody p1.
  pose proof (targetSpeed_le p1) as Ht.
  destruct (gravityAssist_fields p1) as (_ & _ & _ & _ & _ & _ & _ & _ & GV).
  set (p2 := gravityAssist p1) in *. clearbody p2.
  destruct (advance_fields p2) as (_ & AV & _).
  set (p3 := advance p2) in *. clearbody p3.
  destruct (applyGravity_fields p3) as (_ & -> & _).
  rewrite AV. rewrite <- TV. unfold FRICTION in GV.
  destruct GV as [[-> Hlt]| ->]; split; intros; lra.
Qed.

Lemma updatePhysics_return `{MathLib} gs now g p sh evs :
  floorCollision (Game.isHolding g) (Game.terrain g) (integrate g)
    (Game.shake g) = Return (p, sh, evs) ->
  updatePhysics gs now g = (Game.set_shake sh (Game.set_player p g), evs).
Proof.
  intros E. unfold updatePhysics. rewrite E. reflexivity.
Qed.

(** The shape of a tick that runs to the end of updatePhysics. *)
Lemma updatePhysics_continue `{MathLib} gs now g p1 sh1 ev1 :
  floorCollision (Game.isHolding g) (Game.terrain g) (integrate g)
    (Game.shake g) = Continue (p1, sh1, ev1) ->
  exists ps obs ev2 p3 decs ev3 p4 pus ev4,
    (if (Player.invincibleTimer p1 <=? 0)%Z
        && (Player.flightTimer p1 <=? 0)%Z
     then forEach (hitObstacle (Game.terrain g)) (p1, sh1) (Game.obstacles g)
     else ((p1, sh1), Game.obstacles g, [])) = (ps, obs, ev2)
    /\ forEach visitDecoration (fst ps) (Game.decorations g)
       = (p3, decs, ev3)
    /\ forEach touchPowerUp p3 (Game.powerUps g) = (p4, pus, ev4)
    /\ collided p1 (fst ps) /\ collided (fst ps) p3 /\ collided p3 p4
    /\ Forall silent ev2 /\ Forall silent ev3 /\ Forall silent ev4
    /\ let av := advanceAvalanche (elapsedSeconds now (Game.startTime g)) p4
                   (Game.avalancheX g) in
       updatePhysics gs now g
       = (Game.mk (fst (deathCheck gs av p4)) (Game.terrain g) obs decs pus
            (snd ps) av (Game.startTime g) (Game.isHolding g)
            (Game.fishInventoryRef g),
          ev1 ++ ev2 ++ ev3 ++ ev4 ++ snd (deathCheck gs av p4)
            ++ hud av (fst (deathCheck gs av p4))).
Proof.
  intros E. unfold updatePhysics. rewrite E.
  match goal with
  | |- context [if ?c then forEach (hitObstacle ?t) ?s ?l else ?z] =>
      destruct (if c then forEach (hitObstacle t) s l else z)
        as [[ps obs] ev2] eqn:E2
  end.
  destruct (forEach visitDecoration (fst ps) (Game.decorations g))
    as [[p3 decs] ev3] eqn:E3.
  destruct (forEach touchPowerUp p3 (Game.powerUps g))
    as [[p4 pus] ev4] eqn:E4.
  exists ps, obs, ev2, p3, decs, ev3, p4, pus, ev4.
  assert (H2 : collided p1 (fst ps) /\ Forall silent ev2).
  { destruct (_ && _) in E2.
    - pose proof (forEach_state (hitObstacle (Game.terrain g))
                    (fun s s' : Player.t * Q => collided (fst s) (fst s'))
                    (fun s : Player.t * Q => collided_refl (fst s))
                    (fun s1 s2 s3 : Player.t * Q =>
                       collided_trans (fst s1) (fst s2) (fst s3))
                    (hitObstacle_state (Game.terrain g))
                    (Game.obstacles g) (p1, sh1)) as HS.
      pose proof (forEach_events (hitObstacle (Game.terrain g)) silent
                    (hitObstacle_events (Game.terrain g))
                    (Game.obstacles g) (p1, sh1)) as HE.
      rewrite E2 in HS, HE. simpl in HS, HE. split; assumption.
    - inversion E2; subst. simpl. split; [apply collided_refl|constructor]. }
  pose proof (forEach_state visitDecoration collided collided_refl
                collided_trans visitDecoration_state
                (Game.decorations g) (fst ps)) as HS3.
  pose proof (forEach_events visitDecoration silent visitDecoration_events
                (Game.decorations g) (fst ps)) as HE3.
  rewrite E3 in HS3, HE3. simpl in HS3, HE3.
  pose proof (forEach_state touchPowerUp collided collided_refl
                collided_trans touchPowerUp_state
                (Game.powerUps g) p3) as HS4.
  pose proof (forEach_events touchPowerUp silent touchPowerUp_events
                (Game.powerUps g) p3) as HE4.
  rewrite E4 in HS4, HE4. simpl in HS4, HE4.
  destruct H2 as [HS2 HE2].
  repeat (split; [first [reflexivity | assumption]|]).
  simpl. destruct (deathCheck gs _ p4) as [p5 ev5]. reflexivity.
Qed.

Lemma silent_finalScores evs : Forall silent evs -> finalScores evs = [].
Proof.
  induction 1 as [|e evs He _ IH]; [reflexivity|].
  unfold finalScores in *. simpl. rewrite IH.
  destruct e; simpl in *; try reflexivity; contradiction.
Qed.

Lemma silent_reportedScores evs :
  Forall silent evs -> reportedScores evs = [].
Proof.
  induction 1 as [|e evs He _ IH]; [reflexivity|].
  unfold reportedScores in *. simpl. rewrite IH.
  destruct e; simpl in *; try reflexivity; contradiction.
Qed.

Lemma finalScores_app a b : finalScores (a ++ b) = finalScores a ++ finalScores b.
Proof. apply flat_map_app. Qed.

Lemma reportedScores_app a b :
  reportedScores (a ++ b) = reportedScores a ++ reportedScores b.
Proof. apply flat_map_app. Qed.

Lemma deathCheck_fields gs av p :
  let p' := fst (deathCheck gs av p) in
  Player.x p' = Player.x p
  /\ Player.vx p' = Player.vx p
  /\ Player.fishInventory p' = Player.fishInventory p
  /\ Player.flightTimer p' = Player.flightTimer p
  /\ Player.invincibleTimer p' = Player.invincibleTimer p
  /\ Player.isDead p' = (Qltb (Player.x p - 30) av || Player.isDead p)
  /\ finalScores (snd (deathCheck gs av p))
     = (if Qltb (Player.x p - 30) av
        then if GameState_eqb gs PLAYING
             then [Math_floor (Player.x p / 10)] else []
        else [])
  /\ reportedScores (snd (deathCheck gs av p))
     = finalScores (snd (deathCheck gs av p)).
Proof.
  unfold deathCheck.
  destruct (Qltb (Player.x p - 30) av);
    [destruct (GameState_eqb gs PLAYING)|];
    cbn [fst snd]; repeat split; reflexivity.
Qed.

Lemma hud_scores av p :
  finalScores (hud av p) = []
  /\ reportedScores (hud av p) = [Math_floor (Player.x p / 10)].
Proof. unfold hud. split; reflexivity. Qed.

(** What one call of updatePhysics does to the parts of the state the
    session depends on. *)
Lemma updatePhysics_summary `{MathLib} gs now g :
  let g' := fst (updatePhysics gs now g) in
  let evs := snd (updatePhysics gs now g) in
  let p := Game.player g in
  let p' := Game.player g' in
  let e := elapsedSeconds now (Game.startTime g) in
  Game.terrain g' = Game.terrain g
  /\ Game.startTime g' = Game.startTime g
  /\ Game.isHolding g' = Game.isHolding g
  /\ Game.fishInventoryRef g' = Game.fishInventoryRef g
  /\ Player.x p' = Player.x p + Player.vx (integrate g)
  /\ Player.fishInventory p' = Game.fishInventoryRef g
  /\ (Player.vx p' = Player.vx (integrate g) \/ Player.vx p' = 2)
  /\ (Player.flightTimer p' = Player.flightTimer (integrate g)
      \/ Player.flightTimer p' = 80%Z /\ (0 < Game.fishInventoryRef g)%Z)
  /\ (returnsEarly g = true ->
      evs = [] /\ Game.avalancheX g' = Game.avalancheX g
      /\ Player.isDead p' = Player.isDead p
      /\ Game.obstacles g' = Game.obstacles g
      /\ Game.decorations g' = Game.decorations g
      /\ Game.powerUps g' = Game.powerUps g
      /\ (0 < Player.flightTimer (integrate g))%Z)
  /\ (returnsEarly g = false ->
      Game.avalancheX g' = advanceAvalanche e p' (Game.avalancheX g)
      /\ finalScores evs
         = (if Qltb (Player.x p' - 30) (Game.avalancheX g')
            then if GameState_eqb gs PLAYING
                 then [Math_floor (Player.x p' / 10)] else []
            else [])
      /\ reportedScores evs
         = finalScores evs ++ [Math_floor (Player.x p' / 10)]
      /\ Player.isDead p'
         = (Qltb (Player.x p' - 30) (Game.avalancheX g')
            || Player.isDead p)).
Proof.
  intros g' evs p p' e. subst g' evs p' e.
  destruct (integrate_fields g) as (IX & IF & ID & _ & _ & _).
  fold p in IX, ID.
  pose proof (floorCollision_state (Game.isHolding g) (Game.terrain g)
                (integrate g) (Game.shake g)) as HF.
  unfold returnsEarly.
  destruct (floorCollision _ _ _ _) as [[[p1 sh1] ev1]|[[p1 sh1] ev1]] eqn:EF.
  - rewrite (updatePhysics_return gs now g _ _ _ EF). clear EF.
    set (p0 := integrate g) in *. clearbody p0.
    destruct HF as (-> & -> & -> & Hfl).
    cbn [fst snd Game.player Game.terrain Game.startTime Game.isHolding
         Game.fishInventoryRef Game.avalancheX Game.obstacles
         Game.decorations Game.powerUps Game.set_shake Game.set_player
         Player.x Player.vx Player.fishInventory Player.flightTimer
         Player.isDead Player.set_vy Player.set_y].
    repeat split; try tauto; try discriminate.
  - destruct (updatePhysics_continue gs now g _ _ _ EF)
      as (ps & obs & ev2 & p3 & decs & ev3 & p4 & pus & ev4
          & _ & _ & _ & C2 & C3 & C4 & S2 & S3 & S4 & EU).
    cbv zeta in EU. rewrite EU. clear EU EF.
    set (p0 := integrate g) in *. clearbody p0.
    destruct HF as (FX & FF & FD & FV & FL & FN & S1).
    pose proof (collided_trans _ _ _ (collided_trans _ _ _ C2 C3) C4) as C.
    destruct C as (CX & CY & CF & CD & CV & CL & CN).
    cbn [fst snd Game.player Game.terrain Game.startTime Game.isHolding
         Game.fishInventoryRef Game.avalancheX Game.obstacles
         Game.decorations Game.powerUps].
    assert (EA : advanceAvalanche (elapsedSeconds now (Game.startTime g))
                   (fst (deathCheck gs
                           (advanceAvalanche
                              (elapsedSeconds now (Game.startTime g)) p4
                              (Game.avalancheX g)) p4))
                   (Game.avalancheX g)
                 = advanceAvalanche (elapsedSeconds now (Game.startTime g))
                     p4 (Game.avalancheX g)).
    { unfold advanceAvalanche at 1 3.
      destruct (deathCheck_fields gs
                  (advanceAvalanche (elapsedSeconds now (Game.startTime g))
                     p4 (Game.avalancheX g)) p4)
        as (-> & _ & _ & _ & -> & _).
      reflexivity. }
    rewrite EA. clear EA.
    generalize (advanceAvalanche (elapsedSeconds now (Game.startTime g))
                  p4 (Game.avalancheX g)).
    intros av.
    destruct (deathCheck_fields gs av p4)
      as (DX & DV & DF & DL & DN & DD & DS & DR).
    destruct (hud_scores av (fst (deathCheck gs av p4))) as (HS & HR).
    rewrite !reportedScores_app, !finalScores_app.
    rewrite (silent_finalScores _ S1), (silent_finalScores _ S2),
      (silent_finalScores _ S3), (silent_finalScores _ S4).
    rewrite (silent_reportedScores _ S1), (silent_reportedScores _ S2),
      (silent_reportedScores _ S3), (silent_reportedScores _ S4).
    rewrite HS, HR, DR, DS, DX, DV, DF, DL, DD.
    rewrite !app_nil_l, !app_nil_r.
    split; [reflexivity|]. split; [reflexivity|].
    split; [reflexivity|]. split; [reflexivity|].
    split; [rewrite CX, FX; exact IX|].
    split; [rewrite CF, FF; exact IF|].
    split.
    { destruct CV as [CV|CV]; rewrite CV; [exact FV | right; reflexivity]. }
    split; [rewrite FF, IF, FL in CL; exact CL|].
    split; [discriminate|].
    intros _.
    split; [reflexivity|]. split; [reflexivity|]. split; [reflexivity|].
    rewrite CD, FD, ID. reflexivity.
Qed.



(** ** App under the callbacks of a frame *)

Lemma handleCollectFish_fields a :
  App.gameState (handleCollectFish a) = App.gameState a
  /\ App.fishInventory (handleCollectFish a) = App.fishInventory a
  /\ App.score (handleCollectFish a) = App.score a
  /\ App.highScore (handleCollectFish a) = App.highScore a
  /\ List.length (App.grillSlots (handleCollectFish a))
     = List.length (App.grillSlots a).
Proof.
  unfold handleCollectFish.
  destruct (findIndex _ _) as [idx|]; [|tauto].
  destruct (App.grillSlots a !! idx); [|tauto].
  simpl. rewrite length_insert. tauto.
Qed.

Lemma applyEvents_app a evs1 evs2 :
  applyEvents a (evs1 ++ evs2) = applyEvents (applyEvents a evs1) evs2.
Proof. apply fold_left_app. Qed.

Lemma applyEvents_gameState evs : forall a,
  App.gameState (applyEvents a evs)
  = match finalScores evs with
    | [] => App.gameState a
    | _ => GAME_OVER
    end.
Proof.
  induction evs as [|e evs IH]; intros a; [reflexivity|].
  change (applyEvents a (e :: evs)) with (applyEvents (applyEvent a e) evs).
  rewrite IH. unfold finalScores. simpl. fold (finalScores evs).
  destruct e; simpl; try reflexivity.
  - unfold handleGameOver. cbn [App.highScore App.set_gameState].
    destruct (finalScores evs);
      destruct (App.highScore a <? finalScore)%Z; reflexivity.
  - destruct (handleCollectFish_fields a) as (-> & _). reflexivity.
Qed.

(** The inventory after the callbacks of a frame: one decrement, floored
    at 0, for each deliver event, and nothing else. *)
Lemma applyEvents_inventory evs : forall a,
  App.fishInventory (applyEvents a evs)
  = Nat.iter (deliveries evs) decrement (App.fishInventory a).
Proof.
  induction evs as [|e evs IH]; intros a; [reflexivity|].
  change (applyEvents a (e :: evs)) with (applyEvents (applyEvent a e) evs).
  rewrite IH. unfold deliveries. simpl.
  destruct e; simpl; try reflexivity.
  - unfold handleGameOver. cbn [App.highScore App.set_gameState].
    destruct (App.highScore a <? finalScore)%Z; reflexivity.
  - destruct (handleCollectFish_fields a) as (_ & -> & _). reflexivity.
  - fold (deliveries evs). unfold handleDeliverFish. simpl.
    fold (decrement (App.fishInventory a)).
    rewrite <- Nat.iter_succ_r. reflexivity.
Qed.

Lemma applyEvents_slots evs : forall a,
  List.length (App.grillSlots (applyEvents a evs))
  = List.length (App.grillSlots a).
Proof.
  induction evs as [|e evs IH]; intros a; [reflexivity|].
  change (applyEvents a (e :: evs)) with (applyEvents (applyEvent a e) evs).
  rewrite IH. destruct e; simpl; try reflexivity.
  - unfold handleGameOver. cbn [App.highScore App.set_gameState].
    destruct (App.highScore a <? finalScore)%Z; reflexivity.
  - apply handleCollectFish_fields.
Qed.

Lemma iter_decrement_range n z :
  (0 <= z <= 3)%Z -> (0 <= Nat.iter n decrement z <= 3)%Z.
Proof.
  intros Hz. induction n as [|n IH]; [exact Hz|].
  rewrite Nat.iter_succ.
  set (k := Nat.iter n decrement z) in *. clearbody k.
  unfold decrement. lia.
Qed.

(** ** Terrain *)

Lemma shiftBehind_cases {A : Type} (xof : A -> Q) (c : Q) (l : list A) :
  shiftBehind xof c l = l
  \/ exists a, l = a :: shiftBehind xof c l /\ xof a < c.
Proof.
  destruct l as [|a l]; [left; reflexivity|]. simpl.
  qcase (Qltb (xof a) c); [right; exists a; split; trivial | left; trivial].
Qed.

(** updateTerrain does not fail and does not empty the terrain; it leaves
    the player, the avalanche and the clock alone. *)
Lemma updateTerrain_total `{MathLib} r g :
  Game.terrain g <> [] ->
  exists g1,
    updateTerrain r (Player.x (Game.player g)) g = Some g1
    /\ Game.terrain g1 <> []
    /\ Game.player g1 = Game.player g
    /\ Game.avalancheX g1 = Game.avalancheX g
    /\ Game.startTime g1 = Game.startTime g
    /\ Game.isHolding g1 = Game.isHolding g
    /\ Game.fishInventoryRef g1 = Game.fishInventoryRef g.
Proof.
  intros Hne. unfold updateTerrain.
  set (px := Player.x (Game.player g)).
  destruct (last (Game.terrain g)) as [lastPoint|] eqn:EL.
  2: { apply last_None in EL. contradiction. }
  eexists. split; [reflexivity|].
  qcase (Qltb (Point.x lastPoint) (px + GAME_WIDTH * 2)); simpl.
  - repeat split; try reflexivity.
    destruct (Game.terrain g) as [|a [|b t]] eqn:ET; [contradiction| |];
      simpl; break_if; discriminate.
  - repeat split; try reflexivity.
    destruct (Game.terrain g) as [|a [|b t]] eqn:ET; [contradiction| |].
    + simpl in EL. inversion EL; subst. simpl.
      qcase (Qltb (Point.x lastPoint) (px - GAME_WIDTH)); [|discriminate].
      exfalso. unfold GAME_WIDTH in *. lra.
    + simpl. break_if; discriminate.
Qed.

Lemma render_fields g :
  Game.player (render g) = Game.player g
  /\ Game.terrain (render g) = Game.terrain g
  /\ Game.avalancheX (render g) = Game.avalancheX g
  /\ Game.startTime (render g) = Game.startTime g
  /\ Game.isHolding (render g) = Game.isHolding g
  /\ Game.fishInventoryRef (render g) = Game.fishInventoryRef g
  /\ Game.obstacles (render g) = Game.obstacles g
  /\ Game.decorations (render g) = Game.decorations g
  /\ Game.powerUps (render g) = Game.powerUps g.
Proof.
  unfold render. destruct (Qltb _ _); simpl; tauto.
Qed.

(** A frame of a running game, on a terrain that is not empty. *)
Lemma gameLoop_playing `{MathLib} r now g :
  Game.terrain g <> [] ->
  exists g1,
    updateTerrain r (Player.x (Game.player g)) g = Some g1
    /\ Game.terrain g1 <> []
    /\ Game.player g1 = Game.player g
    /\ Game.avalancheX g1 = Game.avalancheX g
    /\ Game.startTime g1 = Game.startTime g
    /\ Game.isHolding g1 = Game.isHolding g
    /\ Game.fishInventoryRef g1 = Game.fishInventoryRef g
    /\ gameLoop PLAYING r now g
       = Some (render (fst (updatePhysics PLAYING now g1)),
               snd (updatePhysics PLAYING now g1)).
Proof.
  intros Hne.
  destruct (updateTerrain_total r g Hne) as (g1 & E & H1).
  exists g1. split; [exact E|]. repeat (split; [apply H1|]).
  unfold gameLoop. simpl. rewrite E.
  destruct (updatePhysics PLAYING now g1). reflexivity.
Qed.

(** ** The speed of the avalanche *)

Lemma elapsedSeconds_nonneg now start :
  (start <= now)%Z -> 0 <= elapsedSeconds now start.
Proof.
  intros H. unfold elapsedSeconds.
  apply Qle_shift_div_l; [reflexivity|].
  rewrite Qmult_0_l. change 0 with (inject_Z 0). rewrite <- Zle_Qle. lia.
Qed.

Lemma stageSpeed_lower (e : Q) :
  0 <= e -> 9 <= stageSpeed e /\ (400 <= e -> 31.75 <= stageSpeed e).
Proof.
  intros He. unfold stageSpeed.
  qcase (Qltb e 30); [split; intros; lra|].
  qcase (Qltb e 90); [split; intros; lra|].
  qcase (Qltb e 120); [split; intros; lra|].
  qcase (Qltb e 180); split; intros; lra.
Qed.

Lemma avTargetSpeed_lower (e : Q) (inv : Z) :
  0 <= e ->
  7 <= avTargetSpeed e inv /\ (400 <= e -> 29.75 <= avTargetSpeed e inv).
Proof.
  intros He. destruct (stageSpeed_lower e He) as [H9 H400].
  unfold avTargetSpeed. cbv zeta.
  destruct (0 <? inv)%Z;
    (split; [lra | intros H; specialize (H400 H); lra]).
Qed.

(** The avalanche after its update: it has moved by the target speed, or
    sits at the clamp 100 ahead of the player. *)
Lemma advanceAvalanche_cases e p av :
  let av' := advanceAvalanche e p av in
  av' <= Player.x p + 100
  /\ (av' = av + avTargetSpeed e (Player.invincibleTimer p)
      \/ (av' = Player.x p + 100
          /\ Player.x p + 100
             < av + avTargetSpeed e (Player.invincibleTimer p))).
Proof.
  unfold advanceAvalanche.
  qcase (Qltb (Player.x p + 100)
           (av + avTargetSpeed e (Player.invincibleTimer p))).
  - split; [lra | right; split; [reflexivity | assumption]].
  - split; [assumption | left; reflexivity].
Qed.

(** ** The invariant of the two components *)

Lemma playing_iff s : playing s = true <-> App.gameState (Sys.app s) = PLAYING.
Proof.
  unfold playing. destruct (App.gameState (Sys.app s)); simpl;
    split; congruence.
Qed.

Lemma step_frame `{MathLib} now r s :
  playing s = true ->
  Game.terrain (Sys.game s) <> [] ->
  exists g1,
    Game.terrain g1 <> []
    /\ Game.player g1 = Game.player (Sys.game s)
    /\ Game.avalancheX g1 = Game.avalancheX (Sys.game s)
    /\ Game.startTime g1 = Game.startTime (Sys.game s)
    /\ Game.isHolding g1 = Game.isHolding (Sys.game s)
    /\ Game.fishInventoryRef g1 = Game.fishInventoryRef (Sys.game s)
    /\ frameEvents now r s = snd (updatePhysics PLAYING now g1)
    /\ step (Frame now r) s
       = Sys.mk (applyEvents (Sys.app s) (snd (updatePhysics PLAYING now g1)))
           (syncInventory
              (applyEvents (Sys.app s) (snd (updatePhysics PLAYING now g1)))
              (render (fst (updatePhysics PLAYING now g1))))
           (Sys.overLog s ++ finalScores (snd (updatePhysics PLAYING now g1))).
Proof.
  intros Hp Hne.
  destruct (gameLoop_playing r now _ Hne)
    as (g1 & _ & T & P & A & S & I & F & L).
  exists g1. repeat (split; [assumption|]).
  unfold frameEvents, step. rewrite Hp, L. split; reflexivity.
Qed.

Lemma synced_fields a g :
  Game.player (syncInventory a (render g)) = Game.player g
  /\ Game.terrain (syncInventory a (render g)) = Game.terrain g
  /\ Game.avalancheX (syncInventory a (render g)) = Game.avalancheX g
  /\ Game.startTime (syncInventory a (render g)) = Game.startTime g
  /\ Game.fishInventoryRef (syncInventory a (render g)) = App.fishInventory a.
Proof.
  destruct (render_fields g) as (RP & RT & RA & RS & _).
  unfold syncInventory, Game.set_fishInventoryRef.
  cbn [Game.player Game.terrain Game.avalancheX Game.startTime
       Game.fishInventoryRef].
  rewrite RP, RT, RA, RS. repeat split; reflexivity.
Qed.

Lemma invariant_frame `{MathLib} now r s :
  invariant s -> invariant (step (Frame now r) s).
Proof.
  intros HI.
  destruct (playing s) eqn:Hp; [|unfold step; rewrite Hp; exact HI].
  pose proof HI as HI'.
  destruct HI' as ((V0 & V1) & AV & INV & REF & PINV & LEN & ST).
  apply playing_iff in Hp as Hgs. rewrite Hgs in ST.
  destruct ST as (TNE & AV30 & LOG & DEAD).
  destruct (step_frame now r s Hp TNE)
    as (g1 & T1 & P1 & A1 & S1 & H1 & R1 & _ & ->).
  pose proof (updatePhysics_summary PLAYING now g1) as U.
  cbv zeta in U.
  destruct U as (UT & _ & _ & UR & UX & UF & UV & _ & UE & UC).
  destruct (integrate_vx g1) as [IV0 IV1]. cbv zeta in IV0, IV1.
  rewrite P1 in IV0, IV1, UX.
  specialize (IV0 V0). specialize (IV1 V1).
  rewrite R1 in UF.
  pose proof (advanceAvalanche_cases
                (elapsedSeconds now (Game.startTime g1))
                (Game.player (fst (updatePhysics PLAYING now g1)))
                (Game.avalancheX g1)) as [AC _].
  set (av' := advanceAvalanche _ _ _) in *. clearbody av'.
  set (v0 := Player.vx (integrate g1)) in *. clearbody v0.
  set (b := returnsEarly g1) in *. clearbody b.
  set (g' := fst (updatePhysics PLAYING now g1)) in *.
  set (evs := snd (updatePhysics PLAYING now g1)) in *.
  clearbody g' evs.
  unfold invariant. cbn [Sys.app Sys.game Sys.overLog].
  destruct (synced_fields (applyEvents (Sys.app s) evs) g')
    as (-> & -> & -> & _ & ->).
  rewrite applyEvents_inventory, applyEvents_slots, applyEvents_gameState.
  rewrite Hgs, UX, UF, REF, LOG, UT.
  pose proof (iter_decrement_range (deliveries evs) _ INV) as IR.
  assert (VX : 0 < Player.vx (Game.player g')
               /\ Player.vx (Game.player g') <= 28.1).
  { destruct UV as [-> | ->]; split; lra. }
  split; [exact VX|].
  destruct b.
  - destruct (UE eq_refl) as (EV & EA & ED & _).
    subst evs. rewrite EA, ED, A1, P1.
    cbn [finalScores flat_map app].
    split; [lra|].
    split; [exact IR|]. split; [reflexivity|]. split; [exact INV|].
    split; [exact LEN|].
    split; [exact T1|]. split; [lra|]. split; [reflexivity | exact DEAD].
  - destruct (UC eq_refl) as (CA & CF & _ & CD).
    rewrite CF, CD, CA, P1, DEAD, UX. rewrite UX in AC.
    split; [exact AC|].
    split; [exact IR|]. split; [reflexivity|]. split; [exact INV|].
    split; [exact LEN|].
    qcase (Qltb (Player.x (Game.player (Sys.game s)) + v0 - 30) av').
    + cbn [app orb]. split; [exact E|]. split; reflexivity.
    + cbn [app orb]. split; [exact T1|]. split; [exact E|].
      split; reflexivity.
Qed.


Lemma handleInputStart_fields gs clickY height g :
  let g' := fst (handleInputStart gs clickY height g) in
  Player.x (Game.player g') = Player.x (Game.player g)
  /\ Player.vx (Game.player g') = Player.vx (Game.player g)
  /\ Player.isDead (Game.player g') = Player.isDead (Game.player g)
  /\ Player.fishInventory (Game.player g')
     = Player.fishInventory (Game.player g)
  /\ Player.flightTimer (Game.player g') = Player.flightTimer (Game.player g)
  /\ Game.avalancheX g' = Game.avalancheX g
  /\ Game.terrain g' = Game.terrain g
  /\ Game.startTime g' = Game.startTime g
  /\ Game.fishInventoryRef g' = Game.fishInventoryRef g.
Proof.
  unfold handleInputStart. break_if; simpl; tauto.
Qed.

Lemma handleSlotTap_fields index a a' :
  handleSlotTap index a = Some a' ->
  App.gameState a' = App.gameState a
  /\ List.length (App.grillSlots a') = List.length (App.grillSlots a)
  /\ (App.fishInventory a' = App.fishInventory a
      \/ (exists slot,
            App.grillSlots a !! index = Some slot
            /\ GrillSlot.isCooking slot = true
            /\ GrillSlot.state slot = perfect)
         /\ (App.fishInventory a < 3)%Z
         /\ App.fishInventory a' = (App.fishInventory a + 1)%Z).
Proof.
  unfold handleSlotTap.
  destruct (App.grillSlots a !! index) as [slot|] eqn:ES; [|discriminate].
  destruct (GrillSlot.isCooking slot) eqn:EC; simpl.
  2: { intros [= <-]. tauto. }
  destruct (GrillSlot.state slot) eqn:EP; try (intros [= <-]; tauto).
  qcase (App.fishInventory a <? 3)%Z; intros [= <-]; [|tauto].
  simpl. rewrite length_insert. repeat split; try reflexivity.
  right. repeat split; try assumption; try reflexivity.
  exists slot. tauto.
Qed.

Lemma initTerrain_nonempty rnd : initTerrain 64 rnd 0 0 200 <> [].
Proof. simpl. discriminate. Qed.

Lemma invariant_step `{MathLib} i s : invariant s -> invariant (step i s).
Proof.
  intros HI. destruct i as [now rnd|now r| |index|clickY height|].
  - unfold step. destruct (playing s) eqn:Hp; [exact HI|].
    clear HI Hp. pose proof (initTerrain_nonempty rnd) as HT.
    unfold invariant, startGame, initGame, syncInventory,
      Game.set_fishInventoryRef.
    cbn [Sys.app Sys.game Sys.overLog App.gameState App.fishInventory
         App.grillSlots Game.player Game.terrain Game.avalancheX
         Game.fishInventoryRef].
    set (t := initTerrain 64 rnd 0 0 200) in *. clearbody t.
    split; [vm_compute; split; [reflexivity | discriminate]|].
    split; [vm_compute; discriminate|].
    split; [lia|]. split; [reflexivity|].
    split; [vm_compute; split; discriminate|].
    split; [reflexivity|].
    split; [exact HT|].
    split; [vm_compute; discriminate|]. split; reflexivity.
  - apply invariant_frame. exact HI.
  - unfold step. destruct (playing s); [|exact HI].
    destruct HI as (V & AV & INV & REF & PINV & LEN & ST).
    unfold invariant. simpl. rewrite length_map. tauto.
  - unfold step. destruct (playing s); [|exact HI].
    destruct (handleSlotTap index (Sys.app s)) as [a'|] eqn:ET; [|exact HI].
    destruct (handleSlotTap_fields _ _ _ ET) as (GS & LN & IV).
    destruct HI as (V & AV & INV & REF & PINV & LEN & ST).
    unfold invariant. simpl. rewrite GS, LN.
    repeat split; try tauto;
      destruct IV as [->|(_ & Hlt & ->)]; lia.
  - destruct HI as (V & AV & INV & REF & PINV & LEN & ST).
    unfold step, invariant.
    cbn [Sys.app Sys.game Sys.overLog].
    destruct (handleInputStart_fields (App.gameState (Sys.app s)) clickY
                height (Sys.game s))
      as (-> & -> & -> & -> & _ & -> & -> & _ & ->).
    tauto.
  - destruct HI as (V & AV & INV & REF & PINV & LEN & ST).
    unfold step, invariant. simpl. tauto.
Qed.

Lemma invariant_initial : invariant initialSys.
Proof.
  unfold invariant. simpl. repeat split; try lia; try reflexivity;
    vm_compute; discriminate.
Qed.

Lemma reachable_invariant `{MathLib} s : reachable s -> invariant s.
Proof.
  induction 1 as [|i s _ IH]; [apply invariant_initial|].
  apply invariant_step. exact IH.
Qed.

(** C1 as worded fails. The speed of the avalanche is a function of the
    time elapsed on the clock since the start of the run, and it is
    negative when the clock reads more than a minute before the start: in
    the first frame of a run started at clock 0, taken at clock -100 s,
    the boundary moves back from -800 to -806. *)
Lemma avalanche_retreats_on_early_clock :
  playing startedSys = true
  /\ Game.avalancheX (Sys.game startedSys) == -800
  /\ Game.avalancheX
       (Sys.game (@step coarseMath (Frame (-100000) calmRand) startedSys))
     == -806
  /\ ~ Game.avalancheX (Sys.game startedSys)
       <= Game.avalancheX
            (Sys.game
               (@step coarseMath (Frame (-100000) calmRand) startedSys)).
Proof.
  split; [reflexivity|]. split; [reflexivity|].
  split; [vm_compute; reflexivity|].
  intros H. vm_compute in H. apply H. reflexivity.
Qed.

(** C1, as the code has it. At the end of every frame of a run the
    avalanche boundary is at most 100 ahead of the player; and in every
    frame whose clock does not read earlier than the start of the run the
    boundary does not move back. *)
Theorem avalanche_monotone_clamped `{MathLib} (s : Sys.t) (now : Z)
    (r : TerrainRand) :
  reachable s ->
  Game.avalancheX (Sys.game (step (Frame now r) s))
    <= Player.x (Game.player (Sys.game (step (Frame now r) s))) + 100
  /\ ((Game.startTime (Sys.game s) <= now)%Z ->
      Game.avalancheX (Sys.game s)
        <= Game.avalancheX (Sys.game (step (Frame now r) s))).
Proof.
  intros Hreach.
  pose proof (reachable_invariant s Hreach) as HI.
  split.
  { apply (invariant_frame now r) in HI. apply HI. }
  intros Hclock.
  destruct (playing s) eqn:Hp.
  2: { unfold step. rewrite Hp. apply Qle_refl. }
  destruct HI as ((V0 & V1) & AV & _ & _ & _ & _ & ST).
  apply playing_iff in Hp as Hgs. rewrite Hgs in ST.
  destruct ST as (TNE & _).
  destruct (step_frame now r s Hp TNE)
    as (g1 & _ & P1 & A1 & S1 & _ & _ & _ & ->).
  pose proof (updatePhysics_summary PLAYING now g1) as U.
  cbv zeta in U.
  destruct U as (_ & _ & _ & _ & UX & _ & _ & _ & UE & UC).
  destruct (integrate_vx g1) as [IV0 _]. cbv zeta in IV0.
  rewrite P1 in IV0, UX. specialize (IV0 V0).
  rewrite <- S1 in Hclock.
  destruct (avTargetSpeed_lower
              (elapsedSeconds now (Game.startTime g1))
              (Player.invincibleTimer
                 (Game.player (fst (updatePhysics PLAYING now g1))))
              (elapsedSeconds_nonneg _ _ Hclock)) as [Hsp _].
  destruct (advanceAvalanche_cases
              (elapsedSeconds now (Game.startTime g1))
              (Game.player (fst (updatePhysics PLAYING now g1)))
              (Game.avalancheX g1)) as [_ AC].
  cbv zeta in AC.
  set (av' := advanceAvalanche _ _ _) in *. clearbody av'.
  set (sp := avTargetSpeed _ _) in *. clearbody sp.
  set (v0 := Player.vx (integrate g1)) in *. clearbody v0.
  set (b := returnsEarly g1) in *. clearbody b.
  cbn [Sys.game].
  destruct (synced_fields
              (applyEvents (Sys.app s) (snd (updatePhysics PLAYING now g1)))
              (fst (updatePhysics PLAYING now g1))) as (_ & _ & -> & _).
  set (g' := fst (updatePhysics PLAYING now g1)) in *. clearbody g'.
  destruct b.
  - destruct (UE eq_refl) as (_ & -> & _). rewrite A1. apply Qle_refl.
  - destruct (UC eq_refl) as (-> & _). rewrite A1 in AC.
    destruct AC as [-> | [-> _]].
    + lra.
    + rewrite UX. lra.
Qed.

Lemma avalanche_monotone_clamped_witness :
  Game.avalancheX
    (Sys.game (@step coarseMath (Frame 16 calmRand) startedSys))
  <= Player.x
       (Game.player
          (Sys.game (@step coarseMath (Frame 16 calmRand) startedSys)))
     + 100
  /\ Game.avalancheX (Sys.game startedSys)
     <= Game.avalancheX
          (Sys.game (@step coarseMath (Frame 16 calmRand) startedSys)).
Proof.
  destruct (@avalanche_monotone_clamped coarseMath startedSys 16 calmRand)
    as [H1 H2].
  - apply (@reach_step coarseMath). apply (@reach_init coarseMath).
  - split; [exact H1 | apply H2; simpl; lia].
Defined.

(** ** The inventory *)

(** C4. Between any two inputs the inventory is between 0 and 3, and so
    are its mirrors in the canvas. During a run an input changes it in two
    ways only: a tap on a cooking slot in state perfect adds one, and only
    when it is below 3; a frame takes one off, not below 0, for each
    deliver event it emitted. *)
Theorem inventory_bounded `{MathLib} (s : Sys.t) (i : Input) :
  reachable s ->
  playing s = true ->
  let inv := App.fishInventory (Sys.app s) in
  let inv' := App.fishInventory (Sys.app (step i s)) in
  (0 <= inv <= 3)%Z
  /\ (0 <= inv' <= 3)%Z
  /\ Game.fishInventoryRef (Sys.game s) = inv
  /\ (0 <= Player.fishInventory (Game.player (Sys.game s)) <= 3)%Z
  /\ match i with
     | Tap index =>
         inv' = inv
         \/ (exists slot,
               App.grillSlots (Sys.app s) !! index = Some slot
               /\ GrillSlot.isCooking slot = true
               /\ GrillSlot.state slot = perfect)
            /\ (inv < 3)%Z /\ inv' = (inv + 1)%Z
     | Frame now r =>
         inv' = Nat.iter (deliveries (frameEvents now r s)) decrement inv
     | _ => inv' = inv
     end.
Proof.
  intros Hreach Hp inv inv'. subst inv inv'.
  pose proof (reachable_invariant s Hreach) as HI.
  pose proof (invariant_step i s HI) as HI'.
  destruct HI as (_ & _ & INV & REF & PINV & _ & ST).
  destruct HI' as (_ & _ & INV' & _).
  repeat (split; [assumption|]).
  destruct i as [now rnd|now r| |index|clickY height|];
    try (unfold step; rewrite ?Hp; reflexivity).
  - apply playing_iff in Hp as Hgs. rewrite Hgs in ST.
    destruct ST as (TNE & _).
    destruct (step_frame now r s Hp TNE)
      as (g1 & _ & _ & _ & _ & _ & _ & -> & ->).
    cbn [Sys.app]. apply applyEvents_inventory.
  - unfold step. rewrite Hp.
    destruct (handleSlotTap index (Sys.app s)) as [a'|] eqn:ET.
    + cbn [Sys.app]. apply (handleSlotTap_fields _ _ _ ET).
    + left. reflexivity.
Qed.

Lemma inventory_bounded_witness :
  App.fishInventory (Sys.app (@step coarseMath (Tap 0) startedSys)) = 0%Z.
Proof.
  pose proof (@inventory_bounded coarseMath startedSys (Tap 0)
                (@reach_step coarseMath _ _ (@reach_init coarseMath))
                eq_refl) as (_ & _ & _ & _ & [H | ((slot & Hs & Hc & _) & _)]).
  - rewrite H. reflexivity.
  - vm_compute in Hs. injection Hs as <-. discriminate Hc.
Defined.

(** ** The score accumulator does not reach the outputs *)

Ltac pnorm :=
  cbv beta iota zeta delta
    [Player.x Player.y Player.vx Player.vy Player.rotation
     Player.isGrounded Player.isDead Player.score Player.boostTimer
     Player.backflipCount Player.totalBackflips Player.invincibleTimer
     Player.flightTimer Player.fishInventory
     Player.set_x Player.set_y Player.set_vx Player.set_vy
     Player.set_rotation Player.set_isGrounded Player.set_isDead
     Player.set_score Player.set_boostTimer Player.set_backflipCount
     Player.set_invincibleTimer Player.set_flightTimer
     Player.set_fishInventory fst snd].

Lemma sameButScore_iff p q :
  sameButScore p q <-> exists sc, p = Player.set_score sc q.
Proof.
  unfold sameButScore. split.
  - intros E. exists (Player.score p). destruct p, q.
    revert E. pnorm. intros E.
    injection E as -> -> -> -> -> -> -> -> -> -> -> -> ->. reflexivity.
  - intros [sc ->]. destruct q. reflexivity.
Qed.

Lemma sameButScore_refl p : sameButScore p p.
Proof. reflexivity. Qed.

Lemma sameButScore_trans p q r :
  sameButScore p q -> sameButScore q r -> sameButScore p r.
Proof. unfold sameButScore. congruence. Qed.

(** A function on players that ignores the accumulator and at most
    adds to it maps players equal up to the accumulator to such players. *)
Lemma sameButScore_lift (f : Player.t -> Player.t) :
  (forall sc q, sameButScore (f (Player.set_score sc q)) (f q)) ->
  forall p q, sameButScore p q -> sameButScore (f p) (f q).
Proof.
  intros Hf p q E. apply sameButScore_iff in E. destruct E as [sc ->].
  apply Hf.
Qed.

Lemma tickTimers_score p q :
  sameButScore p q -> sameButScore (tickTimers p) (tickTimers q).
Proof.
  apply sameButScore_lift. clear p q. intros sc q.
  apply sameButScore_iff. exists sc. destruct q.
  unfold tickTimers. pnorm.
  destruct (0 <? invincibleTimer)%Z; destruct (0 <? flightTimer)%Z;
    destruct (0 <? boostTimer)%Z; reflexivity.
Qed.

Lemma gravityAssist_score p q :
  sameButScore p q -> sameButScore (gravityAssist p) (gravityAssist q).
Proof.
  apply sameButScore_lift. clear p q. intros sc q.
  apply sameButScore_iff. exists sc. destruct q.
  unfold gravityAssist, targetSpeed. pnorm.
  break_if; reflexivity.
Qed.

Lemma advance_score p q :
  sameButScore p q -> sameButScore (advance p) (advance q).
Proof.
  apply sameButScore_lift. clear p q. intros sc q.
  apply sameButScore_iff. exists sc. destruct q. reflexivity.
Qed.

Lemma applyGravity_score p q :
  sameButScore p q -> sameButScore (applyGravity p) (applyGravity q).
Proof.
  apply sameButScore_lift. clear p q. intros sc q.
  apply sameButScore_iff. exists sc. destruct q.
  unfold applyGravity. pnorm.
  break_if; reflexivity.
Qed.

Lemma integrate_score g sc :
  sameButScore
    (integrate (Game.set_player (Player.set_score sc (Game.player g)) g))
    (integrate g).
Proof.
  unfold integrate. cbv zeta.
  apply applyGravity_score, advance_score, gravityAssist_score,
    tickTimers_score.
  apply sameButScore_iff. exists sc. destruct g as [p]. destruct p.
  reflexivity.
Qed.

Lemma landing_score ga p q shake :
  sameButScore p q ->
  sameButScore (fst (fst (landing ga p shake))) (fst (fst (landing ga q shake)))
  /\ snd (fst (landing ga p shake)) = snd (fst (landing ga q shake))
  /\ snd (landing ga p shake) = snd (landing ga q shake).
Proof.
  intros E. apply sameButScore_iff in E. destruct E as [sc ->].
  destruct q. unfold landing. pnorm.
  destruct (_ && _); [|destruct (0 <? backflipCount)%Z;
                        [destruct (Qltb _ PERFECT_THRESHOLD)|]];
    pnorm; (split; [|split; reflexivity]);
    apply sameButScore_iff; eexists; pnorm; reflexivity.
Qed.

Lemma spin_score holding gy p q :
  sameButScore p q -> sameButScore (spin holding gy p) (spin holding gy q).
Proof.
  apply sameButScore_lift. clear p q. intros sc q.
  apply sameButScore_iff. exists sc. destruct q.
  unfold spin. pnorm.
  break_if; reflexivity.
Qed.

Lemma sameButScore_fields p q :
  sameButScore p q ->
  Player.x p = Player.x q /\ Player.y p = Player.y q
  /\ Player.vx p = Player.vx q /\ Player.vy p = Player.vy q
  /\ Player.rotation p = Player.rotation q
  /\ Player.isGrounded p = Player.isGrounded q
  /\ Player.isDead p = Player.isDead q
  /\ Player.boostTimer p = Player.boostTimer q
  /\ Player.backflipCount p = Player.backflipCount q
  /\ Player.invincibleTimer p = Player.invincibleTimer q
  /\ Player.flightTimer p = Player.flightTimer q
  /\ Player.fishInventory p = Player.fishInventory q.
Proof.
  intros E. apply sameButScore_iff in E. destruct E as [sc ->].
  destruct q. repeat split; reflexivity.
Qed.

Lemma settle_score f p q :
  (forall sc r, f (Player.set_score sc r) = Player.set_score sc (f r)) ->
  sameButScore p q -> sameButScore (f p) (f q).
Proof.
  intros Hf E. apply sameButScore_iff in E. destruct E as [sc ->].
  apply sameButScore_iff. exists sc. apply Hf.
Qed.

(** Setters of other fields keep two players equal up to the accumulator. *)
Ltac by_setter E :=
  let sc := fresh "sc" in
  apply sameButScore_iff in E; destruct E as [sc ->];
  apply sameButScore_iff; exists sc;
  match goal with
  | |- context [Player.set_score sc ?q] => destruct q
  end; reflexivity.

Lemma floorCollision_score `{MathLib} holding t p q sh :
  sameButScore p q ->
  match floorCollision holding t p sh, floorCollision holding t q sh with
  | Return (p', s1, e1), Return (q', s2, e2)
  | Continue (p', s1, e1), Continue (q', s2, e2) =>
      sameButScore p' q' /\ s1 = s2 /\ e1 = e2
  | _, _ => False
  end.
Proof.
  intros E.
  destruct (sameButScore_fields p q E)
    as (EX & EY & _ & EVY & _ & EG & _ & _ & _ & _ & EFL & _).
  unfold floorCollision. rewrite EX, EY, EVY, EG, EFL.
  destruct (getGroundY t (Player.x q)) as [gy ga].
  destruct (_ && _).
  - destruct (0 <? Player.flightTimer q)%Z.
    + split; [|split; reflexivity].
      by_setter E.
    + destruct (negb (Player.isGrounded q)).
      * destruct (landing_score ga p q sh E) as (L1 & L2 & L3).
        destruct (landing ga p sh) as [[p1 s1] e1].
        destruct (landing ga q sh) as [[q1 s2] e2].
        cbn [fst snd] in L1, L2, L3. subst s2 e2.
        split; [|split; reflexivity].
        by_setter L1.
      * split; [|split; reflexivity].
        by_setter E.
  - split; [|split; reflexivity].
    apply spin_score.
    by_setter E.
Qed.

Section ForEachRel.
Context {S A : Type} (f : S -> A -> S * A * list Event) (R : S -> S -> Prop).

Lemma forEach_rel :
  (forall s s' a, R s s' ->
     R (fst (fst (f s a))) (fst (fst (f s' a)))
     /\ snd (fst (f s a)) = snd (fst (f s' a))
     /\ snd (f s a) = snd (f s' a)) ->
  forall l s s', R s s' ->
    R (fst (fst (forEach f s l))) (fst (fst (forEach f s' l)))
    /\ snd (fst (forEach f s l)) = snd (fst (forEach f s' l))
    /\ snd (forEach f s l) = snd (forEach f s' l).
Proof.
  intros Hstep l. induction l as [|a l IH]; intros s s' Hs.
  - split; [exact Hs | split; reflexivity].
  - rewrite !forEach_cons. cbn [fst snd].
    destruct (Hstep s s' a Hs) as (H1 & H2 & H3).
    destruct (IH _ _ H1) as (I1 & I2 & I3).
    rewrite H2, H3, I2, I3. split; [exact I1 | split; reflexivity].
Qed.

End ForEachRel.

Lemma hitObstacle_score `{MathLib} t (ps qs : Player.t * Q) obs :
  sameButScore (fst ps) (fst qs) /\ snd ps = snd qs ->
  (sameButScore (fst (fst (fst (hitObstacle t ps obs))))
     (fst (fst (fst (hitObstacle t qs obs))))
   /\ snd (fst (fst (hitObstacle t ps obs)))
      = snd (fst (fst (hitObstacle t qs obs))))
  /\ snd (fst (hitObstacle t ps obs)) = snd (fst (hitObstacle t qs obs))
  /\ snd (hitObstacle t ps obs) = snd (hitObstacle t qs obs).
Proof.
  destruct ps as [p s1], qs as [q s2]. cbn [fst snd]. intros [E ->].
  destruct (sameButScore_fields p q E) as (EX & EY & _).
  unfold hitObstacle. cbn [fst snd]. rewrite EX, EY.
  destruct (Obstacle.passed obs); cbn [fst snd];
    [(split; [split; [exact E | reflexivity] | split; reflexivity])|].
  destruct (_ && _); cbn [fst snd];
    [|(split; [split; [exact E | reflexivity] | split; reflexivity])].
  destruct (Qltb _ (Player.y q)); cbn [fst snd];
    [|(split; [split; [exact E | reflexivity] | split; reflexivity])].
  repeat split; try reflexivity.
  by_setter E.
Qed.

Lemma visitDecoration_score p q dec :
  sameButScore p q ->
  sameButScore (fst (fst (visitDecoration p dec)))
    (fst (fst (visitDecoration q dec)))
  /\ snd (fst (visitDecoration p dec)) = snd (fst (visitDecoration q dec))
  /\ snd (visitDecoration p dec) = snd (visitDecoration q dec).
Proof.
  intros E.
  destruct (sameButScore_fields p q E)
    as (EX & EY & _ & _ & _ & _ & _ & _ & _ & _ & _ & EF).
  unfold visitDecoration. rewrite EX, EY, EF.
  destruct (Decoration.type dec);
    try (cbn [fst snd]; (split; [exact E | split; reflexivity])).
  destruct (_ && _); cbn [fst snd];
    [|(split; [exact E | split; reflexivity])].
  repeat split; try reflexivity.
  apply sameButScore_iff in E. destruct E as [sc ->].
  apply sameButScore_iff. destruct q. eexists. pnorm. reflexivity.
Qed.

Lemma touchPowerUp_score p q pu :
  sameButScore p q ->
  sameButScore (fst (fst (touchPowerUp p pu)))
    (fst (fst (touchPowerUp q pu)))
  /\ snd (fst (touchPowerUp p pu)) = snd (fst (touchPowerUp q pu))
  /\ snd (touchPowerUp p pu) = snd (touchPowerUp q pu).
Proof.
  intros E.
  destruct (sameButScore_fields p q E) as (EX & EY & _).
  unfold touchPowerUp. rewrite EX, EY.
  destruct (PowerUp.collected pu); cbn [fst snd];
    [(split; [exact E | split; reflexivity])|].
  cbv zeta. destruct (Qltb _ (50 * 50)); cbn [fst snd];
    [|(split; [exact E | split; reflexivity])].
  destruct (PowerUp.type pu); cbn [fst snd];
    repeat split; try reflexivity; try exact E.
  by_setter E.
Qed.

Lemma advanceAvalanche_score e p q av :
  sameButScore p q -> advanceAvalanche e p av = advanceAvalanche e q av.
Proof.
  intros E.
  destruct (sameButScore_fields p q E)
    as (EX & _ & _ & _ & _ & _ & _ & _ & _ & EN & _).
  unfold advanceAvalanche. rewrite EX, EN. reflexivity.
Qed.

Lemma deathCheck_score gs av p q :
  sameButScore p q ->
  sameButScore (fst (deathCheck gs av p)) (fst (deathCheck gs av q))
  /\ snd (deathCheck gs av p) = snd (deathCheck gs av q).
Proof.
  intros E.
  destruct (sameButScore_fields p q E) as (EX & _).
  unfold deathCheck. rewrite EX.
  destruct (Qltb _ av); cbn [fst snd]; split; try reflexivity;
    [by_setter E | exact E].
Qed.

Lemma hud_score av p q : sameButScore p q -> hud av p = hud av q.
Proof.
  intros E.
  destruct (sameButScore_fields p q E)
    as (EX & _ & EV & _ & _ & _ & _ & EB & _ & EN & EL & _).
  unfold hud, statusLabel. rewrite EX, EV, EB, EN, EL. reflexivity.
Qed.

(** Changing the accumulator before a tick changes nothing after it but
    the accumulator. *)
Lemma updatePhysics_score `{MathLib} gs now g sc :
  let g2 := Game.set_player (Player.set_score sc (Game.player g)) g in
  snd (updatePhysics gs now g2) = snd (updatePhysics gs now g)
  /\ sameButScore (Game.player (fst (updatePhysics gs now g2)))
       (Game.player (fst (updatePhysics gs now g)))
  /\ Game.avalancheX (fst (updatePhysics gs now g2))
     = Game.avalancheX (fst (updatePhysics gs now g))
  /\ Game.obstacles (fst (updatePhysics gs now g2))
     = Game.obstacles (fst (updatePhysics gs now g))
  /\ Game.decorations (fst (updatePhysics gs now g2))
     = Game.decorations (fst (updatePhysics gs now g))
  /\ Game.powerUps (fst (updatePhysics gs now g2))
     = Game.powerUps (fst (updatePhysics gs now g)).
Proof.
  intros g2.
  pose proof (integrate_score g sc) as EI. fold g2 in EI.
  pose proof (floorCollision_score (Game.isHolding g) (Game.terrain g)
                (integrate g2) (integrate g) (Game.shake g) EI) as FC.
  destruct (floorCollision (Game.isHolding g) (Game.terrain g)
              (integrate g2) (Game.shake g))
    as [[[p1a s1a] e1a]|[[p1a s1a] e1a]] eqn:F2;
    destruct (floorCollision (Game.isHolding g) (Game.terrain g)
                (integrate g) (Game.shake g))
      as [[[p1b s1b] e1b]|[[p1b s1b] e1b]] eqn:F1;
    try contradiction.
  - destruct FC as (E1 & -> & ->).
    rewrite (updatePhysics_return gs now g _ _ _ F1).
    rewrite (updatePhysics_return gs now g2 p1a s1b e1b F2).
    clear F1 F2 EI.
    cbn [fst snd Game.player Game.avalancheX Game.obstacles
         Game.decorations Game.powerUps Game.set_shake Game.set_player].
    unfold g2.
    cbn [Game.avalancheX Game.obstacles Game.decorations Game.powerUps
         Game.set_player].
    repeat split; try reflexivity. exact E1.
  - destruct FC as (E1 & -> & ->).
    destruct (updatePhysics_continue gs now g _ _ _ F1)
      as (psb & obsb & ev2b & p3b & decsb & ev3b & p4b & pusb & ev4b
          & E2b & E3b & E4b & _ & _ & _ & _ & _ & _ & EUb).
    destruct (updatePhysics_continue gs now g2 p1a s1b e1b F2)
      as (psa & obsa & ev2a & p3a & decsa & ev3a & p4a & pusa & ev4a
          & E2a & E3a & E4a & _ & _ & _ & _ & _ & _ & EUa).
    cbv zeta in EUa, EUb. rewrite EUa, EUb. clear EUa EUb F1 F2 EI.
    unfold g2 in *.
    cbn [Game.terrain Game.obstacles Game.decorations Game.powerUps
         Game.avalancheX Game.startTime Game.isHolding
         Game.fishInventoryRef Game.set_player] in *.
    clear g2.
    assert (R2 : (sameButScore (fst psa) (fst psb) /\ snd psa = snd psb)
                 /\ obsa = obsb /\ ev2a = ev2b).
    { destruct (sameButScore_fields _ _ E1)
        as (_ & _ & _ & _ & _ & _ & _ & _ & _ & EN & EL & _).
      rewrite EN, EL in E2a.
      destruct (_ && _).
      - pose proof (forEach_rel (hitObstacle (Game.terrain g))
                      (fun s s' : Player.t * Q =>
                         sameButScore (fst s) (fst s') /\ snd s = snd s')
                      (fun s s' a => hitObstacle_score (Game.terrain g) s s' a)
                      (Game.obstacles g) (p1a, s1b) (p1b, s1b)
                      (conj E1 eq_refl)) as HR.
        rewrite E2a, E2b in HR. exact HR.
      - injection E2a as <- <- <-. injection E2b as <- <- <-.
        repeat split; try reflexivity. exact E1. }
    destruct R2 as ((P2 & S2) & -> & ->).
    pose proof (forEach_rel visitDecoration sameButScore
                  visitDecoration_score (Game.decorations g)
                  (fst psa) (fst psb) P2) as R3.
    rewrite E3a, E3b in R3. cbn [fst snd] in R3.
    destruct R3 as (P3 & -> & ->).
    pose proof (forEach_rel touchPowerUp sameButScore
                  touchPowerUp_score (Game.powerUps g) p3a p3b P3) as R4.
    rewrite E4a, E4b in R4. cbn [fst snd] in R4.
    destruct R4 as (P4 & -> & ->).
    rewrite (advanceAvalanche_score _ p4a p4b _ P4).
    set (av := advanceAvalanche _ p4b _). clearbody av.
    destruct (deathCheck_score gs av p4a p4b P4) as (P5 & ->).
    rewrite (hud_score av _ _ P5).
    cbn [fst snd Game.player Game.avalancheX Game.obstacles
         Game.decorations Game.powerUps].
    repeat split; try reflexivity. exact P5.
Qed.

Lemma silent_hudScores evs : Forall silent evs -> hudScores evs = [].
Proof.
  induction 1 as [|e evs He _ IH]; [reflexivity|].
  destruct e; try contradiction; exact IH.
Qed.

Lemma hudScores_app a b : hudScores (a ++ b) = hudScores a ++ hudScores b.
Proof. unfold hudScores. apply flat_map_app. Qed.

(** App shows the last score handed to onScoreUpdate. *)
Lemma applyEvents_score evs : forall a,
  App.score (applyEvents a evs) = List.last (hudScores evs) (App.score a).
Proof.
  induction evs as [|e evs IH]; intros a; [reflexivity|].
  change (applyEvents a (e :: evs)) with (applyEvents (applyEvent a e) evs).
  rewrite IH.
  destruct e; cbn [applyEvent hudScores flat_map app]; try reflexivity.
  - unfold handleGameOver. cbv zeta.
    destruct (_ <? _)%Z; reflexivity.
  - fold (hudScores evs). unfold handleScoreUpdate. cbn [App.score].
    destruct (hudScores evs) as [|h l] eqn:EH; [reflexivity|].
    change (List.last ([score] ++ h :: l) (App.score a))
      with (List.last (h :: l) (App.score a)).
    generalize (h :: l). intros l'. induction l' as [|x [|y l'] IHl];
      try reflexivity. exact IHl.
  - unfold handleCollectFish. cbv zeta.
    destruct (findIndex _ _); [|reflexivity].
    destruct (_ !! _); reflexivity.
Qed.

(** A tick that runs to the end of updatePhysics hands one score to
    onScoreUpdate, the distance of the player after the tick. *)
Lemma updatePhysics_hud `{MathLib} gs now g :
  returnsEarly g = false ->
  hudScores (snd (updatePhysics gs now g))
  = [Math_floor (Player.x (Game.player (fst (updatePhysics gs now g))) / 10)].
Proof.
  unfold returnsEarly. intros RE.
  pose proof (floorCollision_state (Game.isHolding g) (Game.terrain g)
                (integrate g) (Game.shake g)) as HF.
  destruct (floorCollision _ _ _ _) as [[[p1 sh1] ev1]|[[p1 sh1] ev1]] eqn:EF;
    [discriminate|].
  destruct (updatePhysics_continue gs now g _ _ _ EF)
    as (ps & obs & ev2 & p3 & decs & ev3 & p4 & pus & ev4
        & _ & _ & _ & _ & _ & _ & S2 & S3 & S4 & EU).
  cbv zeta in EU. rewrite EU. clear EU EF.
  destruct HF as (_ & _ & _ & _ & _ & _ & S1).
  cbn [fst snd Game.player].
  rewrite !hudScores_app.
  rewrite (silent_hudScores _ S1), (silent_hudScores _ S2),
    (silent_hudScores _ S3), (silent_hudScores _ S4).
  set (av := advanceAvalanche _ _ _). clearbody av.
  assert (hudScores (snd (deathCheck gs av p4)) = []) as ->.
  { unfold deathCheck. destruct (Qltb _ _); [|reflexivity].
    destruct (GameState_eqb gs PLAYING); reflexivity. }
  reflexivity.
Qed.

(** C10 as worded fails: a score does not reach the HUD in each tick. A
    tick that leaves through the return of the flight branch reports
    nothing, and the HUD keeps the score of an earlier tick: here 10,
    while the player is at distance 12. *)
Lemma hover_tick_reports_no_score :
  let r := @updatePhysics coarseMath PLAYING 16 hovering in
  let x' := Player.x (Game.player (fst r)) in
  hudScores (snd r) = []
  /\ Math_floor (x' / 10) = 12%Z
  /\ App.score (applyEvents hoverApp (snd r)) = 10%Z
  /\ App.score (applyEvents hoverApp (snd r)) <> Math_floor (x' / 10).
Proof.
  cbv zeta.
  assert (snd (@updatePhysics coarseMath PLAYING 16 hovering) = []) as ->
      by (vm_compute; reflexivity).
  assert (Math_floor
            (Player.x
               (Game.player (fst (@updatePhysics coarseMath PLAYING 16
                                    hovering))) / 10) = 12%Z) as ->
      by (vm_compute; reflexivity).
  repeat split; try reflexivity. discriminate.
Qed.

(** C10, as the code has it. A tick that runs to the end of
    updatePhysics hands exactly one score to the HUD, the floor of the
    player's x after the tick divided by 10, and App shows it; when the
    avalanche is then beyond x - 30 in a running game, the tick hands
    exactly one final score to onGameOver, the same number, and no final
    score otherwise. A tick that leaves through the return of the flight
    branch reports nothing. The accumulator [score] of the player, which
    landings raise by 150 or 300 per rotation and a delivery by 500,
    reaches none of the reports: started with any other value of the
    accumulator, the tick emits the same events and leaves the same
    position. *)
Theorem reported_score_is_distance `{MathLib} (gs : GameState) (now : Z)
    (g : Game.t) (sc : Z) (a : App.t) :
  let g' := fst (updatePhysics gs now g) in
  let evs := snd (updatePhysics gs now g) in
  let x' := Player.x (Game.player g') in
  let g2 := Game.set_player (Player.set_score sc (Game.player g)) g in
  (returnsEarly g = false ->
   hudScores evs = [Math_floor (x' / 10)]
   /\ App.score (applyEvents a evs) = Math_floor (x' / 10)
   /\ finalScores evs
      = (if Qltb (x' - 30) (Game.avalancheX g')
         then if GameState_eqb gs PLAYING
              then [Math_floor (x' / 10)] else []
         else []))
  /\ (returnsEarly g = true -> evs = [])
  /\ snd (updatePhysics gs now g2) = evs
  /\ Player.x (Game.player (fst (updatePhysics gs now g2))) = x'
  /\ (forall p dec,
        Player.score (fst (fst (visitDecoration p dec))) = Player.score p
        \/ Player.score (fst (fst (visitDecoration p dec)))
           = (Player.score p + 500)%Z).
Proof.
  intros g' evs x' g2. subst g' evs x'.
  destruct (updatePhysics_score gs now g sc) as (EV & EP & _).
  fold g2 in EV, EP.
  pose proof (updatePhysics_summary gs now g) as U. cbv zeta in U.
  destruct U as (_ & _ & _ & _ & _ & _ & _ & _ & UE & UC).
  split; [|split; [|split; [exact EV|split]]].
  - intros RE. pose proof (updatePhysics_hud gs now g RE) as HH.
    split; [exact HH|]. split.
    + rewrite applyEvents_score, HH. reflexivity.
    + destruct (UC RE) as (_ & CF & _). exact CF.
  - intros RE. destruct (UE RE) as (E & _). exact E.
  - apply (sameButScore_fields _ _ EP).
  - intros p dec. unfold visitDecoration.
    destruct (Decoration.type dec); try (left; reflexivity).
    destruct (_ && _); [right | left]; reflexivity.
Qed.

Lemma reported_score_is_distance_witness :
  let r := @updatePhysics coarseMath PLAYING 16 overRock in
  hudScores (snd r) = [11%Z]
  /\ App.score (applyEvents hoverApp (snd r)) = 11%Z.
Proof.
  cbv zeta.
  destruct (@reported_score_is_distance coarseMath PLAYING 16 overRock 0
              hoverApp) as (H & _).
  destruct H as (H1 & H2 & _); [vm_compute; reflexivity|].
  assert (Math_floor
            (Player.x
               (Game.player (fst (@updatePhysics coarseMath PLAYING 16
                                    overRock))) / 10) = 11%Z) as E
      by (vm_compute; reflexivity).
  rewrite E in H1, H2. split; assumption.
Defined.

(** ** What the three collision loops do to their lists *)

Lemma feedback_counts evs :
  Forall feedback evs -> deliveries evs = 0%nat /\ collects evs = 0%nat.
Proof.
  unfold deliveries, collects.
  induction 1 as [|e evs He _ [IH1 IH2]]; [split; reflexivity|].
  destruct e; try contradiction; cbn [List.filter]; split; assumption.
Qed.

Lemma deliveries_app a b : deliveries (a ++ b) = (deliveries a + deliveries b)%nat.
Proof. unfold deliveries. rewrite List.filter_app. apply List.length_app. Qed.

Lemma collects_app a b : collects (a ++ b) = (collects a + collects b)%nat.
Proof. unfold collects. rewrite List.filter_app. apply List.length_app. Qed.

Lemma landing_feedback ga p sh : Forall feedback (snd (landing ga p sh)).
Proof.
  unfold landing.
  destruct (_ && _); [repeat constructor|].
  destruct (0 <? _)%Z; [|constructor].
  destruct (Qltb _ PERFECT_THRESHOLD); repeat constructor.
Qed.

Lemma floorCollision_feedback `{MathLib} holding t p sh :
  match floorCollision holding t p sh with
  | Return (_, _, evs) | Continue (_, _, evs) => Forall feedback evs
  end.
Proof.
  unfold floorCollision.
  destruct (getGroundY t (Player.x p)) as [gy ga].
  destruct (_ && _); [|constructor].
  destruct (0 <? Player.flightTimer p)%Z; [constructor|].
  destruct (negb (Player.isGrounded p)); [|constructor].
  pose proof (landing_feedback ga p sh) as HL.
  destruct (landing ga p sh) as [[p' sh'] evs]. exact HL.
Qed.

(** One obstacle: its geometry stays, and its flag is set exactly when
    it was set or the player is inside its box. *)
Lemma hitObstacle_elem `{MathLib} t ps obs :
  let o' := snd (fst (hitObstacle t ps obs)) in
  Obstacle.x o' = Obstacle.x obs /\ Obstacle.y o' = Obstacle.y obs
  /\ Obstacle.type o' = Obstacle.type obs
  /\ Obstacle.width o' = Obstacle.width obs
  /\ Obstacle.height o' = Obstacle.height obs
  /\ Obstacle.passed o'
     = (Obstacle.passed obs
        || hits t (Player.x (fst ps)) (Player.y (fst ps)) obs)
  /\ Forall feedback (snd (hitObstacle t ps obs)).
Proof.
  unfold hitObstacle, hits. cbv zeta.
  destruct (Obstacle.passed obs) eqn:EP;
    destruct (Qltb (Obstacle.x obs - 7) (Player.x (fst ps)));
    destruct (Qltb (Player.x (fst ps)) (Obstacle.x obs + 7));
    destruct (Qltb _ (Player.y (fst ps)));
    unfold Obstacle.set_passed;
    cbn [fst snd andb orb Obstacle.x Obstacle.y Obstacle.type
         Obstacle.width Obstacle.height Obstacle.passed];
    rewrite ?EP; repeat split; try reflexivity; repeat constructor.
Qed.

(** One decoration: delivered exactly when it was, or it is a cabin the
    player is at while the snapshot of the inventory is positive; one
    deliver event for each new delivery. *)
Lemma visitDecoration_elem p dec :
  let d' := snd (fst (visitDecoration p dec)) in
  Decoration.x d' = Decoration.x dec /\ Decoration.y d' = Decoration.y dec
  /\ Decoration.type d' = Decoration.type dec
  /\ Decoration.delivered d'
     = (Decoration.delivered dec
        || (atCabin (Player.x p) (Player.y p) dec
            && (0 <? Player.fishInventory p)%Z))
  /\ deliveries (snd (visitDecoration p dec))
     = (if newlyDelivered (dec, d') then 1 else 0)%nat
  /\ collects (snd (visitDecoration p dec)) = 0%nat.
Proof.
  unfold visitDecoration, atCabin, newlyDelivered, Math_abs. cbv zeta.
  destruct (Decoration.type dec) eqn:ET;
    destruct (Decoration.delivered dec) eqn:ED;
    destruct (Qltb (Decoration.x dec - 100) (Player.x p));
    destruct (Qltb (Player.x p) (Decoration.x dec + 100));
    destruct (Qltb (Qabs (Player.y p - Decoration.y dec)) 100);
    destruct (0 <? Player.fishInventory p)%Z;
    unfold Decoration.set_delivered;
    cbn [fst snd andb orb negb Decoration.x Decoration.y Decoration.type
         Decoration.delivered];
    rewrite ?ET, ?ED; repeat split; reflexivity.
Qed.

(** One power-up: collected exactly when it was or the player is within
    reach; one collect event for each fish newly collected. *)
Lemma touchPowerUp_elem p pu :
  let u' := snd (fst (touchPowerUp p pu)) in
  PowerUp.x u' = PowerUp.x pu /\ PowerUp.y u' = PowerUp.y pu
  /\ PowerUp.type u' = PowerUp.type pu
  /\ PowerUp.collected u'
     = (PowerUp.collected pu || inReach (Player.x p) (Player.y p) pu)
  /\ collects (snd (touchPowerUp p pu))
     = (if newlyCollectedFish (pu, u') then 1 else 0)%nat
  /\ deliveries (snd (touchPowerUp p pu)) = 0%nat.
Proof.
  unfold touchPowerUp, inReach, newlyCollectedFish. cbv zeta.
  destruct (PowerUp.type pu) eqn:ET;
    destruct (PowerUp.collected pu) eqn:EC;
    destruct (Qltb _ (50 * 50));
    unfold PowerUp.set_collected;
    cbn [fst snd andb orb negb PowerUp.x PowerUp.y PowerUp.type
         PowerUp.collected];
    rewrite ?ET, ?EC; repeat split; reflexivity.
Qed.

Lemma filter_none {A : Type} (l : list A) :
  List.length (List.filter (fun _ => false) l) = 0%nat.
Proof. induction l; [reflexivity | assumption]. Qed.

Lemma Forall2_same {A : Type} (R : A -> A -> Prop) (l : list A) :
  (forall a, R a a) -> Forall2 R l l.
Proof. intros HR. induction l; constructor; auto. Qed.

Lemma deathCheck_events gs av p :
  deliveries (snd (deathCheck gs av p)) = 0%nat
  /\ collects (snd (deathCheck gs av p)) = 0%nat
  /\ Player.y (fst (deathCheck gs av p)) = Player.y p.
Proof.
  unfold deathCheck.
  destruct (Qltb _ av); [destruct (GameState_eqb gs PLAYING)|];
    repeat split; reflexivity.
Qed.

Lemma obstacleLoop_elems `{MathLib} t X Y l : forall ps,
  Player.x (fst ps) = X -> Player.y (fst ps) = Y ->
  Forall2
    (fun o o' =>
       (Obstacle.x o' = Obstacle.x o /\ Obstacle.y o' = Obstacle.y o
        /\ Obstacle.type o' = Obstacle.type o
        /\ Obstacle.width o' = Obstacle.width o
        /\ Obstacle.height o' = Obstacle.height o)
       /\ Obstacle.passed o' = (Obstacle.passed o || hits t X Y o))
    l (snd (fst (forEach (hitObstacle t) ps l)))
  /\ Forall feedback (snd (forEach (hitObstacle t) ps l)).
Proof.
  induction l as [|a l IH]; intros ps HX HY.
  - split; constructor.
  - rewrite forEach_cons. cbn [fst snd].
    destruct (hitObstacle_state t ps a) as (SX & SY & _).
    destruct (hitObstacle_elem t ps a)
      as (A1 & A2 & A3 & A4 & A5 & A6 & A7).
    rewrite HX, HY in A6.
    destruct (IH (fst (fst (hitObstacle t ps a)))) as [I1 I2];
      [congruence | congruence |].
    split.
    + constructor; [|exact I1]. repeat split; assumption.
    + apply Forall_app. split; assumption.
Qed.

Lemma decorationLoop_elems X Y F l : forall p,
  Player.x p = X -> Player.y p = Y -> Player.fishInventory p = F ->
  Forall2
    (fun d d' =>
       (Decoration.x d' = Decoration.x d /\ Decoration.y d' = Decoration.y d
        /\ Decoration.type d' = Decoration.type d)
       /\ Decoration.delivered d'
          = (Decoration.delivered d || (atCabin X Y d && (0 <? F)%Z)))
    l (snd (fst (forEach visitDecoration p l)))
  /\ deliveries (snd (forEach visitDecoration p l))
     = List.length
         (List.filter newlyDelivered
            (combine l (snd (fst (forEach visitDecoration p l)))))
  /\ collects (snd (forEach visitDecoration p l)) = 0%nat.
Proof.
  induction l as [|a l IH]; intros p HX HY HF.
  - split; [constructor | split; reflexivity].
  - rewrite forEach_cons. cbn [fst snd].
    destruct (visitDecoration_state p a) as (SX & SY & SF & _).
    destruct (visitDecoration_elem p a) as (A1 & A2 & A3 & A4 & A5 & A6).
    cbv zeta in A5.
    rewrite HX, HY, HF in A4.
    destruct (IH (fst (fst (visitDecoration p a)))) as (I1 & I2 & I3);
      [congruence | congruence | congruence |].
    split; [|split].
    + constructor; [|exact I1]. repeat split; assumption.
    + rewrite deliveries_app, A5, I2. cbn [combine List.filter].
      destruct (newlyDelivered _); reflexivity.
    + rewrite collects_app, A6, I3. reflexivity.
Qed.

Lemma powerUpLoop_elems X Y l : forall p,
  Player.x p = X -> Player.y p = Y ->
  Forall2
    (fun u u' =>
       (PowerUp.x u' = PowerUp.x u /\ PowerUp.y u' = PowerUp.y u
        /\ PowerUp.type u' = PowerUp.type u)
       /\ PowerUp.collected u' = (PowerUp.collected u || inReach X Y u))
    l (snd (fst (forEach touchPowerUp p l)))
  /\ collects (snd (forEach touchPowerUp p l))
     = List.length
         (List.filter newlyCollectedFish
            (combine l (snd (fst (forEach touchPowerUp p l)))))
  /\ deliveries (snd (forEach touchPowerUp p l)) = 0%nat.
Proof.
  induction l as [|a l IH]; intros p HX HY.
  - split; [constructor | split; reflexivity].
  - rewrite forEach_cons. cbn [fst snd].
    destruct (touchPowerUp_state p a) as (SX & SY & _).
    destruct (touchPowerUp_elem p a) as (A1 & A2 & A3 & A4 & A5 & A6).
    cbv zeta in A5.
    rewrite HX, HY in A4.
    destruct (IH (fst (fst (touchPowerUp p a)))) as (I1 & I2 & I3);
      [congruence | congruence |].
    split; [|split].
    + constructor; [|exact I1]. repeat split; assumption.
    + rewrite collects_app, A5, I2. cbn [combine List.filter].
      destruct (newlyCollectedFish _); reflexivity.
    + rewrite deliveries_app, A6, I3. reflexivity.
Qed.

Lemma hud_counts av p :
  deliveries (hud av p) = 0%nat /\ collects (hud av p) = 0%nat.
Proof. split; reflexivity. Qed.

(** The lists after a tick that runs to the end of updatePhysics, in
    terms of the player's final position and of the state before. *)
Lemma updatePhysics_loops `{MathLib} gs now g :
  returnsEarly g = false ->
  let g' := fst (updatePhysics gs now g) in
  let evs := snd (updatePhysics gs now g) in
  let x' := Player.x (Game.player g') in
  let y' := Player.y (Game.player g') in
  Forall2
    (fun o o' =>
       (Obstacle.x o' = Obstacle.x o /\ Obstacle.y o' = Obstacle.y o
        /\ Obstacle.type o' = Obstacle.type o
        /\ Obstacle.width o' = Obstacle.width o
        /\ Obstacle.height o' = Obstacle.height o)
       /\ Obstacle.passed o'
          = (Obstacle.passed o
             || (vulnerable (integrate g) && hits (Game.terrain g) x' y' o)))
    (Game.obstacles g) (Game.obstacles g')
  /\ Forall2
       (fun d d' =>
          (Decoration.x d' = Decoration.x d /\ Decoration.y d' = Decoration.y d
           /\ Decoration.type d' = Decoration.type d)
          /\ Decoration.delivered d'
             = (Decoration.delivered d
                || (atCabin x' y' d && (0 <? Game.fishInventoryRef g)%Z)))
       (Game.decorations g) (Game.decorations g')
  /\ Forall2
       (fun u u' =>
          (PowerUp.x u' = PowerUp.x u /\ PowerUp.y u' = PowerUp.y u
           /\ PowerUp.type u' = PowerUp.type u)
          /\ PowerUp.collected u'
             = (PowerUp.collected u || inReach x' y' u))
       (Game.powerUps g) (Game.powerUps g')
  /\ deliveries evs
     = List.length
         (List.filter newlyDelivered
            (combine (Game.decorations g) (Game.decorations g')))
  /\ collects evs
     = List.length
         (List.filter newlyCollectedFish
            (combine (Game.powerUps g) (Game.powerUps g'))).
Proof.
  intros RE g' evs x' y'. subst g' evs x' y'.
  destruct (integrate_fields g) as (_ & IF & _).
  pose proof (floorCollision_state (Game.isHolding g) (Game.terrain g)
                (integrate g) (Game.shake g)) as HF.
  pose proof (floorCollision_feedback (Game.isHolding g) (Game.terrain g)
                (integrate g) (Game.shake g)) as HB.
  unfold returnsEarly in RE.
  destruct (floorCollision _ _ _ _) as [?|[[p1 sh1] ev1]] eqn:EF;
    [discriminate|]. clear RE.
  destruct (updatePhysics_continue gs now g _ _ _ EF)
    as (ps & obs & ev2 & p3 & decs & ev3 & p4 & pus & ev4
        & E2 & E3 & E4 & C2 & C3 & C4 & _ & _ & _ & EU).
  cbv zeta in EU. rewrite EU. clear EU EF.
  destruct HF as (_ & FF & _ & _ & FL & FN & _).
  unfold vulnerable. rewrite <- FL, <- FN. rewrite <- FF in IF.
  set (p0 := integrate g) in *. clearbody p0.
  set (av := advanceAvalanche _ p4 _). clearbody av.
  destruct (deathCheck_fields gs av p4) as (DX & _).
  destruct (deathCheck_events gs av p4) as (DD & DC & DY).
  cbn [fst snd Game.player Game.obstacles Game.decorations Game.powerUps].
  rewrite DX, DY.
  pose proof (collided_trans _ _ _ C2 C3) as C23.
  pose proof (collided_trans _ _ _ C23 C4) as C14.
  destruct C14 as (X14 & Y14 & _). rewrite X14, Y14.
  destruct C2 as (X12 & Y12 & F12 & _).
  destruct C23 as (X13 & Y13 & F13 & _).
  assert (HO : Forall2
            (fun o o' =>
               (Obstacle.x o' = Obstacle.x o /\ Obstacle.y o' = Obstacle.y o
                /\ Obstacle.type o' = Obstacle.type o
                /\ Obstacle.width o' = Obstacle.width o
                /\ Obstacle.height o' = Obstacle.height o)
               /\ Obstacle.passed o'
                  = (Obstacle.passed o
                     || ((Player.invincibleTimer p1 <=? 0)%Z
                         && (Player.flightTimer p1 <=? 0)%Z
                         && hits (Game.terrain g) (Player.x p1)
                              (Player.y p1) o)))
            (Game.obstacles g) obs
          /\ Forall feedback ev2).
  { destruct (_ && _).
    - pose proof (obstacleLoop_elems (Game.terrain g) (Player.x p1)
                    (Player.y p1) (Game.obstacles g) (p1, sh1)
                    eq_refl eq_refl) as HE.
      rewrite E2 in HE. exact HE.
    - injection E2 as <- <- <-. split; [|constructor].
      apply Forall2_same. intros o. cbn [andb].
      rewrite orb_false_r. repeat split; reflexivity. }
  destruct HO as [HO HB2].
  pose proof (decorationLoop_elems (Player.x p1) (Player.y p1)
                (Game.fishInventoryRef g) (Game.decorations g) (fst ps)
                X12 Y12 (eq_trans F12 IF)) as HD.
  rewrite E3 in HD. cbn [fst snd] in HD. destruct HD as (HD & HD3 & HC3).
  pose proof (powerUpLoop_elems (Player.x p1) (Player.y p1)
                (Game.powerUps g) p3 X13 Y13) as HP.
  rewrite E4 in HP. cbn [fst snd] in HP. destruct HP as (HP & HC4 & HD4).
  destruct (feedback_counts _ HB) as [B1 B1'].
  destruct (feedback_counts _ HB2) as [B2 B2'].
  split; [exact HO|]. split; [exact HD|]. split; [exact HP|].
  rewrite !deliveries_app, !collects_app.
  destruct (hud_counts av (fst (deathCheck gs av p4))) as [HU HU'].
  rewrite B1, B1', B2, B2', HD3, HC3, HC4, HD4, DD, DC, HU, HU'.
  split; lia.
Qed.

(** A tick that leaves through the flight branch touches none of the
    three lists and emits nothing. *)
Lemma updatePhysics_hover `{MathLib} gs now g :
  returnsEarly g = true ->
  snd (updatePhysics gs now g) = []
  /\ Game.obstacles (fst (updatePhysics gs now g)) = Game.obstacles g
  /\ Game.decorations (fst (updatePhysics gs now g)) = Game.decorations g
  /\ Game.powerUps (fst (updatePhysics gs now g)) = Game.powerUps g
  /\ (0 < Player.flightTimer (integrate g))%Z.
Proof.
  intros RE.
  pose proof (updatePhysics_summary gs now g) as U. cbv zeta in U.
  destruct U as (_ & _ & _ & _ & _ & _ & _ & _ & UE & _).
  destruct (UE RE) as (E1 & _ & _ & E2 & E3 & E4 & E5).
  repeat split; assumption.
Qed.

(** ** Obstacles *)

(** C9, as the code has it. The flag [passed] of an obstacle is set by a
    tick exactly when the player, neither invincible nor in flight, is
    inside the obstacle's box (a hit); an obstacle the player clears
    keeps the flag it had. Once set the flag stays set, and a tick
    changes nothing else of an obstacle. updateTerrain takes an obstacle
    off the list only at its front, one per call, and only when it lies
    more than GAME_WIDTH behind the player. *)
Theorem passed_only_on_hit `{MathLib} (gs : GameState) (now : Z)
    (g : Game.t) (r : TerrainRand) (playerX : Q) :
  let g' := fst (updatePhysics gs now g) in
  let x' := Player.x (Game.player g') in
  let y' := Player.y (Game.player g') in
  Forall2
    (fun o o' =>
       (Obstacle.x o' = Obstacle.x o /\ Obstacle.y o' = Obstacle.y o
        /\ Obstacle.type o' = Obstacle.type o
        /\ Obstacle.width o' = Obstacle.width o
        /\ Obstacle.height o' = Obstacle.height o)
       /\ (Obstacle.passed o = true -> Obstacle.passed o' = true)
       /\ (Obstacle.passed o' = true ->
           Obstacle.passed o = true
           \/ (vulnerable (integrate g) = true
               /\ hits (Game.terrain g) x' y' o = true))
       /\ (vulnerable (integrate g) = true ->
           hits (Game.terrain g) x' y' o = true ->
           Obstacle.passed o' = true))
    (Game.obstacles g) (Game.obstacles g')
  /\ match updateTerrain r playerX g with
     | None => Game.terrain g = []
     | Some g1 =>
         exists spawned,
           (List.length spawned <= 1)%nat
           /\ Forall (fun o => Obstacle.passed o = false) spawned
           /\ (Game.obstacles g1 = Game.obstacles g ++ spawned
               \/ exists o,
                    Game.obstacles g ++ spawned = o :: Game.obstacles g1
                    /\ Obstacle.x o < playerX - GAME_WIDTH)
     end.
Proof.
  intros g' x' y'. subst g' x' y'. split.
  - destruct (returnsEarly g) eqn:RE.
    + destruct (updatePhysics_hover gs now g RE) as (_ & -> & _ & _ & FL).
      apply Forall2_same. intros o.
      assert (V : vulnerable (integrate g) = false).
      { unfold vulnerable. apply andb_false_iff. right.
        apply Z.leb_gt. exact FL. }
      rewrite V. repeat split; auto; discriminate.
    + destruct (updatePhysics_loops gs now g RE) as (HO & _).
      cbv zeta in HO.
      eapply Forall2_impl; [exact HO|].
      intros o o' (G & P). split; [exact G|]. rewrite P.
      destruct (Obstacle.passed o); cbn [orb];
        destruct (vulnerable (integrate g)); cbn [andb];
        destruct (hits _ _ _ o); repeat split; auto; discriminate.
  - unfold updateTerrain.
    destruct (last (Game.terrain g)) as [lastPoint|] eqn:EL.
    2: { apply last_None. exact EL. }
    destruct (Qltb (Point.x lastPoint) (playerX + GAME_WIDTH * 2));
      cbn [Game.obstacles].
    + destruct (Qltb (r_rock r) 0.01).
      * match goal with
        | |- context [Game.obstacles g ++ [?o]] => set (rock := o)
        end.
        exists [rock]. split; [cbn; lia|].
        split; [repeat constructor|].
        destruct (shiftBehind_cases Obstacle.x (playerX - GAME_WIDTH)
                    (Game.obstacles g ++ [rock])) as [E|(o & E & Hx)].
        -- left. exact E.
        -- right. exists o. split; assumption.
      * exists []. split; [cbn; lia|]. split; [constructor|].
        rewrite app_nil_r.
        destruct (shiftBehind_cases Obstacle.x (playerX - GAME_WIDTH)
                    (Game.obstacles g)) as [E|(o & E & Hx)].
        -- left. exact E.
        -- right. exists o. split; assumption.
    + exists []. split; [cbn; lia|]. split; [constructor|].
      rewrite app_nil_r.
      destruct (shiftBehind_cases Obstacle.x (playerX - GAME_WIDTH)
                  (Game.obstacles g)) as [E|(o & E & Hx)].
      * left. exact E.
      * right. exists o. split; assumption.
Qed.

(** The tick of [overRock] and the one after it do not depend on the sine
    and the arc tangent: the player stays in the air. *)
Lemma overRock_two_ticks (M : MathLib) :
  let g1 := fst (updatePhysics PLAYING 16 overRock) in
  let g2 := fst (updatePhysics PLAYING 32 g1) in
  map Obstacle.passed (Game.obstacles g2) = [false]
  /\ Qred (Player.x (Game.player g1)) = 599 # 5
  /\ Qred (Player.x (Game.player g2)) = 1397 # 10.
Proof. vm_compute. repeat split; reflexivity. Qed.

(** C9 as worded fails: the player jumps a rock at x = 120 (at x = 119.8
    the player is above the box, at x = 139.7 beyond it for good) and the
    rock's flag is still off. *)
Lemma cleared_rock_not_passed :
  let g2 :=
    fst (@updatePhysics coarseMath PLAYING 32
           (fst (@updatePhysics coarseMath PLAYING 16 overRock))) in
  ~ (forall o, In o (Game.obstacles g2) ->
       Obstacle.x o + 7 <= Player.x (Game.player g2) ->
       Obstacle.passed o = true).
Proof.
  intros g2 Hclaim.
  assert (EO : Game.obstacles g2
               = [Obstacle.mk 120 245 rock_small 40 30 false])
    by (vm_compute; reflexivity).
  assert (HX : 120 + 7 <= Player.x (Game.player g2))
    by (vm_compute; discriminate).
  specialize (Hclaim (Obstacle.mk 120 245 rock_small 40 30 false)).
  rewrite EO in Hclaim.
  specialize (Hclaim (or_introl eq_refl) HX). discriminate Hclaim.
Qed.

Lemma passed_only_on_hit_witness :
  Forall2 (fun o o' => Obstacle.passed o = true -> Obstacle.passed o' = true)
    (Game.obstacles overRock)
    (Game.obstacles (fst (@updatePhysics coarseMath PLAYING 16 overRock))).
Proof.
  destruct (@passed_only_on_hit coarseMath PLAYING 16 overRock calmRand 100)
    as [H _].
  cbv zeta in H.
  eapply Forall2_impl; [exact H|].
  intros o o' (_ & E & _). exact E.
Defined.

(** ** Deliveries and pickups *)

(** C5, as the code has it. A tick reads the inventory once, at its
    start, from the ref of the canvas, and judges every cabin of the tick
    against that snapshot: in a tick that reaches the cabin loop an
    undelivered cabin the player is at is delivered to exactly when the
    snapshot is positive, however many cabins were served before it in
    the same tick; a tick that leaves through the return of the flight
    branch, before the loop, delivers to no cabin. The number of deliver
    events of a tick is the number of cabins it delivers to. The tick
    does not write the ref; each deliver event takes one off App's
    inventory, not below 0, once the tick has run. *)
Theorem inventory_snapshot_per_tick `{MathLib} (gs : GameState) (now : Z)
    (g : Game.t) (a : App.t) :
  let g' := fst (updatePhysics gs now g) in
  let evs := snd (updatePhysics gs now g) in
  let x' := Player.x (Game.player g') in
  let y' := Player.y (Game.player g') in
  Player.fishInventory (Game.player g') = Game.fishInventoryRef g
  /\ Game.fishInventoryRef g' = Game.fishInventoryRef g
  /\ Forall2
       (fun d d' =>
          Decoration.delivered d'
          = (Decoration.delivered d
             || (negb (returnsEarly g) && atCabin x' y' d
                 && (0 <? Game.fishInventoryRef g)%Z)))
       (Game.decorations g) (Game.decorations g')
  /\ deliveries evs
     = List.length
         (List.filter newlyDelivered
            (combine (Game.decorations g) (Game.decorations g')))
  /\ App.fishInventory (applyEvents a evs)
     = Nat.iter (deliveries evs) decrement (App.fishInventory a).
Proof.
  intros g' evs x' y'. subst g' evs x' y'.
  pose proof (updatePhysics_summary gs now g) as U. cbv zeta in U.
  destruct U as (_ & _ & _ & UR & _ & UF & _).
  split; [exact UF|]. split; [exact UR|].
  split; [|split; [|apply applyEvents_inventory]].
  - destruct (returnsEarly g) eqn:RE.
    + destruct (updatePhysics_hover gs now g RE) as (_ & _ & -> & _).
      apply Forall2_same. intros d. cbn [negb andb].
      rewrite orb_false_r. reflexivity.
    + destruct (updatePhysics_loops gs now g RE) as (_ & HD & _).
      cbv zeta in HD. eapply Forall2_impl; [exact HD|].
      intros d d' (_ & E). exact E.
  - destruct (returnsEarly g) eqn:RE.
    + destruct (updatePhysics_hover gs now g RE) as (-> & _ & -> & _).
      cbn [deliveries List.filter List.length].
      induction (Game.decorations g) as [|d l IH]; [reflexivity|].
      cbn [combine List.filter]. unfold newlyDelivered at 1. cbn [fst snd].
      rewrite andb_negb_l. exact IH.
    + apply (updatePhysics_loops gs now g RE).
Qed.

(** The tick of [twoCabins] does not depend on the sine and the arc
    tangent: the player stays in the air. *)
Lemma twoCabins_tick (M : MathLib) :
  let r := updatePhysics PLAYING 16 twoCabins in
  map Decoration.delivered (Game.decorations (fst r)) = [true; true]
  /\ deliveries (snd r) = 2%nat
  /\ Game.fishInventoryRef twoCabins = 1%Z.
Proof. vm_compute. repeat split; reflexivity. Qed.

(** C5 as worded fails: with one fish in the inventory and two cabins in
    reach in the same tick, the second cabin is served as well; it does
    not see the inventory the first delivery leaves. *)
Lemma second_cabin_reads_snapshot :
  ~ (deliveries (snd (@updatePhysics coarseMath PLAYING 16 twoCabins))
     <= Z.to_nat (Game.fishInventoryRef twoCabins))%nat.
Proof.
  destruct (twoCabins_tick coarseMath) as (_ & HD & HI).
  cbv zeta in HD. rewrite HD, HI. cbn. lia.
Qed.

Lemma inventory_snapshot_per_tick_witness :
  App.fishInventory
    (applyEvents fullBackpack
       (snd (@updatePhysics coarseMath PLAYING 16 twoCabins))) = 1%Z.
Proof.
  destruct (@inventory_snapshot_per_tick coarseMath PLAYING 16 twoCabins
              fullBackpack) as (_ & _ & _ & _ & H).
  rewrite H.
  destruct (twoCabins_tick coarseMath) as (_ & HD & _).
  cbv zeta in HD. rewrite HD. reflexivity.
Defined.

Lemma findIndex_Some {A : Type} (f : A -> bool) (l : list A) (i : nat) :
  findIndex f l = Some i <->
  exists a, l !! i = Some a /\ f a = true
            /\ forall j b, (j < i)%nat -> l !! j = Some b -> f b = false.
Proof.
  revert i. induction l as [|x l IH]; intros i; simpl.
  - split; [discriminate | intros (a & Ha & _); discriminate].
  - destruct (f x) eqn:Ex.
    + split.
      * intros [= <-]. exists x. repeat split; [exact Ex|]. intros; lia.
      * intros (a & Ha & Hfa & Hlt). destruct i as [|i]; [reflexivity|].
        specialize (Hlt 0%nat x (Nat.lt_0_succ i) eq_refl). congruence.
    + destruct (findIndex f l) as [k|] eqn:Ek; simpl.
      * split.
        -- intros [= <-]. destruct (proj1 (IH k) eq_refl) as (a & Ha & Hfa & Hlt).
           exists a. repeat split; [exact Ha | exact Hfa |].
           intros [|j] b Hj Hb; [simpl in Hb; congruence|].
           apply (Hlt j b); [lia | exact Hb].
        -- intros (a & Ha & Hfa & Hlt). destruct i as [|i].
           ++ simpl in Ha. congruence.
           ++ f_equal. assert (E : Some k = Some i); [|congruence].
              apply IH. exists a. repeat split; [exact Ha | exact Hfa |].
              intros j b Hj Hb. apply (Hlt (S j) b); [lia | exact Hb].
      * split; [discriminate|].
        intros (a & Ha & Hfa & Hlt). destruct i as [|i].
        -- simpl in Ha. congruence.
        -- assert (E : None = Some i); [|discriminate].
           apply IH. exists a. repeat split; [exact Ha | exact Hfa |].
           intros j b Hj Hb. apply (Hlt (S j) b); [lia | exact Hb].
Qed.

Lemma findIndex_None {A : Type} (f : A -> bool) (l : list A) :
  findIndex f l = None <-> forall i a, l !! i = Some a -> f a = false.
Proof.
  induction l as [|x l IH]; simpl.
  - split; [intros _ i a H; destruct i; discriminate | reflexivity].
  - destruct (f x) eqn:Ex.
    + split; [discriminate|]. intros H.
      specialize (H 0%nat x eq_refl). congruence.
    + destruct (findIndex f l) as [k|]; simpl.
      * split; [discriminate|]. intros H.
        assert (E : Some k = None); [|discriminate].
        apply IH. intros i a Ha. apply (H (S i) a Ha).
      * split; [|reflexivity]. intros _ [|i] a Ha.
        -- simpl in Ha. congruence.
        -- apply (proj1 IH eq_refl i a Ha).
Qed.

(** C6, as the code has it. In a tick that reaches the pick-up loop, a
    power-up the player is within 50 of is marked collected, and each
    fish so collected emits one collect event. The event puts a raw fish
    on the first grill slot that is not cooking and is dropped when all
    slots are cooking; it neither reads nor changes the inventory. *)
Theorem fish_pickup `{MathLib} (gs : GameState) (now : Z) (g : Game.t)
    (a : App.t) :
  let g' := fst (updatePhysics gs now g) in
  let evs := snd (updatePhysics gs now g) in
  let x' := Player.x (Game.player g') in
  let y' := Player.y (Game.player g') in
  (returnsEarly g = false ->
   Forall2
     (fun u u' =>
        (PowerUp.x u' = PowerUp.x u /\ PowerUp.y u' = PowerUp.y u
         /\ PowerUp.type u' = PowerUp.type u)
        /\ PowerUp.collected u'
           = (PowerUp.collected u || inReach x' y' u))
     (Game.powerUps g) (Game.powerUps g')
   /\ collects evs
      = List.length
          (List.filter newlyCollectedFish
             (combine (Game.powerUps g) (Game.powerUps g'))))
  /\ App.fishInventory (handleCollectFish a) = App.fishInventory a
  /\ (forall v,
        handleCollectFish (App.set_fishInventory v a)
        = App.set_fishInventory v (handleCollectFish a))
  /\ (forall i slot,
        App.grillSlots a !! i = Some slot ->
        GrillSlot.isCooking slot = false ->
        (forall j b, (j < i)%nat -> App.grillSlots a !! j = Some b ->
                     GrillSlot.isCooking b = true) ->
        App.grillSlots (handleCollectFish a)
        = <[i := GrillSlot.mk (GrillSlot.id slot) 0 raw true]>
            (App.grillSlots a))
  /\ ((forall i slot, App.grillSlots a !! i = Some slot ->
                      GrillSlot.isCooking slot = true) ->
      handleCollectFish a = a).
Proof.
  intros g' evs x' y'. subst g' evs x' y'.
  split; [|split; [|split; [|split]]].
  - intros RE.
    destruct (updatePhysics_loops gs now g RE) as (_ & _ & HP & _ & HC).
    split; [exact HP | exact HC].
  - apply handleCollectFish_fields.
  - intros v. unfold handleCollectFish.
    cbn [App.grillSlots App.set_fishInventory].
    destruct (findIndex _ _) as [idx|]; [|reflexivity].
    destruct (App.grillSlots a !! idx); reflexivity.
  - intros i slot Hi Hc Hbefore. unfold handleCollectFish.
    assert (E : findIndex (fun s => negb (GrillSlot.isCooking s))
                  (App.grillSlots a) = Some i).
    { apply findIndex_Some. exists slot.
      repeat split; [exact Hi | rewrite Hc; reflexivity |].
      intros j b Hj Hb. rewrite (Hbefore j b Hj Hb). reflexivity. }
    rewrite E, Hi. reflexivity.
  - intros Hall. unfold handleCollectFish.
    assert (E : findIndex (fun s => negb (GrillSlot.isCooking s))
                  (App.grillSlots a) = None).
    { apply findIndex_None. intros i s Hs. rewrite (Hall i s Hs).
      reflexivity. }
    rewrite E. reflexivity.
Qed.

Lemma fish_pickup_witness :
  App.grillSlots (handleCollectFish fullBackpack)
  = [GrillSlot.mk "1" 0 raw true; emptySlot "2"; emptySlot "3"].
Proof.
  destruct (@fish_pickup coarseMath PLAYING 16 overRock fullBackpack)
    as (_ & _ & _ & H & _).
  rewrite (H 0%nat (emptySlot "1") eq_refl eq_refl).
  - reflexivity.
  - intros j b Hj. lia.
Defined.

(** C6 as worded fails: with the inventory at its capacity of 3 the
    collect event is applied all the same, the first free slot starts
    cooking. *)
Lemma collect_applied_with_full_inventory :
  App.fishInventory fullBackpack = 3%Z
  /\ ~ (handleCollectFish fullBackpack = fullBackpack).
Proof.
  split; [reflexivity|]. intros E.
  apply (f_equal (fun a => option_map GrillSlot.isCooking
                             (App.grillSlots a !! 0%nat))) in E.
  vm_compute in E. discriminate E.
Qed.

(** ** Death *)

Lemma iter_decrement_zero n : Nat.iter n decrement 0%Z = 0%Z.
Proof.
  induction n as [|n IH]; [reflexivity|].
  rewrite Nat.iter_succ, IH. reflexivity.
Qed.

Lemma cooking_fields `{MathLib} n s :
  let s' := Nat.iter n (step CookTimer) s in
  Sys.game s' = Sys.game s
  /\ Sys.overLog s' = Sys.overLog s
  /\ App.gameState (Sys.app s') = App.gameState (Sys.app s)
  /\ App.fishInventory (Sys.app s') = App.fishInventory (Sys.app s)
  /\ (invariant s -> invariant s').
Proof.
  induction n as [|n IH].
  { split; [|split; [|split; [|split]]]; try reflexivity.
    intros HI. exact HI. }
  cbv zeta in *. rewrite Nat.iter_succ.
  destruct IH as (G & L & S & F & I).
  set (s1 := Nat.iter n (step CookTimer) s) in *. clearbody s1.
  split; [|split; [|split; [|split]]].
  - rewrite <- G. unfold step. destruct (playing s1); reflexivity.
  - rewrite <- L. unfold step. destruct (playing s1); reflexivity.
  - rewrite <- S. unfold step. destruct (playing s1); reflexivity.
  - rewrite <- F. unfold step. destruct (playing s1); reflexivity.
  - intros HI. apply invariant_step. apply I. exact HI.
Qed.

(** One frame of a running, idle session: the session stays idle, and
    while it keeps running the lead of the player grows by at most 21.1,
    and shrinks by at least 1.65 once 400 seconds have elapsed. *)
Lemma idle_frame `{MathLib} now r t0 s :
  idling t0 s -> playing s = true -> (t0 <= now)%Z ->
  let s' := step (Frame now r) s in
  idling t0 s'
  /\ (playing s' = true ->
      lead s' <= lead s + 21.1
      /\ ((t0 + 400000 <= now)%Z -> lead s' <= lead s - 1.65)).
Proof.
  intros (HI & HF0 & HL0 & HT & HM) Hp Hclock.
  pose proof (invariant_frame now r s HI) as HI'.
  pose proof HI as HIc.
  destruct HIc as ((V0 & V1) & AV & INV & REF & PINV & LEN & ST).
  apply playing_iff in Hp as Hgs. rewrite Hgs in ST.
  destruct ST as (TNE & AV30 & LOG & DEAD).
  cbv zeta. revert HI'. unfold lead.
  destruct (step_frame now r s Hp TNE)
    as (g1 & T1 & P1 & A1 & S1 & H1 & R1 & _ & ->).
  intros HI'.
  pose proof (updatePhysics_summary PLAYING now g1) as U.
  cbv zeta in U.
  destruct U as (_ & US & _ & _ & UX & _ & _ & UL & UE & UC).
  destruct (integrate_vx g1) as [_ IV1]. cbv zeta in IV1.
  destruct (integrate_fields g1) as (_ & _ & _ & _ & IL & _).
  cbv zeta in IL.
  rewrite P1 in IV1, UX, IL. specialize (IV1 V1).
  rewrite HL0 in IL. cbn in IL.
  rewrite R1, REF, HF0, IL in UL.
  assert (UL' : Player.flightTimer
                  (Game.player (fst (updatePhysics PLAYING now g1))) = 0%Z).
  { destruct UL as [UL | [_ UL]]; [exact UL | lia]. }
  clear UL.
  assert (RE : returnsEarly g1 = false).
  { destruct (returnsEarly g1) eqn:RE; [|reflexivity].
    destruct (UE eq_refl) as (_ & _ & _ & _ & _ & _ & FL). lia. }
  destruct (UC RE) as (CA & CF & _ & _). clear UE UC.
  rewrite S1, HT in *.
  assert (HE : 0 <= elapsedSeconds now t0)
    by (apply elapsedSeconds_nonneg; exact Hclock).
  destruct (avTargetSpeed_lower (elapsedSeconds now t0)
              (Player.invincibleTimer
                 (Game.player (fst (updatePhysics PLAYING now g1)))) HE)
    as [Hsp Hsp400].
  destruct (advanceAvalanche_cases (elapsedSeconds now t0)
              (Game.player (fst (updatePhysics PLAYING now g1)))
              (Game.avalancheX g1)) as [_ AC].
  cbv zeta in AC. rewrite <- CA in AC.
  set (sp := avTargetSpeed _ _) in *.
  assert (H400 : (t0 + 400000 <= now)%Z -> 400 <= elapsedSeconds now t0).
  { intros Hn. unfold elapsedSeconds.
    apply Qle_shift_div_l; [reflexivity|].
    change (400 * 1000) with (inject_Z 400000). rewrite <- Zle_Qle. lia. }
  clearbody sp.
  set (v0 := Player.vx (integrate g1)) in *. clearbody v0.
  unfold idling, playing.
  cbn [Sys.app Sys.game Sys.overLog].
  destruct (synced_fields
              (applyEvents (Sys.app s) (snd (updatePhysics PLAYING now g1)))
              (fst (updatePhysics PLAYING now g1)))
    as (-> & _ & -> & -> & _).
  rewrite applyEvents_inventory, applyEvents_gameState, HF0,
    iter_decrement_zero, Hgs, US, UL'.
  set (g' := fst (updatePhysics PLAYING now g1)) in *.
  set (evs := snd (updatePhysics PLAYING now g1)) in *.
  clearbody g' evs.
  split.
  - split; [exact HI'|]. split; [reflexivity|]. split; [reflexivity|].
    split; [reflexivity|].
    destruct (finalScores evs); discriminate.
  - rewrite CF.
    qcase (Qltb (Player.x (Game.player g') - 30) (Game.avalancheX g')).
    + destruct (GameState_eqb PLAYING PLAYING) eqn:EP; [|discriminate EP].
      cbn. discriminate.
    + intros _. rewrite A1 in AC.
      destruct AC as [AC | [AC _]]; rewrite AC in *; rewrite UX in *.
      * split; [lra|]. intros Hn. specialize (Hsp400 (H400 Hn)). lra.
      * exfalso. lra.
Qed.

Lemma leadBound_step n :
  (if (Z.of_nat n <? 400000)%Z then leadBound n + 21.1
   else leadBound n - 1.65) <= leadBound (S n).
Proof.
  unfold leadBound. cbv zeta.
  rewrite Nat2Z.inj_succ. unfold Z.succ. rewrite inject_Z_plus.
  change (inject_Z 1) with 1.
  assert (Hq : (Z.of_nat n + 1 <? 400000)%Z = false ->
               (Z.of_nat n <? 400000)%Z = true ->
               inject_Z (Z.of_nat n) == 399999).
  { intros H1 H2. apply Z.ltb_ge in H1. apply Z.ltb_lt in H2.
    replace (Z.of_nat n) with 399999%Z by lia. reflexivity. }
  set (k := inject_Z (Z.of_nat n)) in *.
  destruct (Z.of_nat n <? 400000)%Z eqn:E1;
    destruct (Z.of_nat n + 1 <? 400000)%Z eqn:E2.
  - lra.
  - specialize (Hq eq_refl eq_refl). lra.
  - apply Z.ltb_ge in E1. apply Z.ltb_lt in E2. lia.
  - lra.
Qed.

Lemma idle_run `{MathLib} t0 clock rnd cooks s0 :
  idling t0 s0 -> lead s0 <= 900 ->
  (forall k, (t0 + Z.of_nat k <= clock k)%Z) ->
  forall n,
    idling t0 (idleRun n clock rnd cooks s0)
    /\ (playing (idleRun n clock rnd cooks s0) = true ->
        lead (idleRun n clock rnd cooks s0) <= leadBound n).
Proof.
  intros H0 L0 Hclock. induction n as [|n [IHi IHl]].
  - split; [exact H0|]. intros _. cbn [idleRun].
    unfold leadBound. cbv zeta.
    change (Z.of_nat 0) with 0%Z. change (0 <? 400000)%Z with true.
    cbv iota. change (inject_Z 0) with 0. lra.
  - cbn [idleRun]. unfold idleFrame.
    set (s := idleRun n clock rnd cooks s0) in *. clearbody s.
    destruct (cooking_fields (cooks n) s) as (CG & CL & CS & CF & CI).
    cbv zeta in *.
    set (s1 := Nat.iter (cooks n) (step CookTimer) s) in *. clearbody s1.
    assert (Hi1 : idling t0 s1).
    { destruct IHi as (I1 & I2 & I3 & I4 & I5).
      unfold idling. rewrite CG, CS, CF. auto. }
    assert (Hl1 : lead s1 = lead s) by (unfold lead; rewrite CG; reflexivity).
    assert (Hp1 : playing s1 = playing s) by (unfold playing; rewrite CS; reflexivity).
    destruct (playing s1) eqn:Hp.
    + assert (Hc : (t0 <= clock n)%Z) by (specialize (Hclock n); lia).
      destruct (idle_frame (clock n) (rnd n) t0 s1 Hi1 Hp Hc) as [Hi' Hl'].
      cbv zeta in Hi', Hl'. split; [exact Hi'|].
      intros Hp'. destruct (Hl' Hp') as [G1 G2].
      specialize (IHl (eq_sym Hp1)). rewrite Hl1 in G1, G2.
      pose proof (leadBound_step n) as HB.
      destruct (Z.of_nat n <? 400000)%Z eqn:En.
      * lra.
      * apply Z.ltb_ge in En.
        assert (Hn : (t0 + 400000 <= clock n)%Z)
          by (specialize (Hclock n); lia).
        specialize (G2 Hn). lra.
    + unfold step. rewrite Hp. split; [exact Hi1|].
      intros Habs. rewrite Hp in Habs. discriminate Habs.
Qed.

Lemma leadBound_late n : (6000000 <= Z.of_nat n)%Z -> leadBound n < 30.
Proof.
  intros Hn. unfold leadBound. cbv zeta.
  assert (E : (Z.of_nat n <? 400000)%Z = false)
    by (apply Z.ltb_ge; lia).
  rewrite E.
  assert (Hq : inject_Z 6000000 <= inject_Z (Z.of_nat n))
    by (rewrite <- Zle_Qle; exact Hn).
  change (inject_Z 6000000) with 6000000 in Hq.
  set (k := inject_Z (Z.of_nat n)) in *. clearbody k. lra.
Qed.

Lemma started_idling `{MathLib} t0 rnd s :
  invariant s -> playing s = false ->
  idling t0 (step (Start t0 rnd) s) /\ lead (step (Start t0 rnd) s) <= 900.
Proof.
  intros HI Hp.
  pose proof (invariant_step (Start t0 rnd) s HI) as HI'.
  revert HI'. unfold step, idling, lead. rewrite Hp. intros HI'.
  split; [split; [exact HI'|]|].
  - cbn [Sys.app Sys.game startGame App.fishInventory App.gameState].
    repeat split; try reflexivity. discriminate.
  - unfold initGame, syncInventory, Game.set_fishInventoryRef, freshPlayer.
    cbn [Sys.game Game.player Game.avalancheX Player.x].
    vm_compute. discriminate.
Qed.

Lemma frame_log `{MathLib} now r s :
  invariant s ->
  Sys.overLog (step (Frame now r) s)
  = Sys.overLog s ++ finalScores (frameEvents now r s).
Proof.
  intros HI. destruct (playing s) eqn:Hp.
  - destruct HI as (_ & _ & _ & _ & _ & _ & ST).
    apply playing_iff in Hp as Hgs. rewrite Hgs in ST.
    destruct ST as (TNE & _).
    destruct (step_frame now r s Hp TNE)
      as (g1 & _ & _ & _ & _ & _ & _ & -> & ->).
    reflexivity.
  - unfold step, frameEvents. rewrite Hp. symmetry. apply app_nil_r.
Qed.

(** C2. Whenever the avalanche boundary is beyond the player's x minus
    30, the player is marked dead, the session is over and exactly one
    game-over notification has been sent in the run, carrying the floor
    of x / 10; no run ever sends a second one. An idle player (no press,
    no tap), with frames at least one millisecond apart, is dead by
    frame 6000000 at the latest, and the notification has then been sent
    exactly once. *)
Theorem game_over_once `{MathLib} :
  (forall s, reachable s ->
     (Player.x (Game.player (Sys.game s)) - 30 < Game.avalancheX (Sys.game s)
      -> Player.isDead (Game.player (Sys.game s)) = true
         /\ Sys.overLog s
            = [Math_floor (Player.x (Game.player (Sys.game s)) / 10)]
         /\ App.gameState (Sys.app s) = GAME_OVER)
     /\ (List.length (Sys.overLog s) <= 1)%nat
     /\ (forall now r,
           Sys.overLog (step (Frame now r) s)
           = Sys.overLog s ++ finalScores (frameEvents now r s)))
  /\ (forall s t0 jit clock rnd cooks n,
        reachable s -> playing s = false ->
        (forall k, (t0 + Z.of_nat k <= clock k)%Z) ->
        (6000000 <= Z.of_nat n)%Z ->
        let s' := idleRun n clock rnd cooks (step (Start t0 jit) s) in
        App.gameState (Sys.app s') = GAME_OVER
        /\ Player.isDead (Game.player (Sys.game s')) = true
        /\ Sys.overLog s'
           = [Math_floor (Player.x (Game.player (Sys.game s')) / 10)]).
Proof.
  split.
  - intros s Hreach.
    pose proof (reachable_invariant s Hreach) as HI.
    split; [|split].
    + intros Hbeyond.
      destruct HI as (_ & _ & _ & _ & _ & _ & ST).
      destruct (App.gameState (Sys.app s)).
      * destruct ST as (Hle & _). exfalso. lra.
      * destruct ST as (_ & Hle & _). exfalso. lra.
      * destruct ST as (_ & HL & HD). repeat split; assumption.
    + destruct HI as (_ & _ & _ & _ & _ & _ & ST).
      destruct (App.gameState (Sys.app s)).
      * destruct ST as (_ & -> & _). cbn. lia.
      * destruct ST as (_ & _ & -> & _). cbn. lia.
      * destruct ST as (_ & -> & _). cbn. lia.
    + intros now r. apply frame_log. exact HI.
  - intros s t0 jit clock rnd cooks n Hreach Hp Hclock Hn s'.
    pose proof (reachable_invariant s Hreach) as HI.
    destruct (started_idling t0 jit s HI Hp) as [Hid Hlead].
    destruct (idle_run t0 clock rnd cooks _ Hid Hlead Hclock n)
      as [(HI' & _ & _ & _ & HM) Hbound].
    fold s' in HI', HM, Hbound.
    pose proof (leadBound_late n Hn) as Hlate.
    destruct HI' as (_ & _ & _ & _ & _ & _ & ST).
    unfold playing, lead in Hbound.
    destruct (App.gameState (Sys.app s')).
    + contradiction.
    + destruct ST as (_ & Hle & _).
      specialize (Hbound eq_refl). exfalso. lra.
    + destruct ST as (_ & HL & HD). repeat split; assumption.
Qed.

Lemma game_over_once_witness :
  (List.length (Sys.overLog startedSys) <= 1)%nat
  /\ Sys.overLog (@step coarseMath (Frame 16 calmRand) startedSys)
     = Sys.overLog startedSys
       ++ finalScores (@frameEvents coarseMath 16 calmRand startedSys).
Proof.
  destruct (@game_over_once coarseMath) as [Hsafe _].
  destruct (Hsafe startedSys
              (@reach_step coarseMath _ _ (@reach_init coarseMath)))
    as (_ & Hlen & Hlog).
  split; [exact Hlen | apply Hlog].
Defined.

(** * Further properties of the code *)

(** ** The grill *)

Lemma inject_nat_succ k :
  inject_Z (Z.of_nat (S k)) == inject_Z (Z.of_nat k) + 1.
Proof.
  rewrite Nat2Z.inj_succ. unfold Z.succ. rewrite inject_Z_plus. reflexivity.
Qed.

Lemma inject_nat_le (k : nat) (z : Z) :
  (Z.of_nat k <= z)%Z -> inject_Z (Z.of_nat k) <= inject_Z z.
Proof. intros Hk. rewrite <- Zle_Qle. exact Hk. Qed.

Lemma inject_nat_ge (k : nat) (z : Z) :
  (z <= Z.of_nat k)%Z -> inject_Z z <= inject_Z (Z.of_nat k).
Proof. intros Hk. rewrite <- Zle_Qle. exact Hk. Qed.

Lemma cook_fresh (slot : GrillSlot.t) (k : nat) :
  let s := Nat.iter k cookSlot (freshFish slot) in
  GrillSlot.id s = GrillSlot.id slot
  /\ ((k <= 75)%nat ->
      GrillSlot.isCooking s = true /\ GrillSlot.state s = raw
      /\ GrillSlot.progress s == 0.8 * inject_Z (Z.of_nat k))
  /\ ((76 <= k <= 125)%nat ->
      GrillSlot.isCooking s = true /\ GrillSlot.state s = perfect
      /\ GrillSlot.progress s == 0.8 * inject_Z (Z.of_nat k))
  /\ ((126 <= k)%nat -> s = GrillSlot.mk (GrillSlot.id slot) 0 raw false).
Proof.
  induction k as [|k IH].
  - cbn [Nat.iter nat_rect]. unfold freshFish.
    cbn [GrillSlot.id GrillSlot.isCooking GrillSlot.state GrillSlot.progress].
    repeat split; try reflexivity; lia.
  - cbv zeta in *. rewrite Nat.iter_succ.
    destruct IH as (Hid & Hraw & Hperf & Hgone).
    set (s := Nat.iter k cookSlot (freshFish slot)) in *. clearbody s.
    pose proof (inject_nat_succ k) as Hs.
    destruct (le_lt_dec k 75) as [H75|H75].
    + destruct (Hraw H75) as (C & ST & P).
      pose proof (inject_nat_le k 75 ltac:(lia)) as Hq.
      change (inject_Z 75) with 75 in Hq.
      pose proof (inject_nat_ge k 0 ltac:(lia)) as Hq0.
      change (inject_Z 0) with 0 in Hq0.
      unfold cookSlot. rewrite C. cbn [negb]. cbv zeta.
      qcase (Qltb 100 (GrillSlot.progress s + 0.8)); [exfalso; lra|].
      destruct (Nat.eq_dec k 75) as [->|Hne].
      * change (inject_Z (Z.of_nat 75)) with 75 in *.
        qcase (Qltb 60 (GrillSlot.progress s + 0.8)); [|exfalso; lra].
        cbn [GrillSlot.id GrillSlot.isCooking GrillSlot.state
             GrillSlot.progress].
        split; [exact Hid|]. split; [intros; lia|].
        split; [|intros; lia].
        intros _. split; [reflexivity|]. split; [reflexivity|].
        rewrite Hs, P. change (inject_Z (Z.of_nat 75)) with 75. lra.
      * pose proof (inject_nat_le k 74 ltac:(lia)) as Hq74.
        change (inject_Z 74) with 74 in Hq74.
        qcase (Qltb 60 (GrillSlot.progress s + 0.8)); [exfalso; lra|].
        rewrite ST.
        cbn [GrillSlot.id GrillSlot.isCooking GrillSlot.state
             GrillSlot.progress].
        split; [exact Hid|]. split; [|split; intros; lia].
        intros _. split; [reflexivity|]. split; [reflexivity|].
        rewrite Hs, P. lra.
    + destruct (le_lt_dec k 125) as [H125|H125].
      * destruct (Hperf ltac:(lia)) as (C & ST & P).
        pose proof (inject_nat_ge k 76 ltac:(lia)) as Hq.
        change (inject_Z 76) with 76 in Hq.
        unfold cookSlot. rewrite C. cbn [negb]. cbv zeta.
        destruct (Nat.eq_dec k 125) as [->|Hne].
        -- change (inject_Z (Z.of_nat 125)) with 125 in *.
           qcase (Qltb 100 (GrillSlot.progress s + 0.8)); [|exfalso; lra].
           rewrite Hid.
           split; [reflexivity|]. split; [intros; lia|].
           split; [intros; lia|]. intros _. reflexivity.
        -- pose proof (inject_nat_le k 124 ltac:(lia)) as Hq124.
           change (inject_Z 124) with 124 in Hq124.
           qcase (Qltb 100 (GrillSlot.progress s + 0.8)); [exfalso; lra|].
           qcase (Qltb 60 (GrillSlot.progress s + 0.8)); [|exfalso; lra].
           cbn [GrillSlot.id GrillSlot.isCooking GrillSlot.state
                GrillSlot.progress].
           split; [exact Hid|]. split; [intros; lia|].
           split; [|intros; lia].
           intros _. split; [reflexivity|]. split; [reflexivity|].
           rewrite Hs, P. lra.
      * rewrite (Hgone ltac:(lia)). unfold cookSlot.
        cbn [GrillSlot.isCooking negb GrillSlot.id].
        split; [reflexivity|]. split; [intros; lia|].
        split; [intros; lia|]. intros _. reflexivity.
Qed.

Lemma lookup_map {A B : Type} (f : A -> B) (l : list A) (i : nat) :
  map f l !! i = option_map f (l !! i).
Proof.
  revert i. induction l as [|a l IH]; intros [|i]; try reflexivity.
  apply IH.
Qed.

Lemma iter_cookTick k : forall a,
  Nat.iter k cookTick a
  = App.set_grillSlots (map (Nat.iter k cookSlot) (App.grillSlots a)) a.
Proof.
  induction k as [|k IH]; intros a.
  - cbn [Nat.iter nat_rect]. unfold App.set_grillSlots.
    rewrite List.map_id. destruct a; reflexivity.
  - rewrite Nat.iter_succ, IH. unfold cookTick, App.set_grillSlots.
    cbn [App.gameState App.score App.highScore App.status App.avalancheDist
         App.fishInventory App.grillSlots].
    rewrite List.map_map. reflexivity.
Qed.

Lemma cook_empty k i : Nat.iter k cookSlot (emptySlot i) = emptySlot i.
Proof.
  induction k as [|k IH]; [reflexivity|]. rewrite Nat.iter_succ, IH.
  reflexivity.
Qed.

(** The cooking window. A collected fish goes to the first slot of the
    grill that is not cooking. There it is raw for its first 75 periods
    of the cooking timer, perfect from the 76th to the 125th, and taken
    off the grill by the 126th (the burnt state is never stored); its
    progress is 0.8 per period; the slot keeps its id. *)
Theorem cooking_window (a : App.t) (idx k : nat) :
  findIndex (fun s => negb (GrillSlot.isCooking s)) (App.grillSlots a)
  = Some idx ->
  exists slot s,
    App.grillSlots a !! idx = Some slot
    /\ App.grillSlots (Nat.iter k cookTick (handleCollectFish a)) !! idx
       = Some s
    /\ GrillSlot.id s = GrillSlot.id slot
    /\ ((k <= 75)%nat ->
        GrillSlot.isCooking s = true /\ GrillSlot.state s = raw
        /\ GrillSlot.progress s == 0.8 * inject_Z (Z.of_nat k))
    /\ ((76 <= k <= 125)%nat ->
        GrillSlot.isCooking s = true /\ GrillSlot.state s = perfect
        /\ GrillSlot.progress s == 0.8 * inject_Z (Z.of_nat k))
    /\ ((126 <= k)%nat ->
        s = GrillSlot.mk (GrillSlot.id slot) 0 raw false).
Proof.
  intros HF.
  destruct (proj1 (findIndex_Some _ _ _) HF) as (slot & HS & _).
  exists slot, (Nat.iter k cookSlot (freshFish slot)).
  split; [exact HS|]. split; [|exact (cook_fresh slot k)].
  rewrite iter_cookTick. unfold handleCollectFish. cbv zeta.
  rewrite HF, HS. unfold App.set_grillSlots.
  cbn [App.grillSlots]. rewrite lookup_map.
  rewrite list_lookup_insert_eq; [reflexivity|].
  apply lookup_lt_Some in HS. exact HS.
Qed.

Lemma cooking_window_witness :
  exists slot s,
    App.grillSlots initialApp !! 0%nat = Some slot
    /\ App.grillSlots (Nat.iter 76 cookTick (handleCollectFish initialApp))
         !! 0%nat = Some s
    /\ GrillSlot.id s = GrillSlot.id slot
    /\ ((76 <= 75)%nat ->
        GrillSlot.isCooking s = true /\ GrillSlot.state s = raw
        /\ GrillSlot.progress s == 0.8 * inject_Z (Z.of_nat 76))
    /\ ((76 <= 76 <= 125)%nat ->
        GrillSlot.isCooking s = true /\ GrillSlot.state s = perfect
        /\ GrillSlot.progress s == 0.8 * inject_Z (Z.of_nat 76))
    /\ ((126 <= 76)%nat ->
        s = GrillSlot.mk (GrillSlot.id slot) 0 raw false).
Proof. apply (cooking_window initialApp 0 76). reflexivity. Defined.

Lemma map_insert_same {A B : Type} (f : A -> B) (l : list A) (i : nat)
    (x a : A) :
  l !! i = Some a -> f x = f a -> List.map f (<[i := x]> l) = List.map f l.
Proof.
  revert i. induction l as [|y l IH]; intros i Hi Hf; [discriminate|].
  destruct i as [|i]; simpl in *.
  - injection Hi as ->. rewrite Hf. reflexivity.
  - f_equal. apply IH; assumption.
Qed.

Lemma cookSlot_ok s : slotOk s -> slotOk (cookSlot s).
Proof.
  intros (NB & (P0 & P1) & Hoff & Hon). unfold cookSlot.
  destruct (GrillSlot.isCooking s) eqn:C; cbn [negb].
  2: { unfold slotOk. rewrite C.
       split; [exact NB|]. split; [split; assumption|].
       split; [exact Hoff | exact Hon]. }
  specialize (Hon eq_refl). cbv zeta.
  qcase (Qltb 100 (GrillSlot.progress s + 0.8)).
  { unfold slotOk. cbn. repeat split; try discriminate; try reflexivity;
      try lra; intros; discriminate. }
  qcase (Qltb 60 (GrillSlot.progress s + 0.8)).
  - unfold slotOk. cbn [GrillSlot.state GrillSlot.progress GrillSlot.isCooking].
    split; [discriminate|]. split; [split; lra|].
    split; [intros Habs; discriminate Habs|].
    intros _. split; [discriminate | intros; exfalso; lra].
  - destruct (GrillSlot.state s) eqn:ST.
    + unfold slotOk.
      cbn [GrillSlot.state GrillSlot.progress GrillSlot.isCooking].
      split; [discriminate|]. split; [split; lra|].
      split; [intros Habs; discriminate Habs|].
      intros _. split; [intros; assumption | reflexivity].
    + exfalso. destruct Hon as [_ Hon].
      assert (Hle : GrillSlot.progress s <= 60) by lra.
      specialize (Hon Hle). discriminate.
    + exfalso. apply NB. reflexivity.
Qed.

Lemma freshFish_ok s : slotOk (freshFish s).
Proof.
  unfold slotOk, freshFish. cbn.
  repeat split; try discriminate; try reflexivity; try lra.
Qed.

Lemma clearedSlot_ok s : slotOk (clearedSlot s).
Proof.
  unfold slotOk, clearedSlot. cbn.
  repeat split; try discriminate; try reflexivity; try lra.
Qed.

Lemma handleCollectFish_ok a : grillOk a -> grillOk (handleCollectFish a).
Proof.
  intros [Hid Hok]. unfold handleCollectFish.
  destruct (findIndex _ _) as [idx|]; [|split; assumption].
  destruct (App.grillSlots a !! idx) as [s|] eqn:Es; [|split; assumption].
  unfold grillOk. cbn [App.grillSlots App.set_grillSlots]. split.
  - rewrite (map_insert_same GrillSlot.id _ idx (freshFish s) s Es eq_refl).
    exact Hid.
  - apply Forall_insert; [exact Hok | apply freshFish_ok].
Qed.

Lemma applyEvents_ok evs : forall a, grillOk a -> grillOk (applyEvents a evs).
Proof.
  induction evs as [|e evs IH]; intros a Ha; [exact Ha|].
  change (applyEvents a (e :: evs)) with (applyEvents (applyEvent a e) evs).
  apply IH. destruct e; cbn [applyEvent]; try exact Ha.
  - unfold handleGameOver. cbn [App.highScore App.set_gameState].
    destruct (_ <? _)%Z; exact Ha.
  - apply handleCollectFish_ok. exact Ha.
Qed.

Lemma handleSlotTap_ok index a a' :
  handleSlotTap index a = Some a' -> grillOk a -> grillOk a'.
Proof.
  unfold handleSlotTap. intros E [Hid Hok].
  destruct (App.grillSlots a !! index) as [s|] eqn:Es; [|discriminate].
  destruct (negb (GrillSlot.isCooking s)); [injection E as <-; split; assumption|].
  destruct (GrillSlot.state s); try (injection E as <-; split; assumption).
  destruct (_ <? 3)%Z; injection E as <-; [|split; assumption].
  unfold grillOk. cbn [App.grillSlots]. split.
  - rewrite (map_insert_same GrillSlot.id _ index (clearedSlot s) s Es eq_refl).
    exact Hid.
  - apply Forall_insert; [exact Hok | apply clearedSlot_ok].
Qed.

Lemma initialSlots_ok : Forall slotOk initialSlots.
Proof.
  unfold initialSlots.
  constructor; [apply (clearedSlot_ok (emptySlot "1"))|].
  constructor; [apply (clearedSlot_ok (emptySlot "2"))|].
  constructor; [apply (clearedSlot_ok (emptySlot "3"))|].
  constructor.
Qed.

(** The grill between any two inputs: three slots with the ids 1, 2 and
    3; no slot is burnt; every progress is between 0 and 100; a slot that
    is not cooking is empty (progress 0, raw); a cooking slot is raw
    exactly while its progress is at most 60. *)
Theorem grill_invariant `{MathLib} (s : Sys.t) :
  reachable s -> grillOk (Sys.app s).
Proof.
  induction 1 as [|i s Hreach IH].
  - split; [reflexivity | apply initialSlots_ok].
  - destruct i as [now rnd|now r| |index|clickY height|]; unfold step.
    + destruct (playing s); [exact IH|].
      split; [reflexivity | apply initialSlots_ok].
    + destruct (playing s); [|exact IH].
      destruct (gameLoop PLAYING r now (Sys.game s)) as [[g evs]|]; [|exact IH].
      cbn [Sys.app]. apply applyEvents_ok. exact IH.
    + destruct (playing s); [|exact IH].
      destruct IH as [Hid Hok]. unfold grillOk, cookTick.
      cbn [Sys.app App.grillSlots App.set_grillSlots]. split.
      * rewrite List.map_map. rewrite <- Hid. apply List.map_ext.
        intros slot. unfold cookSlot.
        destruct (negb (GrillSlot.isCooking slot)); [reflexivity|].
        cbv zeta. destruct (Qltb 100 _); [reflexivity|].
        destruct (Qltb 60 _); [reflexivity|].
        destruct (GrillSlot.state slot); reflexivity.
      * apply Forall_forall. intros x Hx.
        apply list_elem_of_In, List.in_map_iff in Hx.
        destruct Hx as (y & <- & Hy). apply cookSlot_ok.
        rewrite Forall_forall in Hok. apply Hok, list_elem_of_In, Hy.
    + destruct (playing s); [|exact IH].
      destruct (handleSlotTap index (Sys.app s)) as [a'|] eqn:ET; [|exact IH].
      cbn [Sys.app]. apply (handleSlotTap_ok _ _ _ ET IH).
    + exact IH.
    + exact IH.
Qed.

Lemma grill_invariant_witness : grillOk (Sys.app startedSys).
Proof.
  apply (@grill_invariant coarseMath).
  apply (@reach_step coarseMath). apply (@reach_init coarseMath).
Defined.

Lemma cookingCount_le slots : (cookingCount slots <= List.length slots)%nat.
Proof. unfold cookingCount. apply List.filter_length_le. Qed.

Lemma collect_slots (slots : list GrillSlot.t) (a : App.t) :
  App.grillSlots a = slots ->
  cookingCount (App.grillSlots (handleCollectFish a))
  = (if (cookingCount slots <? List.length slots)%nat
     then S (cookingCount slots) else cookingCount slots).
Proof.
  intros <-. unfold handleCollectFish.
  assert (G : forall l : list GrillSlot.t,
            cookingCount
              (match findIndex (fun s => negb (GrillSlot.isCooking s)) l with
               | Some idx =>
                   match l !! idx with
                   | Some s => <[idx := freshFish s]> l
                   | None => l
                   end
               | None => l
               end)
            = (if (cookingCount l <? List.length l)%nat
               then S (cookingCount l) else cookingCount l)).
  { clear. induction l as [|x l IH]; [reflexivity|].
    pose proof (cookingCount_le l) as Hle.
    cbn [findIndex]. unfold cookingCount in *.
    destruct (GrillSlot.isCooking x) eqn:C; cbn [negb].
    - destruct (findIndex _ l) as [k|] eqn:Ek; cbn [option_map].
      + change ((x :: l) !! S k) with (l !! k).
        destruct (l !! k) as [s|] eqn:Es.
        * change (<[S k := freshFish s]> (x :: l))
            with (x :: <[k := freshFish s]> l).
          cbn [List.filter List.length]. rewrite C.
          cbn [List.length]. rewrite IH.
          destruct (Nat.ltb_spec (List.length (List.filter GrillSlot.isCooking l))
                      (List.length l));
            destruct (Nat.ltb_spec
                        (S (List.length (List.filter GrillSlot.isCooking l)))
                        (S (List.length l))); try reflexivity; lia.
        * cbn [List.filter List.length]. rewrite C. cbn [List.length].
          apply findIndex_Some in Ek. destruct Ek as (b & Hb & _).
          congruence.
      + cbn [List.filter List.length]. rewrite C. cbn [List.length].
        rewrite IH.
        destruct (Nat.ltb_spec (List.length (List.filter GrillSlot.isCooking l))
                    (List.length l));
          destruct (Nat.ltb_spec
                      (S (List.length (List.filter GrillSlot.isCooking l)))
                      (S (List.length l))); try reflexivity; lia.
    - change ((x :: l) !! 0%nat) with (Some x).
      change (<[0%nat := freshFish x]> (x :: l)) with (freshFish x :: l).
      cbn [List.filter List.length freshFish GrillSlot.isCooking].
      rewrite C. cbn [List.length].
      destruct (Nat.ltb_spec (List.length (List.filter GrillSlot.isCooking l))
                  (S (List.length l))); [reflexivity | lia]. }
  specialize (G (App.grillSlots a)).
  destruct (findIndex _ (App.grillSlots a)) as [idx|]; [|exact G].
  destruct (App.grillSlots a !! idx);
    cbn [App.grillSlots App.set_grillSlots]; exact G.
Qed.

Lemma filter_all {A : Type} (f : A -> bool) (l : list A) :
  List.length (List.filter f l) = List.length l ->
  forall i a, l !! i = Some a -> f a = true.
Proof.
  induction l as [|x l IH]; intros HL i a Hi; [destruct i; discriminate|].
  pose proof (List.filter_length_le f l) as Hle.
  cbn [List.filter] in HL. destruct (f x) eqn:Ex; cbn [List.length] in HL.
  - destruct i as [|i]; [injection Hi as <-; exact Ex|].
    apply (IH ltac:(lia) i a Hi).
  - lia.
Qed.

(** A collect on a grill whose slots are all cooking changes nothing. *)
Lemma collect_full a :
  cookingCount (App.grillSlots a) = List.length (App.grillSlots a) ->
  handleCollectFish a = a.
Proof.
  intros HL. unfold handleCollectFish. cbv zeta.
  assert (findIndex (fun s => negb (GrillSlot.isCooking s)) (App.grillSlots a)
          = None) as ->; [|reflexivity].
  apply findIndex_None. intros i s Hs.
  rewrite (filter_all _ _ HL i s Hs). reflexivity.
Qed.

(** A collect leaves every slot as it is, except one that was not
    cooking, which gets a fresh fish; nothing else of the session
    changes. *)
Lemma collect_slot a i slot :
  App.grillSlots a !! i = Some slot ->
  App.grillSlots (handleCollectFish a) !! i = Some slot
  \/ (GrillSlot.isCooking slot = false
      /\ App.grillSlots (handleCollectFish a) !! i = Some (freshFish slot)).
Proof.
  intros Hi. unfold handleCollectFish. cbv zeta.
  destruct (findIndex _ (App.grillSlots a)) as [idx|] eqn:EF;
    [|left; exact Hi].
  destruct (proj1 (findIndex_Some _ _ _) EF) as (s & Hs & Hf & _).
  rewrite Hs. unfold App.set_grillSlots. cbn [App.grillSlots].
  destruct (Nat.eq_dec i idx) as [->|Hne].
  - right. rewrite Hi in Hs. injection Hs as <-. split.
    + destruct (GrillSlot.isCooking slot); [discriminate | reflexivity].
    + apply list_lookup_insert_eq. apply lookup_lt_Some in Hi. exact Hi.
  - left. rewrite list_lookup_insert_ne by congruence. exact Hi.
Qed.

Lemma collect_rest a :
  handleCollectFish a
  = App.set_grillSlots (App.grillSlots (handleCollectFish a)) a.
Proof.
  unfold handleCollectFish. cbv zeta.
  destruct (findIndex _ _); [|destruct a; reflexivity].
  destruct (_ !! _); destruct a; reflexivity.
Qed.

(** Collect events fill the grill one slot at a time and stop at its
    size. After [k] of them the number of slots is the same and the
    number of cooking slots has grown by [k], capped at the number of
    slots; every slot is as it was or, if it was not cooking, may hold a
    fresh fish, so a slot that is cooking is never touched; on a grill
    whose slots are all cooking the events change nothing; and they
    change nothing of the session but the grill. *)
Theorem collects_fill_grill (a : App.t) (k : nat) :
  let a' := Nat.iter k handleCollectFish a in
  List.length (App.grillSlots a') = List.length (App.grillSlots a)
  /\ cookingCount (App.grillSlots a')
     = Nat.min (List.length (App.grillSlots a))
         (cookingCount (App.grillSlots a) + k)
  /\ (forall i slot,
        App.grillSlots a !! i = Some slot ->
        App.grillSlots a' !! i = Some slot
        \/ (GrillSlot.isCooking slot = false
            /\ App.grillSlots a' !! i = Some (freshFish slot)))
  /\ (forall i slot,
        App.grillSlots a !! i = Some slot ->
        GrillSlot.isCooking slot = true ->
        App.grillSlots a' !! i = Some slot)
  /\ (cookingCount (App.grillSlots a) = List.length (App.grillSlots a) ->
      a' = a)
  /\ a' = App.set_grillSlots (App.grillSlots a') a.
Proof.
  cbv zeta.
  assert (H12 : List.length (App.grillSlots (Nat.iter k handleCollectFish a))
                = List.length (App.grillSlots a)
                /\ cookingCount
                     (App.grillSlots (Nat.iter k handleCollectFish a))
                   = Nat.min (List.length (App.grillSlots a))
                       (cookingCount (App.grillSlots a) + k)).
  { induction k as [|k [IHl IHc]].
    - cbn [Nat.iter nat_rect]. split; [reflexivity|].
      pose proof (cookingCount_le (App.grillSlots a)). lia.
    - rewrite Nat.iter_succ.
      set (b := Nat.iter k handleCollectFish a) in *. clearbody b.
      destruct (handleCollectFish_fields b) as (_ & _ & _ & _ & HL).
      split; [congruence|].
      rewrite (collect_slots (App.grillSlots b) b eq_refl), IHc, IHl.
      pose proof (cookingCount_le (App.grillSlots a)).
      destruct (Nat.ltb_spec
                  (Nat.min (List.length (App.grillSlots a))
                     (cookingCount (App.grillSlots a) + k))
                  (List.length (App.grillSlots a))); lia. }
  assert (H3 : forall i slot,
             App.grillSlots a !! i = Some slot ->
             App.grillSlots (Nat.iter k handleCollectFish a) !! i
             = Some slot
             \/ (GrillSlot.isCooking slot = false
                 /\ App.grillSlots (Nat.iter k handleCollectFish a) !! i
                    = Some (freshFish slot))).
  { clear H12. intros i slot Hi.
    induction k as [|k IH]; [left; exact Hi|].
    rewrite Nat.iter_succ.
    set (b := Nat.iter k handleCollectFish a) in *. clearbody b.
    destruct IH as [IH|[Hc IH]].
    - destruct (collect_slot b i slot IH) as [E|[Hc E]];
        [left; exact E | right; split; assumption].
    - right. split; [exact Hc|].
      destruct (collect_slot b i (freshFish slot) IH) as [E|[Hc' _]];
        [exact E | discriminate]. }
  destruct H12 as [H1 H2].
  split; [exact H1|]. split; [exact H2|]. split; [exact H3|]. split.
  { intros i slot Hi Hc. destruct (H3 i slot Hi) as [E|[Hc' _]];
      [exact E | congruence]. }
  split.
  - intros HF. clear H1 H2 H3. induction k as [|k IH]; [reflexivity|].
    rewrite Nat.iter_succ, IH. apply collect_full. exact HF.
  - clear H1 H2 H3. induction k as [|k IH].
    + cbn [Nat.iter nat_rect]. destruct a; reflexivity.
    + rewrite Nat.iter_succ.
      set (b := Nat.iter k handleCollectFish a) in *. clearbody b.
      rewrite (collect_rest b) at 1. rewrite IH at 2.
      destruct a; reflexivity.
Qed.

(** ** The terrain *)

Lemma spaced_tail p t : spaced (p :: t) -> spaced t.
Proof. destruct t; simpl; tauto. Qed.

Lemma spaced_head_le p t :
  spaced (p :: t) -> Forall (fun q => Point.x p + 40 <= Point.x q) t.
Proof.
  revert p. induction t as [|q t IH]; intros p Hs; [constructor|].
  destruct Hs as [E Hs]. unfold TERRAIN_SEGMENT_WIDTH in E.
  constructor; [rewrite E; lra|].
  eapply Forall_impl; [apply (IH q Hs)|].
  intros r Hr. simpl in Hr. lra.
Qed.

Lemma spaced_last p t pl :
  spaced (p :: t) -> last (p :: t) = Some pl ->
  Point.x pl == Point.x p + 40 * inject_Z (Z.of_nat (List.length t)).
Proof.
  revert p. induction t as [|q t IH]; intros p Hs HL.
  - simpl in HL. inversion HL; subst. change (inject_Z (Z.of_nat (List.length (@nil Point.t)))) with 0. lra.
  - destruct Hs as [E Hs]. unfold TERRAIN_SEGMENT_WIDTH in E.
    change (last (p :: q :: t)) with (last (q :: t)) in HL.
    rewrite (IH q Hs HL), E.
    cbn [List.length]. rewrite Nat2Z.inj_succ, <- Z.add_1_r, inject_Z_plus.
    change (inject_Z 1) with 1. lra.
Qed.

Lemma spaced_snoc t pl p :
  spaced t -> last t = Some pl ->
  Point.x p == Point.x pl + TERRAIN_SEGMENT_WIDTH ->
  spaced (t ++ [p]).
Proof.
  induction t as [|a [|b t] IH]; intros Hs HL E.
  - discriminate.
  - simpl in HL. inversion HL; subst. simpl. tauto.
  - destruct Hs as [E1 Hs].
    change (last (a :: b :: t)) with (last (b :: t)) in HL.
    change ((a :: b :: t) ++ [p]) with (a :: (b :: t) ++ [p]).
    change (spaced (a :: ((b :: t) ++ [p])))
      with (Point.x b == Point.x a + TERRAIN_SEGMENT_WIDTH
            /\ spaced ((b :: t) ++ [p])).
    split; [exact E1 | apply IH; assumption].
Qed.

(** Left of the first sample and from the last sample on there is no
    segment: the query falls through to the default. *)
Lemma getGroundY_outside `{MathLib} t x :
  spaced t ->
  match head t, last t with
  | Some p0, Some pl => x < Point.x p0 \/ Point.x pl <= x
  | _, _ => True
  end ->
  getGroundY t x = (100000, 0).
Proof.
  induction t as [|a [|b t] IH]; intros Hs Hx; try reflexivity.
  destruct Hs as [E Hs]. unfold TERRAIN_SEGMENT_WIDTH in E.
  cbn [head] in Hx.
  change (last (a :: b :: t)) with (last (b :: t)) in Hx.
  revert Hx. destruct (last (b :: t)) as [pl|] eqn:HL; intros Hx.
  2: { apply last_None in HL. discriminate. }
  pose proof (spaced_last b t pl Hs HL) as EL.
  assert (0 <= inject_Z (Z.of_nat (List.length t))) as Hn.
  { change 0 with (inject_Z 0). rewrite <- Zle_Qle. lia. }
  change (getGroundY (a :: b :: t) x)
    with (if Qle_bool (Point.x a) x && Qltb x (Point.x b)
          then (interpolate a b x,
                Math_atan2 (Point.y b - Point.y a) (Point.x b - Point.x a))
          else getGroundY (b :: t) x).
  assert (Qle_bool (Point.x a) x && Qltb x (Point.x b) = false) as ->.
  { apply andb_false_iff. destruct Hx as [Hx|Hx].
    - left. apply Qle_bool_gt. exact Hx.
    - right. apply Qltb_ge. lra. }
  apply IH; [exact Hs|]. cbn [head].
  destruct Hx as [Hx|Hx]; [left; lra | right; exact Hx].
Qed.

(** Between the first and the last sample the query finds the segment
    the abscissa lies on, and answers with the point of the segment above
    it and the direction of the segment. *)
Lemma getGroundY_inside `{MathLib} t x p0 pl :
  spaced t -> head t = Some p0 -> last t = Some pl ->
  Point.x p0 <= x < Point.x pl ->
  exists pre p1 p2 post,
    t = pre ++ p1 :: p2 :: post
    /\ Point.x p2 == Point.x p1 + TERRAIN_SEGMENT_WIDTH
    /\ Point.x p1 <= x < Point.x p2
    /\ getGroundY t x
       = (interpolate p1 p2 x,
          Math_atan2 (Point.y p2 - Point.y p1) (Point.x p2 - Point.x p1)).
Proof.
  revert p0. induction t as [|a [|b t] IH]; intros p0 Hs HH HL Hx.
  - discriminate.
  - simpl in HH, HL. inversion HH; inversion HL; subst. lra.
  - destruct Hs as [E Hs]. cbn [head] in HH. inversion HH; subst p0.
    change (last (a :: b :: t)) with (last (b :: t)) in HL.
    change (getGroundY (a :: b :: t) x)
      with (if Qle_bool (Point.x a) x && Qltb x (Point.x b)
            then (interpolate a b x,
                  Math_atan2 (Point.y b - Point.y a) (Point.x b - Point.x a))
            else getGroundY (b :: t) x).
    qcase (Qltb x (Point.x b)).
    + exists [], a, b, t. split; [reflexivity|]. split; [exact E|].
      split; [lra|].
      assert (Qle_bool (Point.x a) x = true) as ->
          by (apply Qle_bool_iff; lra).
      reflexivity.
    + rewrite andb_false_r.
      destruct (IH b Hs eq_refl HL) as (pre & p1 & p2 & post & -> & R);
        [lra|].
      exists (a :: pre), p1, p2, post. split; [reflexivity | exact R].
Qed.

Lemma interpolate_between p1 p2 x :
  Point.x p2 == Point.x p1 + TERRAIN_SEGMENT_WIDTH ->
  Point.x p1 <= x < Point.x p2 ->
  Point.y p1 <= interpolate p1 p2 x <= Point.y p2
  \/ Point.y p2 <= interpolate p1 p2 x <= Point.y p1.
Proof.
  intros E Hx. unfold TERRAIN_SEGMENT_WIDTH in E. unfold interpolate.
  assert ((x - Point.x p1) / (Point.x p2 - Point.x p1)
          == (x - Point.x p1) * (1 # 40)) as ->.
  { rewrite E. field. lra. }
  set (r := (x - Point.x p1) * (1 # 40)).
  assert (0 <= r < 1) as Hr by (subst r; lra).
  clearbody r.
  destruct (Qlt_le_dec (Point.y p1) (Point.y p2)) as [L|L];
    [left | right]; nra.
Qed.

Lemma interpolate_at p1 p2 :
  Point.x p2 == Point.x p1 + TERRAIN_SEGMENT_WIDTH ->
  interpolate p1 p2 (Point.x p1) == Point.y p1.
Proof.
  intros E. unfold TERRAIN_SEGMENT_WIDTH in E. unfold interpolate.
  rewrite E. field. lra.
Qed.

(** The segment an abscissa lies on is the one the query answers with,
    wherever the segment is in the terrain. *)
Lemma getGroundY_segment `{MathLib} pre p1 p2 post x :
  spaced (pre ++ p1 :: p2 :: post) ->
  Point.x p1 <= x < Point.x p2 ->
  getGroundY (pre ++ p1 :: p2 :: post) x
  = (interpolate p1 p2 x,
     Math_atan2 (Point.y p2 - Point.y p1) (Point.x p2 - Point.x p1)).
Proof.
  intros Hs Hx. induction pre as [|a pre IH].
  - change (getGroundY ([] ++ p1 :: p2 :: post) x)
      with (if Qle_bool (Point.x p1) x && Qltb x (Point.x p2)
            then (interpolate p1 p2 x,
                  Math_atan2 (Point.y p2 - Point.y p1)
                    (Point.x p2 - Point.x p1))
            else getGroundY (p2 :: post) x).
    assert (Qle_bool (Point.x p1) x = true) as -> by (apply Qle_bool_iff; lra).
    assert (Qltb x (Point.x p2) = true) as -> by (apply Qltb_lt; lra).
    reflexivity.
  - pose proof (spaced_tail a _ Hs) as Hs'. specialize (IH Hs').
    assert (exists b rest,
               pre ++ p1 :: p2 :: post = b :: rest
               /\ Point.x b <= Point.x p1) as (b & rest & ER & Hb).
    { destruct pre as [|c pre]; cbn [app] in *.
      - exists p1, (p2 :: post). split; [reflexivity | lra].
      - exists c, (pre ++ p1 :: p2 :: post). split; [reflexivity|].
        pose proof (spaced_head_le c _ Hs') as HF.
        rewrite Forall_forall in HF.
        assert (Point.x c + 40 <= Point.x p1).
        { apply HF. apply elem_of_app. right. left. }
        lra. }
    change (getGroundY ((a :: pre) ++ p1 :: p2 :: post) x)
      with (getGroundY (a :: pre ++ p1 :: p2 :: post) x).
    rewrite ER in *.
    change (getGroundY (a :: b :: rest) x)
      with (if Qle_bool (Point.x a) x && Qltb x (Point.x b)
            then (interpolate a b x,
                  Math_atan2 (Point.y b - Point.y a) (Point.x b - Point.x a))
            else getGroundY (b :: rest) x).
    assert (Qltb x (Point.x b) = false) as -> by (apply Qltb_ge; lra).
    rewrite andb_false_r. exact IH.
Qed.

(** The ground query on a terrain of samples one segment apart.  On a
    segment it answers with the point of the segment at the abscissa,
    which lies between the heights of the two samples and is the sample
    itself at the left end, and with the direction of the segment; left of
    the first sample and from the last sample on it answers with the
    default, height 100000 and angle 0. *)
Theorem getGroundY_on_spaced `{MathLib} (t : list Point.t) (x : Q) :
  spaced t ->
  (forall pre p1 p2 post,
      t = pre ++ p1 :: p2 :: post ->
      Point.x p1 <= x < Point.x p2 ->
      getGroundY t x
      = (interpolate p1 p2 x,
         Math_atan2 (Point.y p2 - Point.y p1) (Point.x p2 - Point.x p1))
      /\ (Point.y p1 <= interpolate p1 p2 x <= Point.y p2
          \/ Point.y p2 <= interpolate p1 p2 x <= Point.y p1)
      /\ (x == Point.x p1 -> interpolate p1 p2 x == Point.y p1))
  /\ (forall p0 pl,
         head t = Some p0 -> last t = Some pl ->
         x < Point.x p0 \/ Point.x pl <= x ->
         getGroundY t x = (100000, 0)).
Proof.
  intros Hs. split.
  - intros pre p1 p2 post -> Hx.
    assert (Point.x p2 == Point.x p1 + TERRAIN_SEGMENT_WIDTH) as E.
    { clear Hx. induction pre as [|a pre IH]; [apply Hs|].
      apply IH. exact (spaced_tail _ _ Hs). }
    split; [apply getGroundY_segment; assumption|].
    split; [apply interpolate_between; assumption|].
    intros Ex. unfold interpolate. unfold TERRAIN_SEGMENT_WIDTH in E.
    rewrite Ex, E. field. lra.
  - intros p0 pl HH HL Hx. apply getGroundY_outside; [exact Hs|].
    rewrite HH, HL. exact Hx.
Qed.

Lemma getGroundY_on_spaced_witness :
  @getGroundY coarseMath slope 100
  = (interpolate (Point.mk 80 230) (Point.mk 120 245) 100, 0)
  /\ @getGroundY coarseMath slope 200 = (100000, 0).
Proof.
  assert (spaced slope) as Hs by (vm_compute; tauto).
  destruct (@getGroundY_on_spaced coarseMath slope 100 Hs) as [H1 _].
  destruct (@getGroundY_on_spaced coarseMath slope 200 Hs) as [_ H2].
  split.
  - apply (H1 [Point.mk 0 200; Point.mk 40 215] (Point.mk 80 230)
             (Point.mk 120 245) [Point.mk 160 260; Point.mk 200 275]
             eq_refl).
    split; [vm_compute; discriminate | reflexivity].
  - apply (H2 (Point.mk 0 200) (Point.mk 200 275) eq_refl eq_refl).
    right. vm_compute. discriminate.
Defined.
Lemma initTerrain_spaced fuel : forall rnd k i ty,
  spaced (initTerrain fuel rnd k i ty).
Proof.
  induction fuel as [|fuel IH]; intros rnd k i ty; [exact I|].
  cbn [initTerrain]. destruct (Qltb i (GAME_WIDTH * 2)); [|exact I].
  cbv zeta.
  set (ty' := ty + (SLOPE_DROP + (rnd k - 0.5) * 10)).
  specialize (IH rnd (S k) (i + TERRAIN_SEGMENT_WIDTH) ty').
  destruct fuel as [|fuel]; [exact I|].
  cbn [initTerrain] in *.
  destruct (Qltb (i + TERRAIN_SEGMENT_WIDTH) (GAME_WIDTH * 2)); [|exact I].
  split; [reflexivity | exact IH].
Qed.

Lemma initTerrain_abscissas fuel : forall rnd k i ty,
  map Point.x (initTerrain fuel rnd k i ty) = initAbscissas fuel i.
Proof.
  induction fuel as [|fuel IH]; intros rnd k i ty; [reflexivity|].
  cbn [initTerrain initAbscissas].
  destruct (Qltb i (GAME_WIDTH * 2)); [|reflexivity].
  cbv zeta. cbn [map Point.x]. f_equal. apply IH.
Qed.

Lemma head_map {A B : Type} (f : A -> B) (l : list A) :
  head (map f l) = option_map f (head l).
Proof. destruct l; reflexivity. Qed.

Lemma last_map {A B : Type} (f : A -> B) (l : list A) :
  last (map f l) = option_map f (last l).
Proof.
  induction l as [|a [|b l] IH]; try reflexivity. exact IH.
Qed.

Lemma initTerrain_ends rnd :
  exists p0 pl,
    head (initTerrain 64 rnd 0 0 200) = Some p0
    /\ last (initTerrain 64 rnd 0 0 200) = Some pl
    /\ Point.x p0 = 0 /\ Point.x pl = 1400.
Proof.
  pose proof (initTerrain_abscissas 64 rnd 0 0 200) as E.
  pose proof (f_equal head E) as EH. pose proof (f_equal last E) as EL.
  rewrite head_map in EH. rewrite last_map in EL.
  set (t := initTerrain 64 rnd 0 0 200) in *. clearbody t. clear E.
  assert (head (initAbscissas 64 0) = Some 0) as E0 by reflexivity.
  assert (last (initAbscissas 64 0) = Some 1400) as E1 by reflexivity.
  rewrite E0 in EH. rewrite E1 in EL.
  destruct (head t) as [p0|]; [|discriminate].
  destruct (last t) as [pl|]; [|discriminate].
  exists p0, pl. simpl in EH, EL.
  repeat split; congruence.
Qed.

Lemma terrain_grow t p0 pl p :
  spaced t -> head t = Some p0 -> last t = Some pl ->
  Point.x p == Point.x pl + TERRAIN_SEGMENT_WIDTH ->
  spaced (t ++ [p]) /\ head (t ++ [p]) = Some p0
  /\ last (t ++ [p]) = Some p.
Proof.
  intros Hs HH HL E.
  split; [eapply spaced_snoc; eassumption|].
  split; [destruct t; [discriminate | exact HH] | apply last_snoc].
Qed.

Lemma terrain_shift t c p0 pl :
  spaced t -> head t = Some p0 -> last t = Some pl ->
  Point.x p0 < Point.x pl ->
  exists p0',
    spaced (shiftBehind Point.x c t)
    /\ head (shiftBehind Point.x c t) = Some p0'
    /\ last (shiftBehind Point.x c t) = Some pl
    /\ (p0' = p0 /\ c <= Point.x p0
        \/ Point.x p0' == Point.x p0 + TERRAIN_SEGMENT_WIDTH
           /\ Point.x p0 < c).
Proof.
  intros Hs HH HL Hlt.
  destruct t as [|a [|b t]].
  - discriminate.
  - simpl in HH, HL. inversion HH; inversion HL; subst. lra.
  - cbn [head] in HH. inversion HH; subst p0.
    change (last (a :: b :: t)) with (last (b :: t)) in HL.
    destruct Hs as [E Hs]. cbn [shiftBehind].
    qcase (Qltb (Point.x a) c).
    + exists b. repeat split; try assumption. right. split; assumption.
    + exists a. repeat split; try assumption. left. split; trivial.
Qed.

Lemma updateTerrain_terrain `{MathLib} r px g g1 pl :
  last (Game.terrain g) = Some pl ->
  updateTerrain r px g = Some g1 ->
  Game.player g1 = Game.player g
  /\ exists y,
      Game.terrain g1
      = shiftBehind Point.x (px - GAME_WIDTH)
          (if Qltb (Point.x pl) (px + GAME_WIDTH * 2)
           then Game.terrain g
                  ++ [Point.mk (Point.x pl + TERRAIN_SEGMENT_WIDTH) y]
           else Game.terrain g).
Proof.
  unfold updateTerrain.
  destruct (last (Game.terrain g)) as [lp|]; [|discriminate].
  intros [= ->]. cbv zeta. intros E. injection E as E. subst g1.
  destruct (Qltb (Point.x pl) (px + GAME_WIDTH * 2));
    cbn [Game.player Game.terrain];
    (split; [reflexivity | first [exists 0; reflexivity | eexists; reflexivity]]).
Qed.

(** updateTerrain, called at the player's abscissa on a terrain that
    reaches at least 1300 ahead: the terrain stays spaced, starts at most
    720 behind the player and ends between 1340 and 1480 ahead. *)
Lemma updateTerrain_window `{MathLib} r g g1 :
  covered g ->
  updateTerrain r (Player.x (Game.player g)) g = Some g1 ->
  let px := Player.x (Game.player g) in
  Game.player g1 = Game.player g
  /\ spaced (Game.terrain g1)
  /\ exists p0 pl,
      head (Game.terrain g1) = Some p0 /\ last (Game.terrain g1) = Some pl
      /\ px - 720 <= Point.x p0 <= px
      /\ px + 1340 <= Point.x pl <= px + 1480.
Proof.
  intros [Hs HW] HU px. fold px in HW.
  destruct (head (Game.terrain g)) as [p0|] eqn:HH; [|contradiction].
  destruct (last (Game.terrain g)) as [pl|] eqn:HL; [|contradiction].
  destruct HW as [[F0 F1] [L0 L1]].
  destruct (updateTerrain_terrain r px g g1 pl HL HU) as (EP & y & ET).
  split; [exact EP|]. rewrite ET. clear ET HU.
  unfold GAME_WIDTH in *.
  qcase (Qltb (Point.x pl) (px + 720 * 2)).
  - set (p := Point.mk (Point.x pl + TERRAIN_SEGMENT_WIDTH) y).
    destruct (terrain_grow (Game.terrain g) p0 pl p Hs HH HL)
      as (Hs' & HH' & HL'); [reflexivity|].
    destruct (terrain_shift _ (px - 720) p0 p Hs' HH' HL')
      as (p0' & Hs2 & HH2 & HL2 & C).
    { subst p. cbn [Point.x]. unfold TERRAIN_SEGMENT_WIDTH. lra. }
    split; [exact Hs2|]. exists p0', p.
    split; [exact HH2|]. split; [exact HL2|].
    subst p. cbn [Point.x]. unfold TERRAIN_SEGMENT_WIDTH in *.
    destruct C as [[-> C]|[C1 C2]]; [lra|]. rewrite C1. lra.
  - destruct (terrain_shift _ (px - 720) p0 pl Hs HH HL)
      as (p0' & Hs2 & HH2 & HL2 & C); [lra|].
    split; [exact Hs2|]. exists p0', pl.
    split; [exact HH2|]. split; [exact HL2|].
    unfold TERRAIN_SEGMENT_WIDTH in *.
    destruct C as [[-> C]|[C1 C2]]; [lra|]. rewrite C1. lra.
Qed.

Lemma covered_ext g g' :
  Player.x (Game.player g') = Player.x (Game.player g) ->
  Game.terrain g' = Game.terrain g ->
  covered g -> covered g'.
Proof. unfold covered. intros -> ->. trivial. Qed.

Lemma covered_start now rnd a g :
  covered (syncInventory a (initGame now rnd g)).
Proof.
  unfold covered, syncInventory, initGame, Game.set_fishInventoryRef.
  cbn [Game.player Game.terrain freshPlayer Player.x].
  split; [apply initTerrain_spaced|].
  destruct (initTerrain_ends rnd) as (p0 & pl & -> & -> & -> & ->).
  vm_compute. repeat split; discriminate.
Qed.

Lemma covered_frame `{MathLib} now r s :
  invariant s -> onTerrain s -> onTerrain (step (Frame now r) s).
Proof.
  intros HI HC.
  destruct (playing s) eqn:Hp; [|unfold step; rewrite Hp; exact HC].
  apply playing_iff in Hp as Hgs.
  assert (covered (Sys.game s)) as HCg by (apply HC; congruence).
  destruct HI as ((V0 & V1) & _ & _ & _ & _ & _ & ST).
  rewrite Hgs in ST. destruct ST as (TNE & _).
  destruct (gameLoop_playing r now _ TNE)
    as (g1 & EU & _ & P1 & _ & _ & _ & _ & L).
  destruct (updateTerrain_window r _ g1 HCg EU)
    as (_ & Hs & p0 & pl & HH & HL & F & La).
  unfold step. rewrite Hp, L. intros _.
  cbn [Sys.game].
  destruct (synced_fields
              (applyEvents (Sys.app s) (snd (updatePhysics PLAYING now g1)))
              (fst (updatePhysics PLAYING now g1))) as (SP & STt & _).
  pose proof (updatePhysics_summary PLAYING now g1) as U. cbv zeta in U.
  destruct U as (UT & _ & _ & _ & UX & _).
  destruct (integrate_vx g1) as [I0 I1]. rewrite P1 in I0, I1, UX.
  specialize (I0 V0). specialize (I1 V1).
  set (v := Player.vx (integrate g1)) in *. clearbody v.
  unfold covered. rewrite SP, STt, UT, UX, HH, HL.
  split; [exact Hs|]. lra.
Qed.

Lemma covered_step `{MathLib} i s :
  invariant s -> onTerrain s -> onTerrain (step i s).
Proof.
  intros HI HC. destruct i as [now rnd|now r| |index|clickY height|].
  - unfold step. destruct (playing s); [exact HC|].
    intros _. apply covered_start.
  - apply covered_frame; assumption.
  - unfold step. destruct (playing s) eqn:Hp; [|exact HC].
    apply playing_iff in Hp. intros _. apply HC. congruence.
  - unfold step. destruct (playing s) eqn:Hp; [|exact HC].
    destruct (handleSlotTap index (Sys.app s)) as [a'|]; [|exact HC].
    apply playing_iff in Hp. intros _. cbn [Sys.game].
    apply (covered_ext (Sys.game s)); [reflexivity | reflexivity|].
    apply HC. congruence.
  - unfold step, onTerrain. cbn [Sys.app Sys.game]. intros Hm.
    destruct (handleInputStart_fields (App.gameState (Sys.app s)) clickY
                height (Sys.game s))
      as (EX & _ & _ & _ & _ & _ & ET & _).
    apply (covered_ext (Sys.game s)); [exact EX | exact ET | apply HC, Hm].
  - unfold step, onTerrain. cbn [Sys.app Sys.game]. intros Hm.
    apply (covered_ext (Sys.game s)); [reflexivity | reflexivity|].
    apply HC, Hm.
Qed.

Lemma reachable_covered `{MathLib} s : reachable s -> onTerrain s.
Proof.
  induction 1 as [|i s Hr IH].
  - intros Hm. exfalso. apply Hm. reflexivity.
  - apply covered_step; [apply reachable_invariant; exact Hr | exact IH].
Qed.

Lemma covered_length g :
  covered g -> (34 <= List.length (Game.terrain g) <= 57)%nat.
Proof.
  intros [Hs HW].
  destruct (Game.terrain g) as [|p t] eqn:ET; [contradiction|].
  cbn [head] in HW.
  destruct (last (p :: t)) as [pl|] eqn:HL; [|contradiction].
  pose proof (spaced_last p t pl Hs HL) as E.
  cbn [List.length].
  set (n := Z.of_nat (List.length t)) in *.
  assert (33 <= n <= 56)%Z; [|lia].
  split.
  - destruct (Z_le_gt_dec n 32) as [Hn|Hn]; [|lia].
    exfalso. rewrite Zle_Qle in Hn. change (inject_Z 32) with 32 in Hn. lra.
  - destruct (Z_le_gt_dec 57 n) as [Hn|Hn]; [|lia].
    exfalso. rewrite Zle_Qle in Hn. change (inject_Z 57) with 57 in Hn. lra.
Qed.

(** The terrain window. In every state of a session past the menu the
    terrain samples are one segment width (40) apart; the first lies at
    most 760 behind the player and not ahead of the player, the last
    between 1300 and 1480 ahead; so the terrain holds between 34 and 57
    samples however long the run lasts. *)
Theorem terrain_window `{MathLib} (s : Sys.t) :
  reachable s -> App.gameState (Sys.app s) <> MENU ->
  covered (Sys.game s)
  /\ (34 <= List.length (Game.terrain (Sys.game s)) <= 57)%nat.
Proof.
  intros Hr Hm. pose proof (reachable_covered s Hr Hm) as HC.
  split; [exact HC | apply covered_length; exact HC].
Qed.

Lemma terrain_window_witness :
  covered (Sys.game startedSys)
  /\ (34 <= List.length (Game.terrain (Sys.game startedSys)) <= 57)%nat.
Proof.
  apply (@terrain_window coarseMath).
  - apply (@reach_step coarseMath). apply (@reach_init coarseMath).
  - discriminate.
Defined.

(** The ground under the player. In every state of a session past the
    menu the player is above a segment of the terrain: the ground query at
    the player's abscissa answers with the point of that segment and its
    direction, never with the default for a missing segment. *)
Theorem ground_under_player `{MathLib} (s : Sys.t) :
  reachable s -> App.gameState (Sys.app s) <> MENU ->
  let t := Game.terrain (Sys.game s) in
  let px := Player.x (Game.player (Sys.game s)) in
  exists pre p1 p2 post,
    t = pre ++ p1 :: p2 :: post
    /\ Point.x p2 == Point.x p1 + TERRAIN_SEGMENT_WIDTH
    /\ Point.x p1 <= px < Point.x p2
    /\ getGroundY t px
       = (interpolate p1 p2 px,
          Math_atan2 (Point.y p2 - Point.y p1) (Point.x p2 - Point.x p1)).
Proof.
  intros Hr Hm t px. destruct (reachable_covered s Hr Hm) as [Hs HW].
  fold t px in Hs, HW.
  destruct (head t) as [p0|] eqn:HH; [|contradiction].
  destruct (last t) as [pl|] eqn:HL; [|contradiction].
  apply (getGroundY_inside t px p0 pl Hs HH HL). lra.
Qed.

Lemma ground_under_player_witness :
  exists pre p1 p2 post,
    Game.terrain (Sys.game startedSys) = pre ++ p1 :: p2 :: post
    /\ Point.x p2 == Point.x p1 + TERRAIN_SEGMENT_WIDTH
    /\ Point.x p1 <= 100 < Point.x p2
    /\ @getGroundY coarseMath (Game.terrain (Sys.game startedSys)) 100
       = (interpolate p1 p2 100,
          @Math_atan2 coarseMath (Point.y p2 - Point.y p1)
            (Point.x p2 - Point.x p1)).
Proof.
  apply (@ground_under_player coarseMath startedSys).
  - apply (@reach_step coarseMath). apply (@reach_init coarseMath).
  - discriminate.
Defined.

(** ** The player's speed, timers and counters *)

Ltac psimpl :=
  cbn [Player.x Player.y Player.vx Player.vy Player.rotation
       Player.isGrounded Player.isDead Player.score Player.boostTimer
       Player.backflipCount Player.totalBackflips Player.invincibleTimer
       Player.flightTimer Player.fishInventory
       Player.set_x Player.set_y Player.set_vx Player.set_vy
       Player.set_rotation Player.set_isGrounded Player.set_isDead
       Player.set_score Player.set_boostTimer Player.set_backflipCount
       Player.set_invincibleTimer Player.set_flightTimer
       Player.set_fishInventory fst snd] in *.

Ltac range_intro H :=
  unfold inRange in H; psimpl;
  destruct H as ((V0 & V1) & (N0 & N1) & (L0 & L1) & B0 & K0 & S0 & T0 & GK
                 & (H0 & H1)).

Ltac range_solve :=
  unfold inRange; psimpl;
  repeat split;
  first [assumption | lia | lra | reflexivity | discriminate | congruence].

Lemma tickTimers_range p sh : inRange (p, sh) -> inRange (tickTimers p, sh).
Proof.
  intros HR. destruct p. range_intro HR. unfold tickTimers. psimpl.
  qcase (0 <? invincibleTimer)%Z; psimpl;
    qcase (0 <? flightTimer)%Z; psimpl;
    qcase (0 <? boostTimer)%Z; range_solve.
Qed.

Lemma targetSpeed_ge (p : Player.t) : 20 <= targetSpeed p.
Proof.
  unfold targetSpeed.
  destruct (0 <? Player.invincibleTimer p)%Z; [vm_compute; discriminate|].
  destruct (0 <? Player.flightTimer p)%Z; [vm_compute; discriminate|].
  destruct (0 <? Player.boostTimer p)%Z; vm_compute; discriminate.
Qed.

Lemma gravityAssist_range p sh :
  inRange (p, sh) ->
  inRange (gravityAssist p, sh) /\ 2.1 <= Player.vx (gravityAssist p).
Proof.
  intros HR.
  pose proof (targetSpeed_ge p) as T1. pose proof (targetSpeed_le p) as T2.
  unfold gravityAssist. unfold FRICTION.
  set (ts := targetSpeed p) in *. clearbody ts.
  destruct p. range_intro HR.
  qcase (Qltb vx ts); range_solve.
Qed.

Lemma advance_range p sh : inRange (p, sh) -> inRange (advance p, sh).
Proof.
  intros HR. destruct p. range_intro HR. unfold advance. range_solve.
Qed.

Lemma applyGravity_range p sh :
  inRange (p, sh) -> inRange (applyGravity p, sh).
Proof.
  intros HR. destruct p. range_intro HR. unfold applyGravity. psimpl.
  destruct (flightTimer <=? 0)%Z.
  - destruct (Qltb vy 0); range_solve.
  - destruct (Qltb 2 (vy + GRAVITY * 0.3)); range_solve.
Qed.

Lemma integrate_range g :
  inRange (Game.player g, Game.shake g) ->
  inRange (integrate g, Game.shake g)
  /\ 2.1 <= Player.vx (integrate g) <= 28.1.
Proof.
  intros HR. unfold integrate. cbv zeta.
  set (sh := Game.shake g) in *. clearbody sh.
  assert (inRange (Player.set_fishInventory (Game.fishInventoryRef g)
                     (Game.player g), sh)) as H0.
  { destruct (Game.player g). range_intro HR. range_solve. }
  set (p0 := Player.set_fishInventory _ _) in *. clearbody p0.
  apply tickTimers_range in H0.
  set (p1 := tickTimers p0) in *. clearbody p1.
  apply gravityAssist_range in H0. destruct H0 as [H0 HV].
  set (p2 := gravityAssist p1) in *. clearbody p2.
  assert (Player.vx (applyGravity (advance p2)) = Player.vx p2) as EV.
  { destruct (applyGravity_fields (advance p2)) as (_ & -> & _).
    destruct (advance_fields p2) as (_ & -> & _). reflexivity. }
  assert (Player.vx p2 <= 28.1) as HV1 by (apply H0).
  apply advance_range in H0.
  set (p3 := advance p2) in *. clearbody p3.
  apply applyGravity_range in H0.
  split; [exact H0|]. rewrite EV. split; assumption.
Qed.

Lemma landing_range ga p sh :
  inRange (p, sh) ->
  inRange (fst (fst (landing ga p sh)), snd (fst (landing ga p sh))).
Proof.
  intros HR. unfold landing. cbv zeta.
  set (d := angleDiff (Player.rotation p) ga). clearbody d.
  destruct p. range_intro HR.
  destruct (_ && _).
  - range_solve.
  - qcase (0 <? backflipCount)%Z.
    + destruct (Qltb _ _); range_solve.
    + range_solve.
Qed.

Lemma spin_range holding gy p sh :
  Player.isGrounded p = false ->
  inRange (p, sh) -> inRange (spin holding gy p, sh).
Proof.
  intros HG HR. unfold spin. cbv zeta.
  destruct (_ && _); [|exact HR].
  destruct (Qltb 50 _); [|exact HR].
  destruct p. range_intro HR.
  match goal with
  | |- context [if (?a <? ?b)%Z then _ else _] => qcase (a <? b)%Z
  end; range_solve.
Qed.

Lemma floorCollision_range `{MathLib} holding t p sh :
  inRange (p, sh) ->
  match floorCollision holding t p sh with
  | Return (p', sh', _) | Continue (p', sh', _) => inRange (p', sh')
  end.
Proof.
  intros HR. unfold floorCollision.
  destruct (getGroundY t (Player.x p)) as [gy ga]. cbv zeta.
  destruct (_ && _).
  - destruct (0 <? Player.flightTimer p)%Z.
    + destruct p. range_intro HR. range_solve.
    + assert (inRange
                (fst (fst (if negb (Player.isGrounded p)
                           then landing ga p sh else (p, sh, []))),
                 snd (fst (if negb (Player.isGrounded p)
                           then landing ga p sh else (p, sh, []))))) as HL.
      { destruct (negb (Player.isGrounded p));
          [apply landing_range; exact HR | exact HR]. }
      destruct (if negb (Player.isGrounded p) then landing ga p sh
                else (p, sh, [])) as [[p' sh'] evs].
      cbn [fst snd] in HL. destruct p'. range_intro HL. range_solve.
  - apply spin_range; [reflexivity|].
    destruct p. range_intro HR. range_solve.
Qed.

Lemma hitObstacle_range `{MathLib} t ps obs :
  inRange ps -> inRange (fst (fst (hitObstacle t ps obs))).
Proof.
  intros HR. unfold hitObstacle. cbv zeta.
  destruct (Obstacle.passed obs); [exact HR|].
  destruct (_ && _); [|exact HR].
  destruct (Qltb _ _); [|exact HR].
  destruct ps as [p sh]. destruct p. range_intro HR. range_solve.
Qed.

Lemma visitDecoration_range sh p dec :
  inRange (p, sh) -> inRange (fst (fst (visitDecoration p dec)), sh).
Proof.
  intros HR. unfold visitDecoration.
  destruct (Decoration.type dec); try exact HR.
  destruct (_ && _); [|exact HR].
  destruct p. range_intro HR. range_solve.
Qed.

Lemma touchPowerUp_range sh p pu :
  inRange (p, sh) -> inRange (fst (fst (touchPowerUp p pu)), sh).
Proof.
  intros HR. unfold touchPowerUp. cbv zeta.
  destruct (PowerUp.collected pu); [exact HR|].
  destruct (Qltb _ _); [|exact HR].
  destruct (PowerUp.type pu); [exact HR|].
  destruct p. range_intro HR. range_solve.
Qed.

Lemma deathCheck_range gs av p sh :
  inRange (p, sh) -> inRange (fst (deathCheck gs av p), sh).
Proof.
  intros HR. unfold deathCheck. destruct (Qltb _ _); [|exact HR].
  destruct p. range_intro HR. range_solve.
Qed.

Lemma updatePhysics_range `{MathLib} gs now g :
  inRange (Game.player g, Game.shake g) ->
  let g' := fst (updatePhysics gs now g) in
  inRange (Game.player g', Game.shake g').
Proof.
  intros HR. cbv zeta.
  destruct (integrate_range g HR) as [HI _].
  pose proof (floorCollision_range (Game.isHolding g) (Game.terrain g)
                (integrate g) (Game.shake g) HI) as HF.
  destruct (floorCollision (Game.isHolding g) (Game.terrain g) (integrate g)
              (Game.shake g)) as [[[p1 sh1] ev1]|[[p1 sh1] ev1]] eqn:EF.
  - rewrite (updatePhysics_return gs now g _ _ _ EF). exact HF.
  - destruct (updatePhysics_continue gs now g _ _ _ EF)
      as (ps & obs & ev2 & p3 & decs & ev3 & p4 & pus & ev4
          & E2 & E3 & E4 & _ & _ & _ & _ & _ & _ & EU).
    cbv zeta in EU. rewrite EU. cbn [fst Game.player Game.shake].
    clear EU EF HI HR.
    assert (inRange ps) as H2.
    { destruct (_ && _) in E2.
      - pose proof (forEach_elems (hitObstacle (Game.terrain g)) inRange
                      (fun _ _ => True)
                      (fun s a Hs =>
                         conj (hitObstacle_range (Game.terrain g) s a Hs) I)
                      (Game.obstacles g) (p1, sh1) HF) as [HS _].
        rewrite E2 in HS. exact HS.
      - inversion E2; subst. exact HF. }
    destruct ps as [p2 sh2]. cbn [fst snd] in *.
    pose proof (forEach_elems visitDecoration (fun p => inRange (p, sh2))
                  (fun _ _ => True)
                  (fun s a Hs => conj (visitDecoration_range sh2 s a Hs) I)
                  (Game.decorations g) p2 H2) as [H3 _].
    rewrite E3 in H3. cbn [fst] in H3.
    pose proof (forEach_elems touchPowerUp (fun p => inRange (p, sh2))
                  (fun _ _ => True)
                  (fun s a Hs => conj (touchPowerUp_range sh2 s a Hs) I)
                  (Game.powerUps g) p3 H3) as [H4 _].
    rewrite E4 in H4. cbn [fst] in H4.
    apply deathCheck_range. exact H4.
Qed.

Lemma render_range g :
  inRange (Game.player g, Game.shake g) ->
  inRange (Game.player (render g), Game.shake (render g)).
Proof.
  intros HR. unfold render.
  qcase (Qltb 0 (Game.shake g)); [|exact HR].
  unfold Game.set_shake. cbn [Game.player Game.shake].
  destruct (Game.player g). range_intro HR. range_solve.
Qed.

Lemma handleInputStart_range gs clickY height g :
  inRange (Game.player g, Game.shake g) ->
  let g' := fst (handleInputStart gs clickY height g) in
  inRange (Game.player g', Game.shake g').
Proof.
  intros HR. unfold handleInputStart. cbv zeta.
  destruct (Qltb _ _); [exact HR|].
  destruct (negb _); [exact HR|].
  unfold Game.set_isHolding, Game.set_player.
  cbn [Game.player Game.shake].
  destruct (Game.player g). range_intro HR.
  destruct isGrounded; [range_solve|].
  destruct (0 <? flightTimer)%Z; range_solve.
Qed.

Lemma inRange_step `{MathLib} i s :
  invariant s ->
  inRange (Game.player (Sys.game s), Game.shake (Sys.game s)) ->
  inRange (Game.player (Sys.game (step i s)), Game.shake (Sys.game (step i s))).
Proof.
  intros HI HR. destruct i as [now rnd|now r| |index|clickY height|].
  - unfold step. destruct (playing s); [exact HR|].
    cbn [Sys.game]. unfold syncInventory, initGame, Game.set_fishInventoryRef.
    cbn [Game.player Game.shake]. unfold freshPlayer, BASE_SPEED.
    range_solve.
  - destruct (playing s) eqn:Hp; [|unfold step; rewrite Hp; exact HR].
    apply playing_iff in Hp as Hgs.
    destruct HI as (_ & _ & _ & _ & _ & _ & ST).
    rewrite Hgs in ST. destruct ST as (TNE & _).
    destruct (updateTerrain_total r (Sys.game s) TNE)
      as (g1 & EU & _ & P1 & _).
    unfold step. rewrite Hp. unfold gameLoop.
    cbn [GameState_eqb negb]. rewrite EU.
    assert (Game.shake g1 = Game.shake (Sys.game s)) as S1.
    { unfold updateTerrain in EU.
      destruct (last (Game.terrain (Sys.game s))); [|discriminate].
      cbv zeta in EU. injection EU as <-.
      destruct (Qltb _ _); reflexivity. }
    rewrite <- P1, <- S1 in HR.
    pose proof (updatePhysics_range PLAYING now g1 HR) as HU.
    cbv zeta in HU.
    destruct (updatePhysics PLAYING now g1) as [g' evs].
    cbn [fst Sys.game] in *. unfold syncInventory, Game.set_fishInventoryRef.
    cbn [Game.player Game.shake]. apply render_range. exact HU.
  - unfold step. destruct (playing s); exact HR.
  - unfold step. destruct (playing s); [|exact HR].
    destruct (handleSlotTap index (Sys.app s)); exact HR.
  - unfold step. cbn [Sys.game]. apply handleInputStart_range. exact HR.
  - exact HR.
Qed.

Lemma reachable_inRange `{MathLib} s :
  reachable s ->
  inRange (Game.player (Sys.game s), Game.shake (Sys.game s)).
Proof.
  induction 1 as [|i s Hr IH].
  - unfold initialSys, mountedGame, mountedPlayer, BASE_SPEED.
    cbn [Sys.game Game.player Game.shake]. range_solve.
  - apply inRange_step; [apply reachable_invariant; exact Hr | exact IH].
Qed.

(** The ranges of the player's speed, timers and counters. In every state
    of a session the horizontal speed is between 2 and 28.1, the
    invincibility timer between 0 and 180, the flight timer between 0 and
    80; the boost timer, the backflip count and the trick score are not
    negative; the total of backflips is never written; a grounded player
    has no backflip pending; and the camera shake is between 0 and 25. *)
Theorem player_ranges `{MathLib} (s : Sys.t) :
  reachable s ->
  inRange (Game.player (Sys.game s), Game.shake (Sys.game s)).
Proof.
  induction 1 as [|i s Hr IH].
  - unfold initialSys, mountedGame, mountedPlayer, BASE_SPEED.
    cbn [Sys.game Game.player Game.shake]. range_solve.
  - apply inRange_step; [|exact IH].
    apply reachable_invariant. exact Hr.
Qed.

Lemma player_ranges_witness :
  inRange (Game.player (Sys.game startedSys), Game.shake (Sys.game startedSys)).
Proof.
  apply (@player_ranges coarseMath).
  apply (@reach_step coarseMath). apply (@reach_init coarseMath).
Defined.

(** The progress of a frame. A frame of a running game moves the player
    forward by at least 2.1 and at most 28.1, so the distance it reports
    as the score does not go down. *)
Theorem frame_advance `{MathLib} (s : Sys.t) (now : Z) (r : TerrainRand) :
  reachable s -> playing s = true ->
  let x := Player.x (Game.player (Sys.game s)) in
  let x' := Player.x (Game.player (Sys.game (step (Frame now r) s))) in
  x + 2.1 <= x' <= x + 28.1
  /\ (Math_floor (x / 10) <= Math_floor (x' / 10))%Z.
Proof.
  intros Hr Hp x x'.
  pose proof (reachable_invariant s Hr) as HI.
  pose proof (reachable_inRange s Hr) as HR.
  apply playing_iff in Hp as Hgs.
  destruct HI as (_ & _ & _ & _ & _ & _ & ST).
  rewrite Hgs in ST. destruct ST as (TNE & _).
  destruct (gameLoop_playing r now _ TNE)
    as (g1 & EU & _ & P1 & _ & _ & _ & _ & L).
  assert (Game.shake g1 = Game.shake (Sys.game s)) as S1.
  { unfold updateTerrain in EU.
    destruct (last (Game.terrain (Sys.game s))); [|discriminate].
    cbv zeta in EU. injection EU as <-.
    destruct (Qltb _ _); reflexivity. }
  rewrite <- P1, <- S1 in HR.
  destruct (integrate_range g1 HR) as [_ HV].
  pose proof (updatePhysics_summary PLAYING now g1) as U. cbv zeta in U.
  destruct U as (_ & _ & _ & _ & UX & _).
  assert (x' = x + Player.vx (integrate g1)) as EX.
  { subst x x'. unfold step. rewrite Hp, L. cbn [Sys.game].
    destruct (synced_fields
                (applyEvents (Sys.app s)
                   (snd (updatePhysics PLAYING now g1)))
                (fst (updatePhysics PLAYING now g1))) as (-> & _).
    rewrite UX, P1. reflexivity. }
  set (v := Player.vx (integrate g1)) in *. clearbody v.
  assert (x + 2.1 <= x' <= x + 28.1) as HX by (rewrite EX; lra).
  split; [exact HX|].
  unfold Math_floor. apply Qfloor_resp_le. unfold Qdiv.
  apply Qmult_le_compat_r; [lra | vm_compute; discriminate].
Qed.

Lemma frame_advance_witness :
  let x := Player.x (Game.player (Sys.game startedSys)) in
  let x' :=
    Player.x (Game.player
                (Sys.game (@step coarseMath (Frame 16 calmRand) startedSys))) in
  x + 2.1 <= x' <= x + 28.1
  /\ (Math_floor (x / 10) <= Math_floor (x' / 10))%Z.
Proof.
  apply (@frame_advance coarseMath startedSys 16 calmRand).
  - apply (@reach_step coarseMath). apply (@reach_init coarseMath).
  - reflexivity.
Defined.

(** ** The session *)

Lemma handleGameOver_highScore f a :
  App.highScore (handleGameOver f a) = Z.max (App.highScore a) f.
Proof.
  destruct a. unfold handleGameOver, App.set_gameState, App.set_highScore.
  cbn [App.highScore App.gameState App.score App.status App.avalancheDist
       App.fishInventory App.grillSlots].
  qcase (highScore <? f)%Z; cbn [App.highScore]; lia.
Qed.

Lemma applyEvents_highScore evs : forall a,
  (App.highScore a <= App.highScore (applyEvents a evs))%Z
  /\ Forall (fun f => (f <= App.highScore (applyEvents a evs))%Z)
       (finalScores evs).
Proof.
  induction evs as [|e evs IH]; intros a.
  - split; [apply Z.le_refl | constructor].
  - change (applyEvents a (e :: evs)) with (applyEvents (applyEvent a e) evs).
    destruct (IH (applyEvent a e)) as [IH1 IH2].
    assert (App.highScore a <= App.highScore (applyEvent a e))%Z as Hs.
    { destruct e; cbn [applyEvent]; try apply Z.le_refl.
      - rewrite handleGameOver_highScore. lia.
      - unfold handleCollectFish. cbv zeta.
        destruct (findIndex _ _); [|apply Z.le_refl].
        destruct (_ !! _); apply Z.le_refl. }
    split; [lia|].
    destruct e; cbn [finalScores flat_map app]; try exact IH2.
    constructor; [|exact IH2].
    assert (finalScore <= App.highScore (handleGameOver finalScore a))%Z.
    { rewrite handleGameOver_highScore. lia. }
    cbn [applyEvent] in *. lia.
Qed.

Lemma highScore_step `{MathLib} i s :
  (App.highScore (Sys.app s) <= App.highScore (Sys.app (step i s)))%Z
  /\ (Forall (fun f => (f <= App.highScore (Sys.app s))%Z) (Sys.overLog s) ->
      Forall (fun f => (f <= App.highScore (Sys.app (step i s)))%Z)
        (Sys.overLog (step i s))).
Proof.
  destruct i as [now rnd|now r| |index|clickY height|]; unfold step.
  - destruct (playing s); [split; [lia | trivial]|].
    cbn [Sys.app Sys.overLog startGame App.highScore].
    split; [lia | constructor].
  - destruct (playing s); [|split; [lia | trivial]].
    destruct (gameLoop PLAYING r now (Sys.game s)) as [[g evs]|];
      [|split; [lia | trivial]].
    cbn [Sys.app Sys.overLog].
    destruct (applyEvents_highScore evs (Sys.app s)) as [H1 H2].
    split; [exact H1|]. intros HF. apply Forall_app. split; [|exact H2].
    eapply Forall_impl; [exact HF|]. intros f Hf. simpl in Hf. lia.
  - destruct (playing s);
      cbn [Sys.app Sys.overLog cookTick App.set_grillSlots App.highScore];
      split; try lia; trivial.
  - destruct (playing s); [|split; [lia | trivial]].
    destruct (handleSlotTap index (Sys.app s)) as [a'|] eqn:ET;
      [|split; [lia | trivial]].
    cbn [Sys.app Sys.overLog].
    assert (App.highScore a' = App.highScore (Sys.app s)) as ->;
      [|split; [lia | trivial]].
    unfold handleSlotTap in ET.
    destruct (_ !! _) as [slot|]; [|discriminate].
    destruct (negb _); [injection ET as <-; reflexivity|].
    destruct (GrillSlot.state slot); try (injection ET as <-; reflexivity).
    destruct (_ <? _)%Z; injection ET as <-; reflexivity.
  - split; [cbn [Sys.app]; lia | trivial].
  - split; [cbn [Sys.app]; lia | trivial].
Qed.

(** The high score. No input lowers the high score of the session, and
    it is at least every final score that a game over of the current run
    handed to the session. *)
Theorem highScore_record `{MathLib} (s : Sys.t) :
  reachable s ->
  Forall (fun f => (f <= App.highScore (Sys.app s))%Z) (Sys.overLog s)
  /\ forall i,
       (App.highScore (Sys.app s) <= App.highScore (Sys.app (step i s)))%Z.
Proof.
  intros Hr. split; [|intros i; apply highScore_step].
  induction Hr as [|i s Hr IH]; [constructor|].
  apply highScore_step. exact IH.
Qed.

Lemma highScore_record_witness :
  Forall (fun f => (f <= App.highScore (Sys.app startedSys))%Z)
    (Sys.overLog startedSys)
  /\ forall i,
       (App.highScore (Sys.app startedSys)
        <= App.highScore (Sys.app (@step coarseMath i startedSys)))%Z.
Proof.
  apply (@highScore_record coarseMath).
  apply (@reach_step coarseMath). apply (@reach_init coarseMath).
Defined.

(** One fish through the grill, for a session whose grill is empty and
    whose inventory holds fewer than three fish. A collected fish goes to
    the first slot; a tap on that slot after [k] periods of the cooking
    timer takes the fish into the inventory and leaves the grill empty
    when [k] is between 76 and 125; a tap before that changes nothing;
    from the 126th period on the fish is gone, the session is as before
    the collect and the tap changes nothing. *)
Theorem one_fish_through_grill (a : App.t) (k : nat) :
  App.grillSlots a = initialSlots ->
  (App.fishInventory a < 3)%Z ->
  let a1 := Nat.iter k cookTick (handleCollectFish a) in
  handleSlotTap 0 a1
  = Some (if (76 <=? k)%nat && (k <=? 125)%nat
          then App.set_fishInventory (App.fishInventory a + 1)%Z a
          else a1)
  /\ ((126 <= k)%nat -> a1 = a).
Proof.
  intros HG HI a1.
  assert (a1 = App.set_grillSlots
                 [Nat.iter k cookSlot (freshFish (emptySlot "1"));
                  emptySlot "2"; emptySlot "3"] a) as E1.
  { subst a1. rewrite iter_cookTick. unfold handleCollectFish.
    rewrite HG. cbn [findIndex initialSlots emptySlot GrillSlot.isCooking
                     negb lookup list_lookup insert list_insert].
    unfold App.set_grillSlots.
    cbn [App.gameState App.score App.highScore App.status App.avalancheDist
         App.fishInventory App.grillSlots map].
    fold (emptySlot "1") (emptySlot "2") (emptySlot "3").
    rewrite !cook_empty. reflexivity. }
  destruct (cook_fresh (emptySlot "1") k) as (Hid & Hraw & Hperf & Hgone).
  cbv zeta in Hid, Hraw, Hperf, Hgone.
  set (s := Nat.iter k cookSlot (freshFish (emptySlot "1"))) in *.
  clearbody s. clearbody a1. subst a1.
  unfold handleSlotTap, App.set_grillSlots.
  cbn [App.gameState App.score App.highScore App.status App.avalancheDist
       App.fishInventory App.grillSlots lookup list_lookup].
  destruct (le_lt_dec k 75) as [H75|H75].
  - destruct (Hraw H75) as (C & ST & _). rewrite C, ST. cbn [negb].
    replace (76 <=? k)%nat with false by (symmetry; apply Nat.leb_gt; lia).
    split; [reflexivity | intros; lia].
  - destruct (le_lt_dec k 125) as [H125|H125].
    + destruct (Hperf ltac:(lia)) as (C & ST & _). rewrite C, ST. cbn [negb].
      replace (76 <=? k)%nat with true by (symmetry; apply Nat.leb_le; lia).
      replace (k <=? 125)%nat with true by (symmetry; apply Nat.leb_le; lia).
      apply Z.ltb_lt in HI. rewrite HI. cbn [andb].
      split; [|intros; lia].
      unfold clearedSlot. rewrite Hid.
      cbn [insert list_insert emptySlot GrillSlot.id].
      unfold App.set_fishInventory. rewrite HG. reflexivity.
    + rewrite (Hgone ltac:(lia)).
      cbn [GrillSlot.isCooking negb emptySlot GrillSlot.id].
      replace (k <=? 125)%nat with false by (symmetry; apply Nat.leb_gt; lia).
      rewrite andb_false_r.
      split; [reflexivity|]. intros _.
      change [GrillSlot.mk "1" 0 raw false; emptySlot "2"; emptySlot "3"]
        with initialSlots.
      rewrite <- HG. destruct a; reflexivity.
Qed.

Lemma one_fish_through_grill_witness :
  handleSlotTap 0 (Nat.iter 100 cookTick (handleCollectFish initialApp))
  = Some (App.set_fishInventory 1 initialApp).
Proof.
  destruct (one_fish_through_grill initialApp 100) as [H _].
  - reflexivity.
  - reflexivity.
  - exact H.
Defined.

(** ** The sequencer of the background music *)

Lemma Audio_stepTime_cases a :
  Audio.stepTime a == (if Audio.isEmergency a then 6 # 35 else 3 # 14).
Proof. unfold Audio.stepTime. destruct (Audio.isEmergency a); reflexivity. Qed.

Lemma rem32_facts (b : Z) :
  (0 <= b)%Z ->
  (0 <= Z.rem b 32 < 32)%Z
  /\ Z.rem (b + 32) 32 = Z.rem b 32
  /\ Z.rem b 4 = Z.rem (Z.rem b 32) 4.
Proof.
  intros Hb. rewrite !Z.rem_mod_nonneg by lia.
  pose proof (Z.mod_pos_bound b 32 ltac:(lia)) as H32.
  rewrite Z.rem_mod_nonneg by lia.
  split; [exact H32|]. split.
  - replace (b + 32)%Z with (b + 1 * 32)%Z by lia. apply Z.mod_add. lia.
  - symmetry. replace 32%Z with (4 * 8)%Z by reflexivity.
    rewrite Z.rem_mul_r by lia.
    replace (b mod 4 + 4 * ((b / 4) mod 8))%Z
      with (b mod 4 + ((b / 4) mod 8) * 4)%Z by lia.
    rewrite Z.mod_add by lia. apply Z.mod_mod. lia.
Qed.

(** The pattern of the background music. A step of an initialised
    service depends on the beat only through its remainder by 32 (four
    bars of eight steps); it plays the kick exactly on the beats that are
    multiples of 4 and the snare exactly on those that leave 2; it always
    plays one bass tone; and it starts between one and three voices, all
    at the time of the step. *)
Theorem playStep_pattern (a : Audio.t) (b : Z) (t : Q) :
  Audio.isInitialized a = true -> (0 <= b)%Z ->
  let vs := Audio.playStep a b t in
  Audio.playStep a (b + 32) t = vs
  /\ (In (Audio.Drum Audio.kick t) vs <-> Z.rem b 4 = 0%Z)
  /\ (In (Audio.Drum Audio.snare t) vs <-> Z.rem b 4 = 2%Z)
  /\ (exists freq, In (Audio.Tone Audio.triangle freq t 0.1 0.15) vs)
  /\ (1 <= List.length vs <= 3)%nat
  /\ Forall (fun v => match v with
                      | Audio.Drum _ time | Audio.Tone _ _ time _ _ =>
                          time = t
                      end) vs.
Proof.
  intros HI Hb vs. subst vs.
  destruct (rem32_facts b Hb) as (Hr & H32 & H4).
  unfold Audio.playStep, Audio.playDrum, Audio.playTone.
  rewrite HI, H32, H4. cbn [negb]. cbv zeta.
  set (step := Z.rem b 32) in *. clearbody step.
  split; [reflexivity|].
  assert (step = 0 \/ step = 1 \/ step = 2 \/ step = 3 \/ step = 4
          \/ step = 5 \/ step = 6 \/ step = 7 \/ step = 8 \/ step = 9
          \/ step = 10 \/ step = 11 \/ step = 12 \/ step = 13 \/ step = 14
          \/ step = 15 \/ step = 16 \/ step = 17 \/ step = 18 \/ step = 19
          \/ step = 20 \/ step = 21 \/ step = 22 \/ step = 23 \/ step = 24
          \/ step = 25 \/ step = 26 \/ step = 27 \/ step = 28 \/ step = 29
          \/ step = 30 \/ step = 31)%Z as Hc by lia.
  clear Hr H32 H4 Hb.
  repeat (destruct Hc as [->|Hc]); [..|subst step];
    repeat match goal with
           | |- context [Audio.melodyMap ?k] =>
               let v := eval vm_compute in (Audio.melodyMap k) in
               change (Audio.melodyMap k) with v; cbv iota
           | |- context [Z.rem ?k ?m] =>
               let v := eval vm_compute in (Z.rem k m) in
               change (Z.rem k m) with v
           | |- context [if ?c then _ else _] =>
               let v := eval vm_compute in c in
               change c with v; cbv iota
           end;
    cbn [app In List.length];
    (split; [split; [intros Hin; intuition (try discriminate;
                                            try reflexivity)
                    | intros Hz; try discriminate Hz; auto]|]);
    (split; [split; [intros Hin; intuition (try discriminate;
                                            try reflexivity)
                    | intros Hz; try discriminate Hz; auto]|]);
    (split; [eexists; auto|]);
    (split; [lia|]);
    repeat constructor.
Qed.

Lemma playStep_pattern_witness :
  In (Audio.Drum Audio.kick 0)
    (Audio.playStep (Audio.init Audio.initial) 36 0).
Proof.
  destruct (playStep_pattern (Audio.init Audio.initial) 36 0)
    as (_ & H & _).
  - reflexivity.
  - lia.
  - apply H. reflexivity.
Defined.

Lemma Audio_stepTime_lower a : 6 # 35 <= Audio.stepTime a.
Proof.
  rewrite Audio_stepTime_cases. destruct (Audio.isEmergency a);
    vm_compute; discriminate.
Qed.

Lemma Audio_stepTime_long a : 0.1 < Audio.stepTime a.
Proof. pose proof (Audio_stepTime_lower a). lra. Qed.

Lemma playStep_ext a a' beat time :
  Audio.isInitialized a' = Audio.isInitialized a ->
  Audio.playStep a' beat time = Audio.playStep a beat time.
Proof.
  intros E. unfold Audio.playStep, Audio.playDrum, Audio.playTone.
  rewrite E. reflexivity.
Qed.

Lemma seq_beats (b : Z) (n : nat) :
  b :: map (fun i => (b + 1 + Z.of_nat i)%Z) (seq 0 n)
  = map (fun i => (b + Z.of_nat i)%Z) (seq 0 (S n)).
Proof.
  cbn [seq map]. f_equal; [f_equal; lia|].
  rewrite <- seq_shift, List.map_map. apply List.map_ext.
  intros i. lia.
Qed.

(** The loop of the scheduler, with fuel for one more iteration than the
    steps that are due. *)
Lemma lookahead_spec cur fuel : forall a,
  cur + 0.1 - Audio.nextNoteTime a <= (6 # 35) * inject_Z (Z.of_nat fuel) ->
  exists a' steps vs,
    Audio.lookahead (S fuel) cur a = Some (a', steps, vs)
    /\ (Audio.timerID a' = Audio.timerID a
        /\ Audio.isMuted a' = Audio.isMuted a
        /\ Audio.isInitialized a' = Audio.isInitialized a
        /\ Audio.isEmergency a' = Audio.isEmergency a)
    /\ Audio.beatCount a'
       = (Audio.beatCount a + Z.of_nat (List.length steps))%Z
    /\ Audio.nextNoteTime a'
       == Audio.nextNoteTime a
          + inject_Z (Z.of_nat (List.length steps)) * Audio.stepTime a
    /\ cur + 0.1 <= Audio.nextNoteTime a'
    /\ (steps <> [] -> Audio.nextNoteTime a' < cur + 0.1 + Audio.stepTime a)
    /\ Forall (fun bt => snd bt < cur + 0.1) steps
    /\ map fst steps
       = map (fun i => (Audio.beatCount a + Z.of_nat i)%Z)
           (seq 0 (List.length steps))
    /\ vs = flat_map (fun bt => Audio.playStep a (fst bt) (snd bt)) steps.
Proof.
  induction fuel as [|fuel IH]; intros a Hf.
  - change (inject_Z (Z.of_nat 0)) with 0 in Hf.
    exists a, [], []. cbn [Audio.lookahead].
    qcase (Qltb (Audio.nextNoteTime a) (cur + 0.1)); [exfalso; lra|].
    cbn [List.length]. change (Z.of_nat 0) with 0%Z.
    change (inject_Z 0) with 0.
    repeat split; try reflexivity; try lia; try lra; try constructor.
    all: try (intros Hne; contradiction).
  - change (Audio.lookahead (S (S fuel)) cur a)
      with (if Qltb (Audio.nextNoteTime a) (cur + 0.1)
            then
              match Audio.lookahead (S fuel) cur (Audio.advanceNote a) with
              | Some (a', steps, vs') =>
                  Some (a', (Audio.beatCount a, Audio.nextNoteTime a) :: steps,
                        Audio.playStep a (Audio.beatCount a)
                          (Audio.nextNoteTime a) ++ vs')
              | None => None
              end
            else Some (a, [], [])).
    qcase (Qltb (Audio.nextNoteTime a) (cur + 0.1)).
    + pose proof (Audio_stepTime_lower a) as Hst.
      pose proof (inject_nat_succ fuel) as Hs.
      destruct (IH (Audio.advanceNote a))
        as (a' & steps & vs & -> & (F1 & F2 & F3 & F4) & HB & HN & HC & HL
            & HT & HM & HV).
      { cbn [Audio.advanceNote Audio.nextNoteTime]. rewrite Hs in Hf. lra. }
      exists a', ((Audio.beatCount a, Audio.nextNoteTime a) :: steps),
        (Audio.playStep a (Audio.beatCount a) (Audio.nextNoteTime a) ++ vs).
      cbn [Audio.advanceNote Audio.nextNoteTime Audio.beatCount
           Audio.timerID Audio.isMuted Audio.isInitialized Audio.isEmergency]
        in *.
      assert (Audio.stepTime (Audio.advanceNote a) = Audio.stepTime a) as ES
          by reflexivity.
      rewrite ES in *.
      split; [reflexivity|]. split; [tauto|].
      cbn [List.length]. rewrite inject_nat_succ.
      split; [rewrite HB; lia|]. split; [rewrite HN; lra|].
      split; [exact HC|]. split.
      { intros _. destruct steps as [|s steps].
        - cbn [List.length] in HN. change (Z.of_nat 0) with 0%Z in HN.
          change (inject_Z 0) with 0 in HN.
          rewrite HN. lra.
        - apply HL. discriminate. }
      split; [constructor; [exact E | exact HT]|]. split.
      { cbn [map fst]. rewrite HM. apply seq_beats. }
      cbn [flat_map fst snd]. f_equal. rewrite HV.
      apply List.flat_map_ext. intros bt. apply playStep_ext. reflexivity.
    + exists a, [], [].
      cbn [List.length]. change (Z.of_nat 0) with 0%Z.
      change (inject_Z 0) with 0.
      repeat split; try reflexivity; try lia; try lra; try constructor.
      all: try (intros Hne; contradiction).
Qed.

(** The steps of the loop are played on consecutive beats, one step time
    apart, from the beat and the time that are due. *)
Lemma lookahead_times cur fuel : forall a a' steps vs,
  Audio.lookahead fuel cur a = Some (a', steps, vs) ->
  forall i bt,
    steps !! i = Some bt ->
    fst bt = (Audio.beatCount a + Z.of_nat i)%Z
    /\ snd bt
       == Audio.nextNoteTime a + inject_Z (Z.of_nat i) * Audio.stepTime a.
Proof.
  induction fuel as [|fuel IH]; intros a a' steps vs E i bt Hi;
    [discriminate|].
  cbn [Audio.lookahead] in E.
  destruct (Qltb (Audio.nextNoteTime a) (cur + 0.1)).
  2: { injection E as _ <- _. destruct i; discriminate. }
  cbv zeta in E.
  destruct (Audio.lookahead fuel cur (Audio.advanceNote a))
    as [[[a2 steps2] vs2]|] eqn:E2; [|discriminate].
  injection E as _ <- _.
  destruct i as [|i].
  - injection Hi as <-. cbn [fst snd]. change (Z.of_nat 0) with 0%Z.
    change (inject_Z 0) with 0. split; [lia | lra].
  - change (((Audio.beatCount a, Audio.nextNoteTime a) :: steps2) !! S i)
      with (steps2 !! i) in Hi.
    destruct (IH _ _ _ _ E2 i bt Hi) as [HB HT].
    cbn [Audio.advanceNote Audio.beatCount Audio.nextNoteTime] in HB, HT.
    change (Audio.stepTime (Audio.advanceNote a)) with (Audio.stepTime a)
      in HT.
    split; [rewrite HB; lia|]. rewrite HT, (inject_nat_succ i). lra.
Qed.

(** The scheduler catches up. Given fuel for one more iteration than the
    steps that are due, a call of the scheduler ends. It plays step [i]
    after the one that is due, on the beat [i] further and one step time
    later each, exactly for the [i] whose time is before the clock plus
    0.1 s, and starts the voices of these steps and no other; afterwards
    the beat and the time that are due have moved on by the number of
    steps played, the next note is due at or after the clock plus 0.1 s,
    less than one step time beyond it if a step was played; the timeout
    is pending; the mute, emergency and initialisation flags are as
    before. *)
Theorem scheduler_catches_up (a : Audio.t) (cur : Q) (fuel : nat) :
  cur + 0.1 - Audio.nextNoteTime a <= (6 # 35) * inject_Z (Z.of_nat fuel) ->
  exists a' steps vs,
    Audio.scheduler (S fuel) cur a = Some (a', steps, vs)
    /\ Audio.timerID a' = true
    /\ Audio.isMuted a' = Audio.isMuted a
    /\ Audio.isInitialized a' = Audio.isInitialized a
    /\ Audio.isEmergency a' = Audio.isEmergency a
    /\ Audio.beatCount a'
       = (Audio.beatCount a + Z.of_nat (List.length steps))%Z
    /\ Audio.nextNoteTime a'
       == Audio.nextNoteTime a
          + inject_Z (Z.of_nat (List.length steps)) * Audio.stepTime a
    /\ cur + 0.1 <= Audio.nextNoteTime a'
    /\ (steps <> [] -> Audio.nextNoteTime a' < cur + 0.1 + Audio.stepTime a)
    /\ Forall (fun bt => snd bt < cur + 0.1) steps
    /\ map fst steps
       = map (fun i => (Audio.beatCount a + Z.of_nat i)%Z)
           (seq 0 (List.length steps))
    /\ vs = flat_map (fun bt => Audio.playStep a (fst bt) (snd bt)) steps
    /\ (forall i bt,
          steps !! i = Some bt ->
          fst bt = (Audio.beatCount a + Z.of_nat i)%Z
          /\ snd bt
             == Audio.nextNoteTime a
                + inject_Z (Z.of_nat i) * Audio.stepTime a)
    /\ (forall i : nat,
          (i < List.length steps)%nat
          <-> Audio.nextNoteTime a
              + inject_Z (Z.of_nat i) * Audio.stepTime a < cur + 0.1).
Proof.
  intros Hf.
  destruct (lookahead_spec cur fuel a Hf)
    as (a' & steps & vs & E & (F1 & F2 & F3 & F4) & R).
  pose proof (lookahead_times cur (S fuel) a a' steps vs E) as HT.
  exists (Audio.mk (Audio.nextNoteTime a') true (Audio.isMuted a')
            (Audio.isInitialized a') (Audio.beatCount a')
            (Audio.isEmergency a')), steps, vs.
  unfold Audio.scheduler. rewrite E.
  cbn [Audio.timerID Audio.isMuted Audio.isInitialized Audio.isEmergency
       Audio.beatCount Audio.nextNoteTime].
  split; [reflexivity|]. split; [reflexivity|].
  split; [exact F2|]. split; [exact F3|]. split; [exact F4|].
  destruct R as (RB & RN & RC & RL & RF & RM & RV).
  do 7 (split; [assumption|]).
  split; [exact HT|].
  pose proof (Audio_stepTime_lower a) as Hst.
  intros i. split.
  - intros Hi. destruct (lookup_lt_is_Some_2 steps i Hi) as [bt Hbt].
    destruct (HT i bt Hbt) as [_ Ht]. rewrite <- Ht.
    rewrite Forall_forall in RF. apply RF.
    apply (list_elem_of_lookup_2 _ _ _ Hbt).
  - intros Hi. destruct (le_lt_dec (List.length steps) i) as [Hge|Hlt];
      [|exact Hlt].
    exfalso.
    assert (inject_Z (Z.of_nat (List.length steps))
            <= inject_Z (Z.of_nat i)) as Hq.
    { rewrite <- Zle_Qle. lia. }
    set (n := inject_Z (Z.of_nat (List.length steps))) in *.
    set (j := inject_Z (Z.of_nat i)) in *.
    set (st := Audio.stepTime a) in *. clearbody n j st. nra.
Qed.

Lemma scheduler_catches_up_witness :
  exists a' steps vs,
    Audio.scheduler 2 0 (Audio.init Audio.initial) = Some (a', steps, vs)
    /\ Audio.timerID a' = true
    /\ Audio.isMuted a' = false
    /\ Audio.isInitialized a' = true
    /\ Audio.isEmergency a' = false
    /\ Audio.beatCount a' = (0 + Z.of_nat (List.length steps))%Z
    /\ Audio.nextNoteTime a'
       == 0 + inject_Z (Z.of_nat (List.length steps))
              * Audio.stepTime (Audio.init Audio.initial)
    /\ 0 + 0.1 <= Audio.nextNoteTime a'
    /\ (steps <> [] ->
        Audio.nextNoteTime a'
        < 0 + 0.1 + Audio.stepTime (Audio.init Audio.initial))
    /\ Forall (fun bt => snd bt < 0 + 0.1) steps
    /\ map fst steps
       = map (fun i => (0 + Z.of_nat i)%Z) (seq 0 (List.length steps))
    /\ vs = flat_map
              (fun bt => Audio.playStep (Audio.init Audio.initial) (fst bt)
                           (snd bt)) steps
    /\ (forall i bt,
          steps !! i = Some bt ->
          fst bt = (0 + Z.of_nat i)%Z
          /\ snd bt
             == 0 + inject_Z (Z.of_nat i)
                    * Audio.stepTime (Audio.init Audio.initial))
    /\ (forall i : nat,
          (i < List.length steps)%nat
          <-> 0 + inject_Z (Z.of_nat i)
                  * Audio.stepTime (Audio.init Audio.initial) < 0 + 0.1).
Proof.
  apply (scheduler_catches_up (Audio.init Audio.initial) 0 1).
  vm_compute. discriminate.
Defined.

(** The start of the music. Started on a service without a pending
    timeout, with fuel for two iterations, the music initialises the
    service if needed, plays exactly one step, beat 0 at the current time
    of the clock, leaves beat 1 due one step time later, and sets the
    timeout; on a service whose timeout is pending it plays nothing and
    leaves the sequencer alone. *)
Theorem startBGM_first_step (a : Audio.t) (cur : Q) (fuel : nat) :
  Audio.startBGM (S (S fuel)) cur a
  = if Audio.timerID a
    then Some (Audio.init a, [], [])
    else Some (Audio.mk (cur + Audio.stepTime a) true (Audio.isMuted a) true
                 1 (Audio.isEmergency a),
               [(0%Z, cur)], Audio.playStep (Audio.init a) 0 cur).
Proof.
  unfold Audio.startBGM. cbv zeta.
  assert ((if negb (Audio.isInitialized a) then Audio.init a else a)
          = Audio.init a) as ->.
  { unfold Audio.init. destruct (Audio.isInitialized a); reflexivity. }
  assert (Audio.timerID (Audio.init a) = Audio.timerID a) as ET.
  { unfold Audio.init. destruct (Audio.isInitialized a); reflexivity. }
  assert (Audio.isMuted (Audio.init a) = Audio.isMuted a) as EM.
  { unfold Audio.init. destruct (Audio.isInitialized a); reflexivity. }
  assert (Audio.isEmergency (Audio.init a) = Audio.isEmergency a) as EE.
  { unfold Audio.init. destruct (Audio.isInitialized a); reflexivity. }
  assert (Audio.isInitialized (Audio.init a) = true) as EI.
  { unfold Audio.init. destruct (Audio.isInitialized a) eqn:E;
      [exact E | reflexivity]. }
  rewrite ET. destruct (Audio.timerID a); [reflexivity|].
  rewrite EM, EE, EI. unfold Audio.scheduler.
  set (a0 := Audio.mk cur false (Audio.isMuted a) true 0
               (Audio.isEmergency a)).
  pose proof (Audio_stepTime_long a0) as HL.
  change (Audio.stepTime a0) with (Audio.stepTime a) in HL.
  change (Audio.lookahead (S (S fuel)) cur a0)
    with (if Qltb cur (cur + 0.1)
          then
            match (if Qltb (cur + Audio.stepTime a) (cur + 0.1)
                   then
                     match Audio.lookahead fuel cur
                             (Audio.advanceNote (Audio.advanceNote a0)) with
                     | Some (a', steps, vs') =>
                         Some (a', (1%Z, cur + Audio.stepTime a) :: steps,
                               Audio.playStep (Audio.advanceNote a0) 1
                                 (cur + Audio.stepTime a) ++ vs')
                     | None => None
                     end
                   else Some (Audio.advanceNote a0, [], []))
            with
            | Some (a', steps, vs') =>
                Some (a', (0%Z, cur) :: steps,
                      Audio.playStep a0 0 cur ++ vs')
            | None => None
            end
          else Some (a0, [], [])).
  qcase (Qltb cur (cur + 0.1)); [|exfalso; lra].
  qcase (Qltb (cur + Audio.stepTime a) (cur + 0.1)); [exfalso; lra|].
  cbn [Audio.advanceNote Audio.nextNoteTime Audio.isMuted
       Audio.isInitialized Audio.beatCount Audio.isEmergency a0].
  rewrite app_nil_r.
  rewrite (playStep_ext (Audio.init a) a0) by (rewrite EI; reflexivity).
  reflexivity.
Qed.

(** ** Rocks and power-ups *)

Lemma apart_tail x xs : apart (x :: xs) -> apart xs.
Proof. destruct xs; simpl; tauto. Qed.

Lemma apart_last x xs y :
  apart (x :: xs) -> last (x :: xs) = Some y ->
  x + 40 * inject_Z (Z.of_nat (List.length xs)) <= y.
Proof.
  revert x. induction xs as [|z xs IH]; intros x Ha HL.
  - simpl in HL. inversion HL; subst.
    change (inject_Z (Z.of_nat (List.length (@nil Q)))) with 0. lra.
  - destruct Ha as [E Ha]. unfold TERRAIN_SEGMENT_WIDTH in E.
    change (last (x :: z :: xs)) with (last (z :: xs)) in HL.
    pose proof (IH z Ha HL) as H1.
    cbn [List.length]. pose proof (inject_nat_succ (List.length xs)) as Hs.
    rewrite Hs. lra.
Qed.

Lemma apart_snoc xs lastX :
  apart xs -> Forall (fun x => x <= lastX) xs ->
  apart (xs ++ [lastX + TERRAIN_SEGMENT_WIDTH]).
Proof.
  induction xs as [|a [|b xs] IH]; intros Ha HF.
  - exact I.
  - inversion HF; subst. cbn [app apart]. split; [|exact I].
    unfold TERRAIN_SEGMENT_WIDTH. lra.
  - destruct Ha as [E Ha]. inversion HF; subst.
    change ((a :: b :: xs) ++ [lastX + TERRAIN_SEGMENT_WIDTH])
      with (a :: (b :: xs) ++ [lastX + TERRAIN_SEGMENT_WIDTH]).
    change (apart (a :: ((b :: xs) ++ [lastX + TERRAIN_SEGMENT_WIDTH])))
      with (a + TERRAIN_SEGMENT_WIDTH <= b
            /\ apart ((b :: xs) ++ [lastX + TERRAIN_SEGMENT_WIDTH])).
    split; [exact E | apply IH; assumption].
Qed.

Lemma shiftBehind_map {A : Type} (xof : A -> Q) (c : Q) (l : list A) :
  map xof (shiftBehind xof c l) = shiftBehind id c (map xof l).
Proof.
  destruct l as [|a l]; [reflexivity|]. cbn [map shiftBehind]. unfold id.
  destruct (Qltb (xof a) c); reflexivity.
Qed.

(** What one call of updateTerrain does to a list of abscissas laid out
    behind the last sample: a spawn one segment further, then the
    cleanup. *)
Lemma lined_update px lastX lastX' xs (spawn : bool) :
  lined px lastX xs ->
  px <= lastX ->
  (lastX' == lastX + TERRAIN_SEGMENT_WIDTH
   \/ spawn = false /\ lastX' == lastX) ->
  let xs' :=
    shiftBehind id (px - GAME_WIDTH)
      (if spawn then xs ++ [lastX + TERRAIN_SEGMENT_WIDTH] else xs) in
  apart xs'
  /\ Forall (fun x => x <= lastX') xs'
  /\ match head xs' with Some x => px - 720 <= x | None => True end.
Proof.
  intros (Ha & HF & HH) Hpx HL xs'.
  set (ys := if spawn then xs ++ [lastX + TERRAIN_SEGMENT_WIDTH] else xs)
    in *.
  assert (apart ys /\ Forall (fun x => x <= lastX') ys
          /\ match head ys with Some x => px - 760 <= x | None => True end)
    as (Ha' & HF' & HH').
  { subst ys. destruct spawn.
    - destruct HL as [HL|[HL _]]; [|discriminate].
      split; [apply apart_snoc; assumption|]. split.
      + apply Forall_app. split.
        * eapply Forall_impl; [exact HF|]. intros x Hx. simpl in Hx.
          rewrite HL. unfold TERRAIN_SEGMENT_WIDTH. lra.
        * constructor; [rewrite HL; lra | constructor].
      + destruct xs as [|x xs]; [|exact HH]. cbn [app head].
        unfold TERRAIN_SEGMENT_WIDTH. lra.
    - split; [exact Ha|]. split; [|exact HH].
      eapply Forall_impl; [exact HF|]. intros x Hx. simpl in Hx.
      unfold TERRAIN_SEGMENT_WIDTH in HL.
      destruct HL as [HL|[_ HL]]; rewrite HL; lra. }
  clearbody ys. subst xs'. unfold GAME_WIDTH.
  destruct ys as [|y ys]; [repeat split; constructor|].
  cbn [shiftBehind id]. cbn [head] in HH'.
  qcase (Qltb y (px - 720)).
  - split; [exact (apart_tail _ _ Ha')|].
    split; [inversion HF'; assumption|].
    destruct ys as [|z ys]; [exact I|]. cbn [head].
    destruct Ha' as [E' _]. unfold TERRAIN_SEGMENT_WIDTH in E'. lra.
  - split; [exact Ha'|]. split; [exact HF'|]. cbn [head]. exact E.
Qed.
Lemma Forall2_map_eq {A B : Type} (f : A -> B) (R : A -> A -> Prop)
    (l l' : list A) :
  (forall a a', R a a' -> f a' = f a) ->
  Forall2 R l l' -> map f l' = map f l.
Proof.
  intros HR HF. induction HF as [|a a' l l' Ha _ IH]; [reflexivity|].
  cbn [map]. rewrite (HR _ _ Ha), IH. reflexivity.
Qed.

(** updatePhysics moves no rock and no power-up. *)
Lemma updatePhysics_abscissas `{MathLib} gs now g :
  let g' := fst (updatePhysics gs now g) in
  map Obstacle.x (Game.obstacles g') = map Obstacle.x (Game.obstacles g)
  /\ map PowerUp.x (Game.powerUps g') = map PowerUp.x (Game.powerUps g).
Proof.
  cbv zeta. destruct (returnsEarly g) eqn:RE.
  - destruct (updatePhysics_hover gs now g RE) as (_ & -> & _ & -> & _).
    split; reflexivity.
  - pose proof (updatePhysics_loops gs now g RE) as U. cbv zeta in U.
    destruct U as (UO & _ & UP & _). split.
    + eapply Forall2_map_eq; [|exact UO].
      intros a a' [(E & _) _]. exact E.
    + eapply Forall2_map_eq; [|exact UP].
      intros a a' [(E & _) _]. exact E.
Qed.

(** updateTerrain on a game whose terrain and entities are laid out
    around the player. *)
Lemma updateTerrain_layout `{MathLib} r g g1 :
  covered g -> entitiesLined g ->
  updateTerrain r (Player.x (Game.player g)) g = Some g1 ->
  let px := Player.x (Game.player g) in
  exists pl',
    last (Game.terrain g1) = Some pl'
    /\ forall xs,
         xs = map Obstacle.x (Game.obstacles g1)
         \/ xs = map PowerUp.x (Game.powerUps g1) ->
         apart xs
         /\ Forall (fun x => x <= Point.x pl') xs
         /\ match head xs with Some x => px - 720 <= x | None => True end.
Proof.
  intros [Hs HW] HE HU px. fold px in HW. unfold entitiesLined in HE.
  fold px in HE.
  destruct (head (Game.terrain g)) as [p0|] eqn:HH; [|contradiction].
  destruct (last (Game.terrain g)) as [pl|] eqn:HL; [|contradiction].
  destruct HW as [[F0 F1] [L0 L1]]. destruct HE as [HO HP].
  unfold updateTerrain in HU. fold px in HU. rewrite HL in HU.
  cbv zeta in HU. injection HU as <-.
  unfold GAME_WIDTH in *.
  destruct (Qltb (Point.x pl) (px + 720 * 2)) eqn:EQ;
    cbn [Game.terrain Game.obstacles Game.powerUps].
  - set (p := Point.mk (Point.x pl + TERRAIN_SEGMENT_WIDTH) _).
    destruct (terrain_grow (Game.terrain g) p0 pl p Hs HH HL)
      as (Hs' & HH' & HL'); [reflexivity|].
    destruct (terrain_shift _ (px - 720) p0 p Hs' HH' HL')
      as (p0' & _ & _ & HL2 & _).
    { subst p. cbn [Point.x]. unfold TERRAIN_SEGMENT_WIDTH. lra. }
    exists p. split; [exact HL2|].
    intros xs [-> | ->]; rewrite shiftBehind_map.
    + match goal with
      | |- context [if ?c then Game.obstacles g ++ [?o] else _] =>
          replace (map Obstacle.x
                     (if c then Game.obstacles g ++ [o]
                      else Game.obstacles g))
            with (if c
                  then map Obstacle.x (Game.obstacles g)
                         ++ [Point.x pl + TERRAIN_SEGMENT_WIDTH]
                  else map Obstacle.x (Game.obstacles g));
          [apply (lined_update px (Point.x pl) (Point.x p) _ c HO);
           [lra | left; reflexivity]|]
      end.
      destruct (Qltb (r_rock r) 0.01); [|reflexivity].
      rewrite List.map_app. reflexivity.
    + match goal with
      | |- context [if ?c then Game.powerUps g ++ [?o] else _] =>
          replace (map PowerUp.x
                     (if c then Game.powerUps g ++ [o]
                      else Game.powerUps g))
            with (if c
                  then map PowerUp.x (Game.powerUps g)
                         ++ [Point.x pl + TERRAIN_SEGMENT_WIDTH]
                  else map PowerUp.x (Game.powerUps g));
          [apply (lined_update px (Point.x pl) (Point.x p) _ c HP);
           [lra | left; reflexivity]|]
      end.
      destruct (_ && _); [|reflexivity].
      rewrite List.map_app. reflexivity.
  - destruct (terrain_shift _ (px - 720) p0 pl Hs HH HL)
      as (p0' & _ & _ & HL2 & _); [lra|].
    exists pl. split; [exact HL2|].
    intros xs [-> | ->]; rewrite shiftBehind_map.
    + apply (lined_update px (Point.x pl) (Point.x pl) _ false HO);
        [lra | right; split; reflexivity].
    + apply (lined_update px (Point.x pl) (Point.x pl) _ false HP);
        [lra | right; split; reflexivity].
Qed.

Lemma entitiesLined_ext g g' :
  Player.x (Game.player g') = Player.x (Game.player g) ->
  Game.terrain g' = Game.terrain g ->
  Game.obstacles g' = Game.obstacles g ->
  Game.powerUps g' = Game.powerUps g ->
  entitiesLined g -> entitiesLined g'.
Proof. unfold entitiesLined. intros -> -> -> ->. trivial. Qed.

Lemma handleInputStart_lists gs clickY height g :
  let g' := fst (handleInputStart gs clickY height g) in
  Game.obstacles g' = Game.obstacles g
  /\ Game.powerUps g' = Game.powerUps g
  /\ Game.decorations g' = Game.decorations g.
Proof.
  unfold handleInputStart. break_if; simpl; tauto.
Qed.

Lemma entities_start now rnd a g :
  entitiesLined (syncInventory a (initGame now rnd g)).
Proof.
  unfold entitiesLined, syncInventory, initGame, Game.set_fishInventoryRef.
  cbn [Game.player Game.terrain Game.obstacles Game.powerUps map].
  destruct (initTerrain_ends rnd) as (p0 & pl & _ & -> & _).
  split; (split; [exact I | split; [constructor | exact I]]).
Qed.

Lemma entities_frame `{MathLib} now r s :
  invariant s -> onTerrain s -> laidOut s ->
  laidOut (step (Frame now r) s).
Proof.
  intros HI HC HE.
  destruct (playing s) eqn:Hp; [|unfold step; rewrite Hp; exact HE].
  apply playing_iff in Hp as Hgs.
  assert (covered (Sys.game s)) as HCg by (apply HC; congruence).
  assert (entitiesLined (Sys.game s)) as HEg by (apply HE; congruence).
  destruct HI as ((V0 & V1) & _ & _ & _ & _ & _ & ST).
  rewrite Hgs in ST. destruct ST as (TNE & _).
  destruct (gameLoop_playing r now _ TNE)
    as (g1 & EU & _ & P1 & _ & _ & _ & _ & L).
  destruct (updateTerrain_layout r _ g1 HCg HEg EU) as (pl' & HL & HX).
  cbv zeta in HX.
  unfold step. rewrite Hp, L. intros _. cbn [Sys.game].
  set (g' := fst (updatePhysics PLAYING now g1)).
  set (a' := applyEvents (Sys.app s) (snd (updatePhysics PLAYING now g1))).
  destruct (synced_fields a' g') as (SP & STt & _).
  destruct (render_fields g') as (_ & _ & _ & _ & _ & _ & RO & _ & RP).
  pose proof (updatePhysics_summary PLAYING now g1) as U. cbv zeta in U.
  destruct U as (UT & _ & _ & _ & UX & _).
  destruct (updatePhysics_abscissas PLAYING now g1) as [AO AP].
  fold g' in UT, UX, AO, AP.
  destruct (integrate_vx g1) as [I0 I1]. rewrite P1 in I0, I1, UX.
  specialize (I0 V0). specialize (I1 V1).
  set (v := Player.vx (integrate g1)) in *. clearbody v.
  unfold entitiesLined. rewrite SP, STt, UT, UX, HL.
  unfold syncInventory, Game.set_fishInventoryRef.
  cbn [Game.obstacles Game.powerUps]. rewrite RO, RP, AO, AP.
  set (px := Player.x (Game.player (Sys.game s))) in *.
  destruct (HX _ (or_introl eq_refl)) as (O1 & O2 & O3).
  destruct (HX _ (or_intror eq_refl)) as (U1 & U2 & U3).
  split; (split; [assumption | split; [assumption|]]).
  - destruct (head (map Obstacle.x (Game.obstacles g1))); [lra | exact I].
  - destruct (head (map PowerUp.x (Game.powerUps g1))); [lra | exact I].
Qed.

Lemma entities_step `{MathLib} i s :
  invariant s -> onTerrain s -> laidOut s -> laidOut (step i s).
Proof.
  intros HI HC HE. destruct i as [now rnd|now r| |index|clickY height|].
  - unfold step. destruct (playing s); [exact HE|].
    intros _. apply entities_start.
  - apply entities_frame; assumption.
  - unfold step. destruct (playing s) eqn:Hp; [|exact HE].
    apply playing_iff in Hp. intros _. apply HE. congruence.
  - unfold step. destruct (playing s) eqn:Hp; [|exact HE].
    destruct (handleSlotTap index (Sys.app s)) as [a'|]; [|exact HE].
    apply playing_iff in Hp. intros _. cbn [Sys.game].
    apply (entitiesLined_ext (Sys.game s)); try reflexivity.
    apply HE. congruence.
  - unfold step, laidOut. cbn [Sys.app Sys.game]. intros Hm.
    destruct (handleInputStart_fields (App.gameState (Sys.app s)) clickY
                height (Sys.game s))
      as (EX & _ & _ & _ & _ & _ & ET & _).
    destruct (handleInputStart_lists (App.gameState (Sys.app s)) clickY
                height (Sys.game s)) as (EO & EP & _).
    apply (entitiesLined_ext (Sys.game s)); try assumption. apply HE, Hm.
  - unfold step, laidOut. cbn [Sys.app Sys.game]. intros Hm.
    apply (entitiesLined_ext (Sys.game s)); try reflexivity. apply HE, Hm.
Qed.

Lemma reachable_laidOut `{MathLib} s : reachable s -> laidOut s.
Proof.
  induction 1 as [|i s Hr IH].
  - intros Hm. exfalso. apply Hm. reflexivity.
  - apply entities_step;
      [apply reachable_invariant | apply reachable_covered | exact IH];
      exact Hr.
Qed.

Lemma lined_length px lastX xs :
  lined px lastX xs -> lastX <= px + 1480 ->
  (List.length xs <= 57)%nat.
Proof.
  intros (Ha & HF & HH) HL.
  destruct xs as [|x xs]; [cbn [List.length]; lia|].
  cbn [head] in HH.
  destruct (last (x :: xs)) as [y|] eqn:EL.
  2: { apply last_None in EL. discriminate. }
  pose proof (apart_last x xs y Ha EL) as H1.
  assert (y <= lastX) as H2.
  { rewrite Forall_forall in HF. apply HF.
    apply last_Some_elem_of. exact EL. }
  cbn [List.length].
  set (n := Z.of_nat (List.length xs)) in *.
  assert (n <= 56)%Z; [|lia].
  destruct (Z_le_gt_dec 57 n) as [Hn|Hn]; [|lia].
  exfalso. rewrite Zle_Qle in Hn. change (inject_Z 57) with 57 in Hn. lra.
Qed.

(** Rocks and power-ups around the player. In every state of a session
    past the menu the rocks, and likewise the power-ups, are listed from
    left to right at least one segment width (40) apart, none further than
    the last terrain sample and none more than 760 behind the player:
    the cleanup of one element per frame keeps up with the player, and
    neither list ever holds more than 57 elements. *)
Theorem entities_in_window `{MathLib} (s : Sys.t) :
  reachable s -> App.gameState (Sys.app s) <> MENU ->
  entitiesLined (Sys.game s)
  /\ (List.length (Game.obstacles (Sys.game s)) <= 57)%nat
  /\ (List.length (Game.powerUps (Sys.game s)) <= 57)%nat.
Proof.
  intros Hr Hm.
  pose proof (reachable_laidOut s Hr Hm) as HE.
  destruct (reachable_covered s Hr Hm) as [_ HW].
  split; [exact HE|]. unfold entitiesLined in HE.
  destruct (head (Game.terrain (Sys.game s))); [|contradiction].
  destruct (last (Game.terrain (Sys.game s))) as [pl|]; [|contradiction].
  destruct HW as [_ [_ HL]]. destruct HE as [HO HP].
  apply lined_length in HO; [|exact HL].
  apply lined_length in HP; [|exact HL].
  rewrite length_map in HO, HP. split; assumption.
Qed.

Lemma entities_in_window_witness :
  entitiesLined (Sys.game startedSys)
  /\ (List.length (Game.obstacles (Sys.game startedSys)) <= 57)%nat
  /\ (List.length (Game.powerUps (Sys.game startedSys)) <= 57)%nat.
Proof.
  apply (@entities_in_window coarseMath).
  - apply (@reach_step coarseMath). apply (@reach_init coarseMath).
  - discriminate.
Defined.

(** ** Flight *)

(** The hover frame. updatePhysics leaves through the return of the
    flight branch exactly when, after the move and gravity, the flight
    timer is positive, the player is at or below the line 150 above the
    ground and is not moving up. Such a frame puts the player on that
    line with no vertical speed and does nothing else: no event, no
    change of the avalanche, of the obstacles, decorations and power-ups,
    of the camera shake or of the death flag. *)
Theorem hover_frame `{MathLib} (gs : GameState) (now : Z) (g : Game.t) :
  let p := integrate g in
  let gy := fst (getGroundY (Game.terrain g) (Player.x p)) in
  let g' := fst (updatePhysics gs now g) in
  (returnsEarly g = true
   <-> (0 < Player.flightTimer p)%Z /\ gy - 150 <= Player.y p
       /\ 0 <= Player.vy p)
  /\ (returnsEarly g = true ->
      snd (updatePhysics gs now g) = []
      /\ Game.player g' = Player.set_vy 0 (Player.set_y (gy - 150) p)
      /\ Game.avalancheX g' = Game.avalancheX g
      /\ Game.shake g' = Game.shake g
      /\ Game.obstacles g' = Game.obstacles g
      /\ Game.decorations g' = Game.decorations g
      /\ Game.powerUps g' = Game.powerUps g).
Proof.
  intros p gy g'. subst g'. split.
  - unfold returnsEarly. fold p. unfold floorCollision.
    subst gy. destruct (getGroundY (Game.terrain g) (Player.x p))
      as [gy ga]. cbn [fst].
    qcase (0 <? Player.flightTimer p)%Z.
    + qcase (Qle_bool (gy - 150) (Player.y p)); cbn [andb].
      * qcase (Qle_bool 0 (Player.vy p)).
        -- split; [intros _; repeat split; assumption | reflexivity].
        -- split; [discriminate | intros (_ & _ & Hv); lra].
      * split; [discriminate | intros (_ & Hy & _); lra].
    + split; [|intros (Hf & _); lia].
      destruct (_ && _); [|discriminate].
      destruct (negb (Player.isGrounded p));
        [destruct (landing ga p (Game.shake g)) as [[p1 s1] e1]|];
        discriminate.
  - intros RE. unfold returnsEarly in RE. fold p in RE.
    pose proof (floorCollision_state (Game.isHolding g) (Game.terrain g) p
                  (Game.shake g)) as HF.
    destruct (floorCollision (Game.isHolding g) (Game.terrain g) p
                (Game.shake g)) as [[[p1 sh1] ev1]|[[p1 sh1] ev1]] eqn:EF;
      [|discriminate].
    destruct HF as (-> & -> & -> & _).
    rewrite (updatePhysics_return gs now g _ _ _ EF).
    unfold Game.set_shake, Game.set_player.
    cbn [fst snd Game.player Game.avalancheX Game.shake Game.obstacles
         Game.decorations Game.powerUps].
    repeat split; reflexivity.
Qed.

Lemma hover_frame_witness :
  @returnsEarly coarseMath
    (Game.mk (Player.mk 100 200 20 0 0 false false 0 0 0 0 0 5 0)
       slope [] [] [] 0 (-800) 0 false 0) = true.
Proof.
  apply (@hover_frame coarseMath PLAYING 0
           (Game.mk (Player.mk 100 200 20 0 0 false false 0 0 0 0 0 5 0)
              slope [] [] [] 0 (-800) 0 false 0)).
  split; [reflexivity|]. split; vm_compute; discriminate.
Defined.

Lemma updateTerrain_spawn `{MathLib} r px g g1 pl :
  last (Game.terrain g) = Some pl ->
  updateTerrain r px g = Some g1 ->
  exists rock pu : bool,
    rock && pu = false
    /\ map Obstacle.x (Game.obstacles g1)
       = shiftBehind id (px - GAME_WIDTH)
           (if rock
            then map Obstacle.x (Game.obstacles g)
                   ++ [Point.x pl + TERRAIN_SEGMENT_WIDTH]
            else map Obstacle.x (Game.obstacles g))
    /\ map PowerUp.x (Game.powerUps g1)
       = shiftBehind id (px - GAME_WIDTH)
           (if pu
            then map PowerUp.x (Game.powerUps g)
                   ++ [Point.x pl + TERRAIN_SEGMENT_WIDTH]
            else map PowerUp.x (Game.powerUps g)).
Proof.
  unfold updateTerrain.
  destruct (last (Game.terrain g)) as [lp|]; [|discriminate].
  intros [= ->]. cbv zeta. intros E. injection E as E. subst g1.
  destruct (Qltb (Point.x pl) (px + GAME_WIDTH * 2));
    cbn [Game.obstacles Game.powerUps]; rewrite !shiftBehind_map.
  - exists (Qltb (r_rock r) 0.01),
      (negb (Qltb (r_rock r) 0.01) && Qltb (r_powerUp r) 0.012).
    split; [destruct (Qltb (r_rock r) 0.01); reflexivity|].
    split.
    + destruct (Qltb (r_rock r) 0.01); [|reflexivity].
      rewrite List.map_app. reflexivity.
    + destruct (_ && _); [|reflexivity].
      rewrite List.map_app. reflexivity.
  - exists false, false. repeat split; reflexivity.
Qed.

Lemma disjointX_shift c xs ys :
  disjointX xs ys ->
  disjointX (shiftBehind id c xs) (shiftBehind id c ys).
Proof.
  unfold disjointX. intros HD.
  assert (Forall (fun x => Forall (fun y => ~ x == y)
                             (shiftBehind id c ys)) xs) as HD'.
  { eapply Forall_impl; [exact HD|]. intros x Hx. simpl in Hx.
    destruct (shiftBehind_cases id c ys) as [->|(a & E & _)]; [exact Hx|].
    rewrite E in Hx. inversion Hx; assumption. }
  destruct (shiftBehind_cases id c xs) as [->|(a & E & _)]; [exact HD'|].
  rewrite E in HD'. inversion HD'; assumption.
Qed.

Lemma disjointX_spawn lastX xs ys (rock pu : bool) :
  rock && pu = false ->
  Forall (fun x => x <= lastX) xs -> Forall (fun y => y <= lastX) ys ->
  disjointX xs ys ->
  disjointX
    (if rock then xs ++ [lastX + TERRAIN_SEGMENT_WIDTH] else xs)
    (if pu then ys ++ [lastX + TERRAIN_SEGMENT_WIDTH] else ys).
Proof.
  unfold disjointX, TERRAIN_SEGMENT_WIDTH. intros HB HX HY HD.
  destruct rock, pu; try discriminate.
  - apply Forall_app. split; [exact HD|].
    constructor; [|constructor].
    eapply Forall_impl; [exact HY|]. intros y Hy E. simpl in Hy. lra.
  - rewrite Forall_forall in HD, HX. apply Forall_forall. intros x Hx.
    apply Forall_app. split; [apply HD; exact Hx|].
    constructor; [|constructor]. specialize (HX x Hx). simpl in HX.
    intros E. lra.
  - exact HD.
Qed.

Lemma rocksClear_step `{MathLib} i s :
  invariant s -> laidOut s -> rocksClear s -> rocksClear (step i s).
Proof.
  intros HI HE HD. destruct i as [now rnd|now r| |index|clickY height|].
  - unfold step. destruct (playing s); [exact HD|].
    intros _. constructor.
  - destruct (playing s) eqn:Hp; [|unfold step; rewrite Hp; exact HD].
    apply playing_iff in Hp as Hgs.
    assert (entitiesLined (Sys.game s)) as HEg by (apply HE; congruence).
    assert (disjointX (map Obstacle.x (Game.obstacles (Sys.game s)))
              (map PowerUp.x (Game.powerUps (Sys.game s)))) as HDg
        by (apply HD; congruence).
    destruct HI as (_ & _ & _ & _ & _ & _ & ST).
    rewrite Hgs in ST. destruct ST as (TNE & _).
    destruct (gameLoop_playing r now _ TNE)
      as (g1 & EU & _ & _ & _ & _ & _ & _ & L).
    unfold entitiesLined in HEg.
    destruct (last (Game.terrain (Sys.game s))) as [pl|] eqn:HL;
      [|contradiction].
    destruct HEg as [(_ & HO & _) (_ & HP & _)].
    destruct (updateTerrain_spawn r _ _ g1 pl HL EU)
      as (rock & pu & HB & EO & EP).
    unfold step. rewrite Hp, L. intros _. cbn [Sys.game].
    unfold syncInventory, Game.set_fishInventoryRef.
    cbn [Game.obstacles Game.powerUps].
    destruct (render_fields (fst (updatePhysics PLAYING now g1)))
      as (_ & _ & _ & _ & _ & _ & -> & _ & ->).
    destruct (updatePhysics_abscissas PLAYING now g1) as [-> ->].
    rewrite EO, EP. apply disjointX_shift.
    apply disjointX_spawn; assumption.
  - unfold step. destruct (playing s) eqn:Hp; [|exact HD].
    apply playing_iff in Hp. intros _. apply HD. congruence.
  - unfold step. destruct (playing s) eqn:Hp; [|exact HD].
    destruct (handleSlotTap index (Sys.app s)) as [a'|]; [|exact HD].
    apply playing_iff in Hp. intros _. apply HD. congruence.
  - unfold step, rocksClear. cbn [Sys.app Sys.game]. intros Hm.
    destruct (handleInputStart_lists (App.gameState (Sys.app s)) clickY
                height (Sys.game s)) as (-> & -> & _).
    apply HD, Hm.
  - exact HD.
Qed.

(** No power-up on a rock. In every state of a session past the menu no
    power-up has the abscissa of a rock: a terrain sample gets a rock or a
    power-up, never both, and nothing moves them. *)
Theorem no_powerup_on_rock `{MathLib} (s : Sys.t) :
  reachable s -> App.gameState (Sys.app s) <> MENU ->
  forall o u,
    In o (Game.obstacles (Sys.game s)) ->
    In u (Game.powerUps (Sys.game s)) ->
    ~ Obstacle.x o == PowerUp.x u.
Proof.
  intros Hr Hm o u Ho Hu.
  assert (rocksClear s) as HD.
  { clear Hm o u Ho Hu. induction Hr as [|i s Hr IH].
    - intros Hm. exfalso. apply Hm. reflexivity.
    - apply rocksClear_step;
        [apply reachable_invariant | apply reachable_laidOut | exact IH];
        exact Hr. }
  specialize (HD Hm). unfold disjointX in HD.
  rewrite List.Forall_forall in HD.
  specialize (HD (Obstacle.x o) (List.in_map Obstacle.x _ _ Ho)).
  rewrite List.Forall_forall in HD.
  exact (HD (PowerUp.x u) (List.in_map PowerUp.x _ _ Hu)).
Qed.

Lemma no_powerup_on_rock_witness :
  match Game.obstacles (Sys.game rockThenFish),
        Game.powerUps (Sys.game rockThenFish) with
  | o :: _, u :: _ => ~ Obstacle.x o == PowerUp.x u
  | _, _ => False
  end.
Proof.
  destruct (Game.obstacles (Sys.game rockThenFish)) as [|o os] eqn:EO;
    [vm_compute in EO; discriminate|].
  destruct (Game.powerUps (Sys.game rockThenFish)) as [|u us] eqn:EP;
    [vm_compute in EP; discriminate|].
  apply (@no_powerup_on_rock coarseMath rockThenFish).
  - apply (@reach_step coarseMath). apply (@reach_step coarseMath).
    apply (@reach_step coarseMath). apply (@reach_init coarseMath).
  - vm_compute. discriminate.
  - rewrite EO. left. reflexivity.
  - rewrite EP. left. reflexivity.
Defined.
